(** * Metrics Timeline Markdown table parser (Assignment 4/parser.py)

    A shallow embedding of the tokenizer, the Markdown fragment tree, the
    date parser, [Entry] and the recursive-descent parser, followed by the
    properties of the program.

    Modelling conventions.
    - A Python [str] is a [string]; its characters are the 8-bit characters
      of [ascii], read as the code points 0..255.  A value that is either a
      [str] or [None] is an [option string]; the one-character-or-empty
      result of [r.read(1)] is an [option ascii] ([None] for the empty
      string read at end of input).
    - An exception is a value of [exn]; code that can raise returns a
      [Result].
    - The two generators ([tokenize] and [parse]) are modelled by what they
      yield, in order, together with how they end ([Done] or [Raised e]).
      The tokenizer never looks at the parser, so the parser reads the
      tokenizer's yielded list and meets the tokenizer's exception when the
      list is exhausted.
    - Loops that read input are defined by recursion on a [nat] bound; the
      bound runs out with [None], which is not a program behaviour, and the
      totality lemmas show that the bounds used are enough. *)

From Stdlib Require Import Ascii String List ZArith Lia Bool Sorted.
From stdpp Require Import gmap strings list.

(** ** Exceptions and results *)

Inductive exn : Type :=
  | ValueError
  | AssertionError
  | NameError
  | TypeError
  | AttributeError
  | StopIteration
  | RuntimeError.

Inductive Result (A : Type) : Type :=
  | Ok (a : A)
  | Raise (e : exn).
Arguments Ok {A} a.
Arguments Raise {A} e.

Definition bind {A B : Type} (m : Result A) (k : A -> Result B) : Result B :=
  match m with
  | Ok a => k a
  | Raise e => Raise e
  end.

Notation "x <- m ;; k" := (bind m (fun x => k))
  (at level 100, m at next level, right associativity).

(** [for x in xs: f(x)] collecting the results; the first exception wins. *)
Fixpoint mapM {A B : Type} (f : A -> Result B) (xs : list A) : Result (list B) :=
  match xs with
  | [] => Ok []
  | x :: xs' => y <- f x ;; ys <- mapM f xs' ;; Ok (y :: ys)
  end.

(** ** Strings *)

Definition newline : ascii := "010"%char.
Definition str1 (c : ascii) : string := String c EmptyString.

(** The text of a character read with [getchar]. *)
Definition chr_text (c : option ascii) : string :=
  match c with
  | None => ""
  | Some a => str1 a
  end.

Fixpoint concat_strings (l : list string) : string :=
  match l with
  | [] => ""
  | s :: l' => s +:+ concat_strings l'
  end.

(** ["".join(items)]: every item must be a [str]. *)
Fixpoint join (items : list (option string)) : Result string :=
  match items with
  | [] => Ok ""
  | None :: _ => Raise TypeError
  | Some s :: items' => rest <- join items' ;; Ok (s +:+ rest)
  end.

Fixpoint in_string (c : ascii) (s : string) : bool :=
  match s with
  | EmptyString => false
  | String a s' => if Ascii.eqb c a then true else in_string c s'
  end.

(** The 32 ASCII punctuation characters of line 126. *)
Definition punctuation : string :=
  String "!"%char (String "034"%char "#$%&'()*+,-./:;<=>?@[\]^_`{|}~").

(** ** Tokens *)

Inductive TokenType : Type :=
  | LITERAL
  | TABLE_ROW_BEGIN
  | TABLE_ROW_END
  | TABLE_CELL_END
  | BACKTICK
  | OPEN_BRACKET
  | CLOSE_BRACKET
  | OPEN_PAREN
  | CLOSE_PAREN
  | EOF.

Definition TokenType_eqb (a b : TokenType) : bool :=
  match a, b with
  | LITERAL, LITERAL | TABLE_ROW_BEGIN, TABLE_ROW_BEGIN
  | TABLE_ROW_END, TABLE_ROW_END | TABLE_CELL_END, TABLE_CELL_END
  | BACKTICK, BACKTICK | OPEN_BRACKET, OPEN_BRACKET
  | CLOSE_BRACKET, CLOSE_BRACKET | OPEN_PAREN, OPEN_PAREN
  | CLOSE_PAREN, CLOSE_PAREN | EOF, EOF => true
  | _, _ => false
  end.

Record Token : Type := mkToken { type : TokenType; text : option string }.

(** How a generator ends: it returns, or an exception leaves it. *)
Inductive Ending : Type :=
  | Done
  | Raised (e : exn).

(** ** The tokenizer *)

Module Tokenizer.

(** The closure variables of [tokenize].  [unget_buf] is used as a stack:
    its head is the last element of the Python list. *)
Record Vars : Type := mkVars {
  r : string;
  unget_buf : list (option ascii);
  literals_buf : list (option string);
  tokens : list Token
}.

Definition set_r (v : Vars) (s : string) : Vars :=
  mkVars s (unget_buf v) (literals_buf v) (tokens v).
Definition set_unget_buf (v : Vars) (u : list (option ascii)) : Vars :=
  mkVars (r v) u (literals_buf v) (tokens v).
Definition set_literals_buf (v : Vars) (l : list (option string)) : Vars :=
  mkVars (r v) (unget_buf v) l (tokens v).
Definition set_tokens (v : Vars) (t : list Token) : Vars :=
  mkVars (r v) (unget_buf v) (literals_buf v) t.

Definition getchar (v : Vars) : option ascii * Vars :=
  match unget_buf v with
  | c :: u => (c, set_unget_buf v u)
  | [] =>
      match r v with
      | EmptyString => (None, v)
      | String c s => (Some c, set_r v s)
      end
  end.

Definition ungetchar (c : option ascii) (v : Vars) : Vars :=
  set_unget_buf v (c :: unget_buf v).

Definition flush_literals (v : Vars) : Result Vars :=
  match literals_buf v with
  | [] => Ok v
  | buf =>
      s <- join buf ;;
      Ok (set_literals_buf (set_tokens v (tokens v ++ [mkToken LITERAL (Some s)])) [])
  end.

Definition emit (ty : TokenType) (txt : option string) (v : Vars) : Result Vars :=
  match ty with
  | LITERAL => Ok (set_literals_buf v (literals_buf v ++ [txt]))
  | _ =>
      v' <- flush_literals v ;;
      Ok (set_tokens v' (tokens v' ++ [mkToken ty txt]))
  end.

(** The state functions; a state function returns the next one, or [None]
    to halt the loop. *)
Inductive State : Type :=
  | state_begin_line
  | state_literal_line
  | state_begin_table_cell
  | state_table_cell
  | state_eof.

Definition is_eol (c : option ascii) : bool :=
  match c with
  | None => true
  | Some a => Ascii.eqb a newline
  end.

Definition begin_line (v : Vars) : Result (option State * Vars) :=
  let (c, v) := getchar v in
  match c with
  | None => Ok (Some state_eof, v)
  | Some a =>
      if Ascii.eqb a "|"%char then
        v <- emit TABLE_ROW_BEGIN (Some (chr_text c)) v ;;
        Ok (Some state_begin_table_cell, v)
      else
        Ok (Some state_literal_line, ungetchar c v)
  end.

Definition literal_line (v : Vars) : Result (option State * Vars) :=
  let (c, v) := getchar v in
  v <- emit LITERAL (Some (chr_text c)) v ;;
  if is_eol c then Ok (Some state_begin_line, v)
  else Ok (Some state_literal_line, v).

Definition begin_table_cell (v : Vars) : Result (option State * Vars) :=
  let (c, v) := getchar v in
  if is_eol c then
    v <- emit TABLE_ROW_END (Some (chr_text c)) v ;;
    Ok (Some state_begin_line, v)
  else
    Ok (Some state_table_cell, ungetchar c v).

Definition table_cell (v : Vars) : Result (option State * Vars) :=
  let (c, v) := getchar v in
  if is_eol c then Raise ValueError
  else
    match c with
    | None => Raise ValueError
    | Some a =>
        if Ascii.eqb a "|"%char then
          v <- emit TABLE_CELL_END (Some (str1 a)) v ;;
          Ok (Some state_begin_table_cell, v)
        else if Ascii.eqb a "\"%char then
          let (d, v) := getchar v in
          if is_eol d then Raise ValueError
          else
            match d with
            | None => Raise ValueError
            | Some b =>
                v <- (if in_string b punctuation
                      then emit LITERAL (Some (str1 b)) v
                      else emit LITERAL (Some (str1 a +:+ str1 b)) v) ;;
                Ok (Some state_table_cell, v)
            end
        else
          v <- (if Ascii.eqb a "`"%char then emit BACKTICK (Some (str1 a)) v
                else if Ascii.eqb a "["%char then emit OPEN_BRACKET (Some (str1 a)) v
                else if Ascii.eqb a "]"%char then emit CLOSE_BRACKET (Some (str1 a)) v
                else if Ascii.eqb a "("%char then emit OPEN_PAREN (Some (str1 a)) v
                else if Ascii.eqb a ")"%char then emit CLOSE_PAREN (Some (str1 a)) v
                else emit LITERAL (Some (str1 a)) v) ;;
          Ok (Some state_table_cell, v)
    end.

Definition eof (v : Vars) : Result (option State * Vars) :=
  v <- emit EOF None v ;;
  Ok (None, v).

Definition call (s : State) (v : Vars) : Result (option State * Vars) :=
  match s with
  | state_begin_line => begin_line v
  | state_literal_line => literal_line v
  | state_begin_table_cell => begin_table_cell v
  | state_table_cell => table_cell v
  | state_eof => eof v
  end.

(** The state transition loop of lines 150-154.  [yielded] collects what
    [yield tokens.pop(0)] hands out; [n] bounds the number of state
    function calls. *)
Fixpoint loop (n : nat) (state : State) (v : Vars) (yielded : list Token)
  : option (list Token * Ending) :=
  match n with
  | O => None
  | S n' =>
      match call state v with
      | Raise e => Some (yielded, Raised e)
      | Ok (next, v') =>
          let yielded' := yielded ++ tokens v' in
          let v'' := set_tokens v' [] in
          match next with
          | None => Some (yielded', Done)
          | Some state' => loop n' state' v'' yielded'
          end
      end
  end.

Definition init (input : string) : Vars := mkVars input [] [] [].

(** A state function call uses up a character of the input or of
    [unget_buf], or is one of the last two calls, so this many calls are
    enough ([loop_total] below). *)
Definition bound (input : string) : nat := 3 * String.length input + 4.

End Tokenizer.

Definition tokenize (input : string) : option (list Token * Ending) :=
  Tokenizer.loop (Tokenizer.bound input) Tokenizer.state_begin_line
    (Tokenizer.init input) [].


(** ** Whitespace: [str.strip] and [str.split] *)

(** The characters [str.isspace] accepts among the code points 0..255. *)
Definition isspace (c : ascii) : bool :=
  let n := nat_of_ascii c in
  ((9 <=? n) && (n <=? 13)) || ((28 <=? n) && (n <=? 32))
  || (n =? 133) || (n =? 160).

Fixpoint lstrip (s : string) : string :=
  match s with
  | EmptyString => EmptyString
  | String c s' => if isspace c then lstrip s' else s
  end.

Fixpoint rstrip (s : string) : string :=
  match s with
  | EmptyString => EmptyString
  | String c s' =>
      match rstrip s' with
      | EmptyString => if isspace c then EmptyString else str1 c
      | t => String c t
      end
  end.

Definition strip (s : string) : string := rstrip (lstrip s).

(** [s.split()]: the maximal runs of non-whitespace characters.  [word] is
    the run read so far, in reverse. *)
Fixpoint split_from (word : list ascii) (s : string) : list string :=
  let close := match word with
               | [] => []
               | _ => [string_of_list_ascii (rev word)]
               end in
  match s with
  | EmptyString => close
  | String c s' =>
      if isspace c then close ++ split_from [] s'
      else split_from (c :: word) s'
  end.

Definition split (s : string) : list string := split_from [] s.

(** ** The Markdown fragment tree *)

#[local] Set Warnings "-register-all".

Inductive Node : Type :=
  | Markdown (children : list Node)
  | MarkdownLiteral (text : option string)
  | MarkdownCode (text : string)
  | MarkdownLink (label : Node) (href : string).

Section NodeInduction.
Variable P : Node -> Prop.
Hypothesis P_Markdown : forall children, Forall P children -> P (Markdown children).
Hypothesis P_Literal : forall text, P (MarkdownLiteral text).
Hypothesis P_Code : forall text, P (MarkdownCode text).
Hypothesis P_Link : forall label href, P label -> P (MarkdownLink label href).

Fixpoint Node_ind' (n : Node) : P n :=
  match n with
  | Markdown children =>
      P_Markdown children
        ((fix go (l : list Node) : Forall P l :=
            match l with
            | [] => @List.Forall_nil Node P
            | x :: l' => @List.Forall_cons Node P x l' (Node_ind' x) (go l')
            end) children)
  | MarkdownLiteral text => P_Literal text
  | MarkdownCode text => P_Code text
  | MarkdownLink label href => P_Link label href (Node_ind' label)
  end.
End NodeInduction.

(** [backslash_escape(s, chars)]; [chars] is the string (or empty set) of
    the characters to escape besides the backslash. *)
Fixpoint backslash_escape (s : string) (chars : string) : string :=
  match s with
  | EmptyString => EmptyString
  | String c s' =>
      (if Ascii.eqb c "\"%char || in_string c chars then "\" else "")
        +:+ String c (backslash_escape s' chars)
  end.

Fixpoint to_text (n : Node) : Result (option string) :=
  match n with
  | Markdown children =>
      texts <- mapM to_text children ;;
      s <- join texts ;;
      Ok (Some s)
  | MarkdownLiteral text => Ok text
  | MarkdownCode _ => Raise ValueError
  | MarkdownLink _ _ => Raise ValueError
  end.

Fixpoint to_markdown (n : Node) : Result string :=
  match n with
  | Markdown children =>
      parts <- mapM to_markdown children ;;
      Ok (concat_strings parts)
  | MarkdownLiteral text =>
      match text with
      | Some s => Ok (backslash_escape s "")
      | None => Raise TypeError
      end
  | MarkdownCode text =>
      Ok ("`" +:+ backslash_escape text "`" +:+ "`")
  | MarkdownLink label href =>
      inner <- to_markdown label ;;
      Ok ("[" +:+ backslash_escape inner "[]" +:+ "]("
              +:+ backslash_escape href "()" +:+ ")")
  end.

(** [extract_links]: the links of a links cell, in order. *)
Fixpoint extract_links (node : Node) : Result (list Node) :=
  match node with
  | Markdown children =>
      found <- mapM extract_links children ;;
      Ok (concat found)
  | MarkdownLink _ _ => Ok [node]
  | MarkdownLiteral text =>
      match text with
      | None => Raise AttributeError
      | Some s =>
          if String.eqb (strip s) "" then Ok [] else Raise ValueError
      end
  | MarkdownCode _ => Raise ValueError
  end.

(** ** Regular expressions: [re.match]

    The fragment of Python's [re] that the program and [strptime] use, with
    Python's backtracking order: alternatives left to right, optional and
    repeated parts greedy.  [re_match] is [re.match]: the pattern must match
    at the start of the string and need not reach its end. *)

Inductive regex : Type :=
  | Eps
  | Chr (c : ascii)
  | Cls (p : ascii -> bool)
  | Seq (r1 r2 : regex)
  | Alt (r1 r2 : regex)
  | Opt (r1 : regex)
  | Rep (min : nat) (p : ascii -> bool)
  | Group (name : ascii) (r1 : regex).

Definition groups : Type := list (ascii * string).

(** The first [String.length s - String.length rest] characters of [s]. *)
Definition consumed (s rest : string) : string :=
  String.substring 0 (String.length s - String.length rest) s.

Section Matcher.
Context {A : Type}.

(** [p{min,}] followed by [k], longest run first. *)
Fixpoint rep_match (p : ascii -> bool) (min : nat) (s : string)
    (k : string -> option A) : option A :=
  let stop := match min with O => k s | S _ => None end in
  match s with
  | EmptyString => stop
  | String c s' =>
      if p c then
        match rep_match p (Nat.pred min) s' k with
        | Some a => Some a
        | None => stop
        end
      else stop
  end.

Fixpoint rmatch (re : regex) (s : string) (g : groups)
    (k : string -> groups -> option A) : option A :=
  match re with
  | Eps => k s g
  | Chr c =>
      match s with
      | String a s' => if Ascii.eqb a c then k s' g else None
      | EmptyString => None
      end
  | Cls p =>
      match s with
      | String a s' => if p a then k s' g else None
      | EmptyString => None
      end
  | Seq r1 r2 => rmatch r1 s g (fun s' g' => rmatch r2 s' g' k)
  | Alt r1 r2 =>
      match rmatch r1 s g k with
      | Some a => Some a
      | None => rmatch r2 s g k
      end
  | Opt r1 =>
      match rmatch r1 s g k with
      | Some a => Some a
      | None => k s g
      end
  | Rep min p => rep_match p min s (fun s' => k s' g)
  | Group name r1 =>
      rmatch r1 s g (fun s' g' => k s' ((name, consumed s s') :: g'))
  end.
End Matcher.

(** [re.match(re, s)]: the unmatched rest of [s] and the groups, or [None]. *)
Definition re_match (re : regex) (s : string) : option (string * groups) :=
  rmatch re s [] (fun rest g => Some (rest, g)).

Definition is_char (c : ascii) : ascii -> bool := Ascii.eqb c.

(** The separator pattern of line 283: [:?-{3,}:?]. *)
Definition separator_re : regex :=
  Seq (Opt (Chr ":"%char)) (Seq (Rep 3 (is_char "-"%char)) (Opt (Chr ":"%char))).

(** ** Dates: [datetime.datetime.strptime]

    The library function is not part of the repository; this is its
    behaviour on the three formats the program passes.  The format is
    turned into a regular expression, one group per directive and [\s+]
    for a space; the string must match it to its end; the groups are read
    as numbers and the [date] and [datetime] constructors check them.
    Every failure is a [ValueError]. *)

Inductive Directive : Type := dY | dm | dd | dH | dM | dS.

Inductive FormatItem : Type :=
  | Dir (d : Directive)
  | Sep (c : ascii)
  | Space.

Definition Format : Type := list FormatItem.

Definition isdigit (c : ascii) : bool :=
  let n := nat_of_ascii c in (48 <=? n) && (n <=? 57).

Definition in_range (lo hi : ascii) (c : ascii) : bool :=
  (nat_of_ascii lo <=? nat_of_ascii c) && (nat_of_ascii c <=? nat_of_ascii hi).

Definition alts (l : list regex) (last : regex) : regex :=
  fold_right Alt last l.

Definition group_name (d : Directive) : ascii :=
  match d with
  | dY => "Y" | dm => "m" | dd => "d" | dH => "H" | dM => "M" | dS => "S"
  end%char.

Definition directive_re (d : Directive) : regex :=
  let c01 := Cls (in_range "0" "1") in
  let c02 := Cls (in_range "0" "2") in
  let c03 := Cls (in_range "0" "3") in
  let c05 := Cls (in_range "0" "5") in
  let c12 := Cls (in_range "1" "2") in
  let c19 := Cls (in_range "1" "9") in
  let dig := Cls isdigit in
  Group (group_name d)
    match d with
    | dY => Seq dig (Seq dig (Seq dig dig))
    | dm => alts [Seq (Chr "1") c02; Seq (Chr "0") c19] c19
    | dd => alts [Seq (Chr "3") c01; Seq c12 dig; Seq (Chr "0") c19; c19]
                 (Seq (Chr " ") c19)
    | dH => alts [Seq (Chr "2") c03; Seq c01 dig] dig
    | dM => alts [Seq c05 dig] dig
    | dS => alts [Seq (Chr "6") c01; Seq c05 dig] dig
    end%char.

Definition item_re (i : FormatItem) : regex :=
  match i with
  | Dir d => directive_re d
  | Sep c => Chr c
  | Space => Rep 1 isspace
  end.

Definition pattern (fmt : Format) : regex :=
  fold_right (fun i re => Seq (item_re i) re) Eps fmt.

Local Open Scope N_scope.

(** [int(s)] for a string of digits with optional surrounding blanks. *)
Fixpoint int_from (acc : N) (s : string) : N :=
  match s with
  | EmptyString => acc
  | String c s' =>
      if isdigit c then int_from (10 * acc + (N_of_ascii c - 48)) s'
      else int_from acc s'
  end.

Definition int (s : string) : N := int_from 0 s.

Fixpoint group (name : ascii) (g : groups) : option string :=
  match g with
  | [] => None
  | (n, s) :: g' => if Ascii.eqb n name then Some s else group name g'
  end.

(** The value of a directive, or its default when the format lacks it. *)
Definition field (d : Directive) (default : N) (g : groups) : N :=
  match group (group_name d) g with
  | Some s => int s
  | None => default
  end.

Record date : Type := mkDate { year : N; month : N; day : N }.

Record datetime : Type := mkDatetime {
  dt_date : date; hour : N; minute : N; second : N
}.

Definition is_leap (y : N) : bool :=
  (y mod 4 =? 0) && (negb (y mod 100 =? 0) || (y mod 400 =? 0)).

Definition days_in_month (y m : N) : N :=
  match m with
  | 2 => if is_leap y then 29 else 28
  | 4 | 6 | 9 | 11 => 30
  | _ => 31
  end.

(** [datetime.date(y, m, d)] *)
Definition make_date (y m d : N) : Result date :=
  if (1 <=? y) && (y <=? 9999) && (1 <=? m) && (m <=? 12)
     && (1 <=? d) && (d <=? days_in_month y m)
  then Ok (mkDate y m d) else Raise ValueError.

(** [datetime.datetime(y, m, d, H, M, S)] *)
Definition make_datetime (y m d H M S : N) : Result datetime :=
  dte <- make_date y m d ;;
  if (H <=? 23) && (M <=? 59) && (S <=? 59)
  then Ok (mkDatetime dte H M S) else Raise ValueError.

Local Close Scope N_scope.

Definition strptime (s : string) (fmt : Format) : Result datetime :=
  match re_match (pattern fmt) s with
  | None => Raise ValueError
  | Some (String _ _, _) => Raise ValueError
  | Some (EmptyString, g) =>
      make_datetime (field dY 1900 g) (field dm 1 g) (field dd 1 g)
        (field dH 0 g) (field dM 0 g) (field dS 0 g)
  end.

(** ["%Y-%m-%d %H:%M:%S"], ["%Y-%m-%d %H:%M"] and ["%Y-%m-%d"] *)
Definition fmt_date : Format :=
  [Dir dY; Sep "-"; Dir dm; Sep "-"; Dir dd]%char.
Definition fmt_minutes : Format :=
  fmt_date ++ [Space; Dir dH; Sep ":"; Dir dM]%char.
Definition fmt_seconds : Format :=
  fmt_minutes ++ [Sep ":"; Dir dS]%char.

(** ** [parse_datetime] *)

(** What [parse_datetime] returns first: a [datetime.datetime], a
    [datetime.date], or [None]. *)
Inductive DateValue : Type :=
  | a_datetime (d : datetime)
  | a_date (d : date).

Definition startswith (s : string) (c : ascii) : bool :=
  match s with
  | String a _ => Ascii.eqb a c
  | EmptyString => false
  end.

Definition tail (s : string) : string :=
  match s with
  | String _ s' => s'
  | EmptyString => EmptyString
  end.

(** The [for ... try ... break ... except ValueError: pass ... else] of lines
    168-175: the first format that parses wins; when the loop runs to its
    end the date format is tried and its exception is not caught. *)
Fixpoint for_fmt (fmts : list Format) (s : string) : Result DateValue :=
  match fmts with
  | fmt :: fmts' =>
      match strptime s fmt with
      | Ok result => Ok (a_datetime result)
      | Raise ValueError => for_fmt fmts' s
      | Raise e => Raise e
      end
  | [] =>
      result <- strptime s fmt_date ;;
      Ok (a_date (dt_date result))
  end.

Definition parse_datetime (s : option string)
  : Result (option DateValue * bool) :=
  match s with
  | None => Raise AttributeError
  | Some s =>
      if String.eqb s "" || String.eqb s "ongoing" then Ok (None, false)
      else
        let is_approx := startswith s "~" in
        let s := if is_approx then tail s else s in
        result <- for_fmt [fmt_seconds; fmt_minutes] s ;;
        Ok (Some result, is_approx)
  end.

(** ** [Entry] *)

Record Entry : Type := mkEntry {
  start_date : option DateValue;
  start_date_is_approx : bool;
  end_date : option DateValue;
  end_date_is_approx : bool;
  is_ongoing : bool;
  places : gset string;
  protocols : gset string;
  description : Node;
  links : list Node;
  is_unknown : bool
}.

(** [x == s] for a string constant [s]. *)
Definition equals (x : option string) (s : string) : bool :=
  match x with
  | Some t => String.eqb t s
  | None => false
  end.

(** [set(x.split())] *)
Definition split_set (x : option string) : Result (gset string) :=
  match x with
  | Some s => Ok (list_to_set (split s))
  | None => Raise AttributeError
  end.

(** [bool(x)] *)
Definition truth (x : option string) : bool :=
  match x with
  | Some (String _ _) => true
  | _ => false
  end.

(** [Entry.__init__(row)] *)
Definition Entry_init (row : list Node) : Result Entry :=
  match row with
  | [c_start_date; c_end_date; c_places; c_protocols; c_description;
     c_links; c_is_unknown] =>
      t <- to_text c_start_date ;;
      start <- parse_datetime t ;;
      t <- to_text c_end_date ;;
      end_ <- parse_datetime t ;;
      t <- to_text c_end_date ;;
      let ongoing := equals t "ongoing" in
      t <- to_text c_places ;;
      the_places <- split_set t ;;
      t <- to_text c_protocols ;;
      the_protocols <- split_set t ;;
      the_links <- extract_links c_links ;;
      t <- to_text c_is_unknown ;;
      Ok (mkEntry (fst start) (snd start) (fst end_) (snd end_) ongoing
            the_places the_protocols c_description the_links (truth t))
  | _ => Raise ValueError
  end.

(** ** The parser *)

Definition EXPECTED_COLUMN_NAMES : list string :=
  ["start date"; "end date"; "places"; "protocols"; "description"; "links"; "?"].

(** What [parse] yields: the text of a literal token, or a table. *)
Inductive Item : Type :=
  | Text (s : option string)
  | Table (entries : list Entry).

Module Parser.

(** The closure variables of [parse].  [tokenizer] is what the token
    generator has still to yield and [tokenizer_end] how it ends after
    that.  [unread_buf] is a stack: its head is the last element of the
    Python list. *)
Record Vars : Type := mkVars {
  unread_buf : list Token;
  tokenizer : list Token;
  tokenizer_end : Ending
}.

(** A parsing function: [None] when the recursion bound ran out. *)
Definition M (A : Type) : Type := Vars -> option (Result (A * Vars)).

Definition ret {A : Type} (a : A) : M A := fun v => Some (Ok (a, v)).
Definition raise {A : Type} (e : exn) : M A := fun _ => Some (Raise e).
Definition out_of_bound {A : Type} : M A := fun _ => None.
Definition lift {A : Type} (m : Result A) : M A :=
  fun v => match m with Ok a => Some (Ok (a, v)) | Raise e => Some (Raise e) end.

Definition bindM {A B : Type} (m : M A) (k : A -> M B) : M B :=
  fun v =>
    match m v with
    | None => None
    | Some (Raise e) => Some (Raise e)
    | Some (Ok (a, v')) => k a v'
    end.

Notation "x <~ m ;; k" := (bindM m (fun x => k))
  (at level 100, m at next level, right associativity).

Definition read_token : M Token :=
  fun v =>
    match unread_buf v with
    | tok :: u => Some (Ok (tok, mkVars u (tokenizer v) (tokenizer_end v)))
    | [] =>
        match tokenizer v with
        | tok :: rest => Some (Ok (tok, mkVars [] rest (tokenizer_end v)))
        | [] =>
            match tokenizer_end v with
            | Done => Some (Raise StopIteration)
            | Raised e => Some (Raise e)
            end
        end
    end.

Definition unread_token (tok : Token) : M unit :=
  fun v => Some (Ok (tt, mkVars (tok :: unread_buf v) (tokenizer v) (tokenizer_end v))).

(** The loop of [parse_code]; [txt] is the list [text]. *)
Fixpoint parse_code (n : nat) (txt : list (option string)) : M Node :=
  match n with
  | O => out_of_bound
  | S n' =>
      token <~ read_token ;;
      match type token with
      | BACKTICK => s <~ lift (join txt) ;; ret (MarkdownCode s)
      | LITERAL | OPEN_BRACKET | CLOSE_BRACKET | OPEN_PAREN | CLOSE_PAREN =>
          parse_code n' (txt ++ [text token])
      | _ => raise ValueError
      end
  end.

(** The second loop of [parse_link], which collects [href]. *)
Fixpoint parse_link_href (n : nat) (label : list Node) (href : list (option string))
  : M Node :=
  match n with
  | O => out_of_bound
  | S n' =>
      token <~ read_token ;;
      match type token with
      | CLOSE_PAREN => s <~ lift (join href) ;; ret (MarkdownLink (Markdown label) s)
      | LITERAL | BACKTICK | OPEN_BRACKET | CLOSE_BRACKET =>
          parse_link_href n' label (href ++ [text token])
      | _ => raise ValueError
      end
  end.

(** [parse_link] from line 358 on, after the first loop's [break].  The
    name [MarkdownNodeText] of line 362 is bound nowhere, so evaluating the
    argument of [insert] raises [NameError]. *)
Definition parse_link_tail (n : nat) (label : list Node) : M Node :=
  token <~ read_token ;;
  match type token with
  | OPEN_PAREN => parse_link_href n label []
  | _ => _ <~ unread_token token ;; raise NameError
  end.

(** The first loop of [parse_link]; [label] is [label.children]. *)
Fixpoint parse_link (n : nat) (label : list Node) : M Node :=
  match n with
  | O => out_of_bound
  | S n' =>
      token <~ read_token ;;
      match type token with
      | CLOSE_BRACKET => parse_link_tail n' label
      | OPEN_BRACKET =>
          _ <~ unread_token token ;;
          ret (Markdown (MarkdownLiteral (Some "[") :: label))
      | LITERAL => parse_link n' (label ++ [MarkdownLiteral (text token)])
      | BACKTICK =>
          code <~ parse_code n' [] ;;
          parse_link n' (label ++ [code])
      | OPEN_PAREN | CLOSE_PAREN =>
          parse_link n' (label ++ [MarkdownLiteral (text token)])
      | _ => raise ValueError
      end
  end.

(** [parse_table_cell]; [children] is [node.children]. *)
Fixpoint parse_table_cell (n : nat) (children : list Node) : M Node :=
  match n with
  | O => out_of_bound
  | S n' =>
      token <~ read_token ;;
      match type token with
      | TABLE_CELL_END => ret (Markdown children)
      | LITERAL => parse_table_cell n' (children ++ [MarkdownLiteral (text token)])
      | BACKTICK =>
          code <~ parse_code n' [] ;;
          parse_table_cell n' (children ++ [code])
      | OPEN_BRACKET =>
          link <~ parse_link n' [] ;;
          parse_table_cell n' (children ++ [link])
      | _ => parse_table_cell n' (children ++ [MarkdownLiteral (text token)])
      end
  end.

Fixpoint parse_table_row (n : nat) (row : list Node) : M (list Node) :=
  match n with
  | O => out_of_bound
  | S n' =>
      token <~ read_token ;;
      match type token with
      | TABLE_ROW_END => ret row
      | _ =>
          _ <~ unread_token token ;;
          cell <~ parse_table_cell n' [] ;;
          parse_table_row n' (row ++ [cell])
      end
  end.

(** [tuple(cell.to_text().strip() for cell in row)] *)
Definition stripped_texts (row : list Node) : Result (list string) :=
  mapM (fun cell =>
          t <- to_text cell ;;
          match t with
          | Some s => Ok (strip s)
          | None => Raise AttributeError
          end) row.

Definition assert (b : bool) : Result unit :=
  if b then Ok tt else Raise AssertionError.

Definition string_list_eqb (a b : list string) : bool :=
  bool_decide (a = b).

(** The separator test of line 283 for one cell. *)
Definition separator_ok (sep : string) : bool :=
  match re_match separator_re (strip sep) with
  | Some _ => true
  | None => false
  end.

(** The loop of [parse_table] that reads the entries. *)
Fixpoint parse_table_entries (n : nat) (entries : list Entry) : M (list Entry) :=
  match n with
  | O => out_of_bound
  | S n' =>
      token <~ read_token ;;
      match type token with
      | TABLE_ROW_BEGIN =>
          row <~ parse_table_row n' [] ;;
          entry <~ lift (Entry_init row) ;;
          parse_table_entries n' (entries ++ [entry])
      | _ => _ <~ unread_token token ;; ret entries
      end
  end.

(** The header part of [parse_table], lines 269-271. *)
Definition parse_table_header (n : nat) : M unit :=
  row <~ parse_table_row n [] ;;
  column_names <~ lift (stripped_texts row) ;;
  lift (assert (string_list_eqb column_names EXPECTED_COLUMN_NAMES)).

(** The separator part of [parse_table], lines 273-283. *)
Definition parse_table_separator (n : nat) : M unit :=
  token <~ read_token ;;
  _ <~ lift (assert (TokenType_eqb (type token) TABLE_ROW_BEGIN)) ;;
  row <~ parse_table_row n [] ;;
  separator <~ lift (stripped_texts row) ;;
  lift (assert (forallb separator_ok separator)).

Definition parse_table (n : nat) : M (list Entry) :=
  _ <~ parse_table_header n ;;
  _ <~ parse_table_separator n ;;
  parse_table_entries n [].

(** An exception that leaves the generator [parse]: a [StopIteration]
    becomes a [RuntimeError]. *)
Definition leaving (e : exn) : Ending :=
  match e with
  | StopIteration => Raised RuntimeError
  | _ => Raised e
  end.

(** The loop of [parse], lines 379-388; [yielded] collects what it yields. *)
Fixpoint loop (n : nat) (yielded : list Item) (v : Vars)
  : option (list Item * Ending) :=
  match n with
  | O => None
  | S n' =>
      match read_token v with
      | None => None
      | Some (Raise e) => Some (yielded, leaving e)
      | Some (Ok (token, v)) =>
          match type token with
          | EOF => Some (yielded, Done)
          | LITERAL => loop n' (yielded ++ [Text (text token)]) v
          | TABLE_ROW_BEGIN =>
              match parse_table n' v with
              | None => None
              | Some (Raise e) => Some (yielded, leaving e)
              | Some (Ok (entries, v)) => loop n' (yielded ++ [Table entries]) v
              end
          | _ => Some (yielded, leaving ValueError)
          end
      end
  end.

Definition size (v : Vars) : nat := length (unread_buf v) + length (tokenizer v).

Definition init (toks : list Token) (e : Ending) : Vars := mkVars [] toks e.

End Parser.

(** [parse(r)], for [r] a stream holding [input]. *)
Definition parse (input : string) : option (list Item * Ending) :=
  match tokenize input with
  | None => None
  | Some (toks, e) => 
      let v := Parser.init toks e in
      Parser.loop (Parser.size v + 2) [] v
  end.

(** ** md2csv.py: from a Metrics Timeline file to the rows of a CSV table *)

Definition format_bool (b : bool) : string := if b then "T" else "F".

(** Decimal digits.  [strftime] writes the month, the day, the hour, the
    minute and the second with two digits, and the year as the C library
    does for [%Y]: in decimal without padding (with four digits from the
    year 1000 on). *)
Definition digit (n : N) : ascii := ascii_of_N (48 + n mod 10).

Definition two_digits (n : N) : string :=
  String (digit (n / 10)) (String (digit n) EmptyString).

Fixpoint decimal_from (fuel : nat) (n : N) (acc : string) : string :=
  match fuel with
  | O => acc
  | S fuel' =>
      let acc' := String (digit n) acc in
      if (n <? 10)%N then acc' else decimal_from fuel' (n / 10) acc'
  end.

Definition decimal (n : N) : string :=
  decimal_from (S (N.to_nat (N.log2 n))) n EmptyString.

(** [d.strftime("%Y-%m-%d")] *)
Definition strftime_date (d : date) : string :=
  decimal (year d) +:+ "-" +:+ two_digits (month d) +:+ "-"
  +:+ two_digits (day d).

(** [d.strftime("%Y-%m-%d %H:%M:%S")] *)
Definition strftime_datetime (d : datetime) : string :=
  strftime_date (dt_date d) +:+ " " +:+ two_digits (hour d) +:+ ":"
  +:+ two_digits (minute d) +:+ ":" +:+ two_digits (second d).

Definition format_date (d : option DateValue) : string :=
  match d with
  | None => ""
  | Some (a_datetime dt) => strftime_datetime dt
  | Some (a_date dte) => strftime_date dte
  end.

(** [sorted(s)] for a set of strings: its elements in ascending order,
    strings being compared character by character by code point. *)
Fixpoint insert_sorted (x : string) (l : list string) : list string :=
  match l with
  | [] => [x]
  | y :: l' => if String.leb x y then x :: l else y :: insert_sorted x l'
  end.

Definition sorted (s : gset string) : list string :=
  foldr insert_sorted [] (elements s).

(** [sep.join(l)] *)
Fixpoint join_with (sep : string) (l : list string) : string :=
  match l with
  | [] => ""
  | [x] => x
  | x :: l' => x +:+ sep +:+ join_with sep l'
  end.

(** The dictionary that [entry_to_row] returns, by its keys. *)
Record Row : Type := mkRow {
  row_start_date : string;
  row_start_date_is_approx : string;
  row_end_date : string;
  row_end_date_is_approx : string;
  row_places : string;
  row_protocols : string;
  row_description : string;
  row_links : string;
  row_is_unknown : string
}.

Definition entry_to_row (entry : Entry) : Result Row :=
  let the_start := format_date (start_date entry) in
  let start_approx := format_bool (start_date_is_approx entry) in
  let the_end := format_date (end_date entry) in
  let end_approx := format_bool (end_date_is_approx entry) in
  let the_places := join_with " " (sorted (places entry)) in
  let the_protocols := join_with " " (sorted (protocols entry)) in
  the_description <- to_markdown (description entry) ;;
  the_links <- mapM to_markdown (links entry) ;;
  Ok (mkRow the_start start_approx the_end end_approx the_places
        the_protocols the_description (join_with " " the_links)
        (format_bool (is_unknown entry))).

(** The inner loop of [process]: a row is written for each entry;
    [written] is what [csv_w] wrote so far. *)
Fixpoint write_rows (entries : list Entry) (written : list Row)
  : list Row * Ending :=
  match entries with
  | [] => (written, Done)
  | entry :: entries' =>
      match entry_to_row entry with
      | Ok row => write_rows entries' (written ++ [row])
      | Raise e => (written, Raised e)
      end
  end.

(** The loop of [process] over what [parse] yields.  An item that is no
    string is iterated over, which raises [TypeError] for [None]. *)
Fixpoint process_items (items : list Item) (written : list Row)
  : list Row * Ending :=
  match items with
  | [] => (written, Done)
  | Text (Some _) :: items' => process_items items' written
  | Text None :: _ => (written, Raised TypeError)
  | Table entries :: items' =>
      match write_rows entries written with
      | (written', Done) => process_items items' written'
      | stopped => stopped
      end
  end.

(** [process(r, csv_w)], for [r] a stream holding [input]: the rows
    written, and how the call ends: it returns, or an exception of
    [entry_to_row] or of [parse] leaves it. *)
Definition process (input : string) : option (list Row * Ending) :=
  match parse input with
  | None => None
  | Some (items, e) =>
      match process_items items [] with
      | (written, Done) => Some (written, e)
      | stopped => Some stopped
      end
  end.

(** * Definitions for the properties

    The specification-side definitions, the examples and the measures that
    the statements below use. *)

(** The date rule in the words of the specification: no date for the empty
    string and for "ongoing"; otherwise strip a leading tilde and take the
    first of the three formats that parses. *)
Definition parse_datetime_spec (s : string) : Result (option DateValue * bool) :=
  if String.eqb s "" then Ok (None, false)
  else if String.eqb s "ongoing" then Ok (None, false)
  else
    let approx := startswith s "~" in
    let rest := if approx then tail s else s in
    match strptime rest fmt_seconds with
    | Ok d => Ok (Some (a_datetime d), approx)
    | Raise _ =>
        match strptime rest fmt_minutes with
        | Ok d => Ok (Some (a_datetime d), approx)
        | Raise _ =>
            match strptime rest fmt_date with
            | Ok d => Ok (Some (a_date (dt_date d)), approx)
            | Raise _ => Raise ValueError
            end
        end
    end.

(** The tree of a cell that holds the one literal [s]. *)
Definition cell (s : string) : Node := Markdown [MarkdownLiteral (Some s)].

(** A row of seven cells and the entry that [Entry.__init__] builds from
    it. *)
Definition sample_row : list Node :=
  [cell "2020-01-01"; cell "ongoing"; cell "US DE"; cell "tor";
   cell "Some event"; Markdown []; Markdown []].

Definition sample_entry : Entry :=
  mkEntry (Some (a_date (mkDate 2020 1 1))) false None false true
    (list_to_set ["US"; "DE"]) (list_to_set ["tor"])
    (cell "Some event") [] false.

(** The end of a line. *)
Definition nl : string := str1 newline.

(** The header and separator rows of the specification's example table. *)
Definition header_rows : string :=
  "| start date | end date | places | protocols | description | links | ? |"
  +:+ nl +:+ "|---|---|---|---|---|---|---|" +:+ nl.

(** Every character of [s] satisfies [p]. *)
Fixpoint all_chars (p : ascii -> bool) (s : string) : bool :=
  match s with
  | EmptyString => true
  | String c s' => p c && all_chars p s'
  end.

(** A tree that holds, besides containers, only links and literals made of
    white space. *)
Fixpoint links_only (node : Node) : bool :=
  match node with
  | Markdown children => forallb links_only children
  | MarkdownLink _ _ => true
  | MarkdownLiteral (Some s) => all_chars isspace s
  | MarkdownLiteral None => false
  | MarkdownCode _ => false
  end.

(** The links of a tree in tree order (a link's label is not searched). *)
Fixpoint link_nodes (node : Node) : list Node :=
  match node with
  | Markdown children => flat_map link_nodes children
  | MarkdownLink _ _ => [node]
  | _ => []
  end.

(** The link [[ref](http://x)]. *)
Definition sample_link : Node :=
  MarkdownLink (Markdown [MarkdownLiteral (Some "ref")]) "http://x".

(** [re.fullmatch(re, s)]: the pattern anchored at both ends. *)
Definition re_fullmatch (re : regex) (s : string) : option groups :=
  rmatch re s []
    (fun rest g => match rest with EmptyString => Some g | _ => None end).

(** The separator policy in the words of the specification: the trimmed
    cell matches the anchored pattern. *)
Definition separator_anchored (sep : string) : bool :=
  match re_fullmatch separator_re (strip sep) with
  | Some _ => true
  | None => false
  end.

(** [s] starts with [n] characters that satisfy [p]. *)
Fixpoint starts_with_run (p : ascii -> bool) (n : nat) (s : string) : bool :=
  match n with
  | O => true
  | S n' =>
      match s with
      | String c s' => p c && starts_with_run p n' s'
      | EmptyString => false
      end
  end.

(** The ASCII punctuation characters by code: 33-47, 58-64, 91-96 and
    123-126. *)
Definition is_ascii_punctuation (c : ascii) : bool :=
  let n := nat_of_ascii c in
  ((33 <=? n) && (n <=? 47)) || ((58 <=? n) && (n <=? 64))
  || ((91 <=? n) && (n <=? 96)) || ((123 <=? n) && (n <=? 126)).

(** What [state_table_cell] does after reading a backslash and then [d]:
    it appends one string to [literals_buf], or raises. *)
Definition after_backslash (d : option ascii) (v : Tokenizer.Vars)
  : Result (option Tokenizer.State * Tokenizer.Vars) :=
  let literal s :=
    Ok (Some Tokenizer.state_table_cell,
        Tokenizer.set_literals_buf v (Tokenizer.literals_buf v ++ [Some s])) in
  match d with
  | None => Raise ValueError
  | Some b =>
      if Ascii.eqb b newline then Raise ValueError
      else if is_ascii_punctuation b then literal (str1 b)
      else literal (String "\" (str1 b))
  end.

(** Parsing the text [s] as a cell: the first cell that the parser reads
    from the row [|s|], after the token that begins the row. *)
Definition parse_cell (s : string) : option (Result Node) :=
  match tokenize ("|" +:+ s +:+ "|") with
  | None => None
  | Some (toks, e) =>
      let v := Parser.init toks e in
      match Parser.bindM Parser.read_token
              (fun _ => Parser.parse_table_cell (Parser.size v) []) v
      with
      | None => None
      | Some (Raise e) => Some (Raise e)
      | Some (Ok (node, _)) => Some (Ok node)
      end
  end.

(** The entry of the specification's example table. *)
Definition example_entry : Entry :=
  mkEntry (Some (a_date (mkDate 2020 1 1))) false None false true
    {[ "US"; "DE" ]} {[ "tor" ]} (cell "Some event") [sample_link] false.

(** The tokens of a header row whose only cell is "desc", after the token
    that begins the row. *)
Definition misnamed_header : list Token :=
  [mkToken LITERAL (Some "desc"); mkToken TABLE_CELL_END (Some "|");
   mkToken TABLE_ROW_END (Some "")].

(** The characters that the tokenizer has still to read. *)
Definition chars_left (v : Tokenizer.Vars) : nat :=
  String.length (Tokenizer.r v) + length (Tokenizer.unget_buf v).

(** A bound on the number of state function calls after the next one. *)
Definition calls_left (state : Tokenizer.State) (v : Tokenizer.Vars) : nat :=
  match state with
  | Tokenizer.state_eof => 0
  | Tokenizer.state_begin_line =>
      3 * chars_left v + (if chars_left v =? 0 then 1 else 3)
  | Tokenizer.state_literal_line => 3 * chars_left v + 2
  | Tokenizer.state_begin_table_cell => 3 * chars_left v + 3
  | Tokenizer.state_table_cell => 3 * chars_left v + 2
  end.

(** [res] is a result, and a state it returns has fewer than [m] tokens
    left. *)
Definition ends {A : Type} (res : option (Result (A * Parser.Vars))) (m : nat)
  : Prop :=
  match res with
  | None => False
  | Some (Raise _) => True
  | Some (Ok (_, v')) => Parser.size v' < m
  end.

(** [flush_literals] on a buffer of strings: the literal token it yields. *)
Definition flushed (buf : list string) : list Token :=
  match buf with
  | [] => []
  | _ => [mkToken LITERAL (Some (concat_strings buf))]
  end.

(** The token type of a character that is a token of its own in a cell. *)
Definition special (a : ascii) : option TokenType :=
  if Ascii.eqb a "`" then Some BACKTICK
  else if Ascii.eqb a "[" then Some OPEN_BRACKET
  else if Ascii.eqb a "]" then Some CLOSE_BRACKET
  else if Ascii.eqb a "(" then Some OPEN_PAREN
  else if Ascii.eqb a ")" then Some CLOSE_PAREN
  else None.

(** The tokens that the text [c] of a cell stands for, [buf] being the
    literal characters read before it; [None] when [c] holds a bare
    newline or pipe or an unfinished escape, which no cell text does. *)
Fixpoint lex (buf : list string) (c : string) : option (list Token) :=
  match c with
  | EmptyString => Some (flushed buf)
  | String a c' =>
      if Ascii.eqb a newline || Ascii.eqb a "|" then None
      else if Ascii.eqb a "\" then
        match c' with
        | EmptyString => None
        | String d c'' =>
            if Ascii.eqb d newline then None
            else if in_string d punctuation then lex (buf ++ [str1 d]) c''
            else lex (buf ++ [String a (str1 d)]) c''
        end
      else
        match special a with
        | Some ty =>
            match lex [] c' with
            | Some toks => Some (flushed buf ++ mkToken ty (Some (str1 a)) :: toks)
            | None => None
            end
        | None => lex (buf ++ [str1 a]) c'
        end
  end.

(** The tokens of a pipe: at the end of a cell and at the start of a row. *)
Definition cell_end : Token := mkToken TABLE_CELL_END (Some "|").

Definition row_begin : Token := mkToken TABLE_ROW_BEGIN (Some "|").

(** No character of [s] is in [chars]. *)
Definition free_of (chars : string) (s : string) : bool :=
  all_chars (fun c => negb (in_string c chars)) s.

(** The texts that serialization leaves to the backslash rule alone: no
    newline and none of the characters that make a token of their own. *)
Definition plain (s : string) : bool :=
  free_of (String newline "|`[]()") s.

(** The text of a token; every token but the last of a stream has one. *)
Definition token_text (tok : Token) : string :=
  match text tok with
  | Some s => s
  | None => ""
  end.

(** The texts of tokens, put together. *)
Definition src (toks : list Token) : string :=
  concat_strings (map token_text toks).

(** A token of a cell with its text: a literal without newline, pipe,
    backtick, bracket or parenthesis, or one of the five one-character
    tokens. *)
Definition cell_token (tok : Token) : bool :=
  match type tok, text tok with
  | LITERAL, Some s => plain s
  | BACKTICK, Some s => String.eqb s "`"
  | OPEN_BRACKET, Some s => String.eqb s "["
  | CLOSE_BRACKET, Some s => String.eqb s "]"
  | OPEN_PAREN, Some s => String.eqb s "("
  | CLOSE_PAREN, Some s => String.eqb s ")"
  | _, _ => false
  end.

(** The tokens that [read_token] will hand out, in order. *)
Definition stream (v : Parser.Vars) : list Token :=
  Parser.unread_buf v ++ Parser.tokenizer v.

(** A cell text with escapes in a literal, in a link label, in an href and
    in a code span, with a code span in a label and with bracketed text
    that is no link, and the tree it parses to. *)
Definition sample_cell_text : string :=
  "a\*b [x\]y](u\)v) `c\`d` [`e[0]`](w) (z) \q [k[l](m)".

Definition sample_cell_tree : Node :=
  Markdown
    [MarkdownLiteral (Some "a*b ");
     MarkdownLink (Markdown [MarkdownLiteral (Some "x]y")]) "u)v";
     MarkdownLiteral (Some " "); MarkdownCode "c`d";
     MarkdownLiteral (Some " ");
     MarkdownLink (Markdown [MarkdownCode "e[0]"]) "w";
     MarkdownLiteral (Some " "); MarkdownLiteral (Some "(");
     MarkdownLiteral (Some "z"); MarkdownLiteral (Some ")");
     MarkdownLiteral (Some " \q ");
     Markdown [MarkdownLiteral (Some "["); MarkdownLiteral (Some "k")];
     MarkdownLink (Markdown [MarkdownLiteral (Some "l")]) "m"].

(** ** The shape of a token stream *)

(** Where a token stream stands: outside a table row, after text outside
    a row, at the start of a cell, in a cell after a token that is no
    literal, in a cell after a literal, and after the last token. *)
Inductive Place : Type :=
  | outside
  | after_text
  | cell_start
  | in_cell
  | after_literal
  | finished.

(** No line of [s] begins with a pipe; [at_start] tells whether [s] begins
    at the start of a line. *)
Fixpoint no_row_line (at_start : bool) (s : string) : bool :=
  match s with
  | EmptyString => true
  | String c s' =>
      negb (at_start && Ascii.eqb c "|") && no_row_line (Ascii.eqb c newline) s'
  end.

(** One of the five one-character tokens of a cell, with its text. *)
Definition one_char_token (tok : Token) : bool :=
  match type tok with
  | LITERAL => false
  | _ => cell_token tok
  end.

(** The place after the token [tok] read at the place [p], or [None] when
    the token cannot stand there.  Text outside a row is one literal that
    is not empty and has no line beginning with a pipe; a row is the token
    that begins it, cells that each end with a pipe, and the token that
    ends it; in a cell stand one-character tokens and literals that are
    not empty and hold no newline, no two literals side by side. *)
Definition step (p : Place) (tok : Token) : option Place :=
  match type tok, text tok, p with
  | LITERAL, Some s, outside =>
      if negb (String.eqb s "") && no_row_line true s
      then Some after_text else None
  | LITERAL, Some s, (cell_start | in_cell) =>
      if negb (String.eqb s "") && free_of nl s
      then Some after_literal else None
  | TABLE_ROW_BEGIN, Some s, (outside | after_text) =>
      if String.eqb s "|" then Some cell_start else None
  | TABLE_ROW_END, Some s, cell_start =>
      if String.eqb s nl || String.eqb s "" then Some outside else None
  | TABLE_CELL_END, Some s, (cell_start | in_cell | after_literal) =>
      if String.eqb s "|" then Some cell_start else None
  | (BACKTICK | OPEN_BRACKET | CLOSE_BRACKET | OPEN_PAREN | CLOSE_PAREN),
    Some _, (cell_start | in_cell | after_literal) =>
      if one_char_token tok then Some in_cell else None
  | EOF, None, (outside | after_text) => Some finished
  | _, _, _ => None
  end.

(** The place after the tokens [toks], read from the place [p]. *)
Fixpoint run (p : Place) (toks : list Token) : option Place :=
  match toks with
  | [] => Some p
  | tok :: toks' =>
      match step p tok with
      | Some q => run q toks'
      | None => None
      end
  end.

(** [s] ends at the start of a line; [b] tells whether it began at one. *)
Fixpoint line_start (b : bool) (s : string) : bool :=
  match s with
  | EmptyString => b
  | String c s' => line_start (Ascii.eqb c newline) s'
  end.

(** What holds of the tokenizer's variables before each call of a state
    function: [tokens] is empty, [literals_buf] holds strings, not all of
    them empty, and what was yielded stands at the place that belongs to
    the state. *)
Definition shape_inv (state : Tokenizer.State) (v : Tokenizer.Vars)
    (yielded : list Token) : Prop :=
  Tokenizer.tokens v = []
  /\ exists buf,
      Tokenizer.literals_buf v = map Some buf
      /\ (buf <> [] -> concat_strings buf <> "")
      /\ match state with
         | Tokenizer.state_begin_line | Tokenizer.state_eof =>
             Tokenizer.unget_buf v = []
             /\ run outside yielded = Some outside
             /\ no_row_line true (concat_strings buf) = true
             /\ (line_start true (concat_strings buf) = true
                 \/ Tokenizer.r v = "")
         | Tokenizer.state_literal_line =>
             run outside yielded = Some outside
             /\ no_row_line true (concat_strings buf) = true
             /\ ((exists c, Tokenizer.unget_buf v = [Some c]
                            /\ Ascii.eqb c "|" = false
                            /\ line_start true (concat_strings buf) = true)
                 \/ (Tokenizer.unget_buf v = []
                     /\ line_start true (concat_strings buf) = false))
         | Tokenizer.state_begin_table_cell =>
             buf = [] /\ Tokenizer.unget_buf v = []
             /\ run outside yielded = Some cell_start
         | Tokenizer.state_table_cell =>
             free_of nl (concat_strings buf) = true
             /\ length (Tokenizer.unget_buf v) <= 1
             /\ (run outside yielded = Some cell_start
                 \/ run outside yielded = Some in_cell)
         end.

(** ** Text outside tables *)

(** The token and the item of the text [s] outside a table; no token and
    no item when there is no text. *)
Definition text_token (s : string) : list Token :=
  match s with
  | EmptyString => []
  | _ => [mkToken LITERAL (Some s)]
  end.

Definition text_item (s : string) : list Item :=
  match s with
  | EmptyString => []
  | _ => [Text (Some s)]
  end.

(** What a generator yields and how it ends, after it yielded [first]. *)
Definition after {A : Type} (first : list A) (res : option (list A * Ending))
  : option (list A * Ending) :=
  match res with
  | Some (l, e) => Some (first ++ l, e)
  | None => None
  end.

(** The state in which the tokenizer reads text outside a row: at the
    start of a line or in a line. *)
Definition text_state (at_start : bool) : Tokenizer.State :=
  if at_start then Tokenizer.state_begin_line else Tokenizer.state_literal_line.

(** ** What the parser keeps *)

(** The exceptions that leave [parse]. *)
Definition parse_error (e : exn) : bool :=
  match e with
  | ValueError | AssertionError | NameError => true
  | _ => false
  end.

(** Every literal of the tree has a text. *)
Fixpoint texts_present (node : Node) : bool :=
  match node with
  | Markdown children => forallb texts_present children
  | MarkdownLiteral (Some _) => true
  | MarkdownLiteral None => false
  | MarkdownCode _ => true
  | MarkdownLink label _ => texts_present label
  end.

(** The tree of a cell: a container in which every literal has a text. *)
Definition cell_tree (node : Node) : bool :=
  match node with
  | Markdown children => forallb texts_present children
  | _ => false
  end.

(** The tokens that the parser has still to read, from the place [p] on,
    are the rest of a stream of the tokenizer: a well-formed stream read
    to its end, or one that stops in a row where the tokenizer raised
    [ValueError]. *)
Definition stream_from (p : Place) (v : Parser.Vars) : Prop :=
  exists q,
    run p (stream v) = Some q
    /\ match Parser.tokenizer_end v with
       | Done => q = finished
       | Raised e => e = ValueError /\ (q = cell_start \/ q = in_cell)
       end.

(** In a cell, behind a token of the cell. *)
Definition mid (p : Place) : Prop := p = in_cell \/ p = after_literal.

(** A place and a stream at which [parse_table_cell] reads a cell: in a
    cell, or at the start of one that the row does not end at. *)
Definition cell_ready (p : Place) (v : Parser.Vars) : Prop :=
  mid p
  \/ (p = cell_start
      /\ forall tok rest, stream v = tok :: rest -> type tok <> TABLE_ROW_END).

(** A parsing function raises only an exception of [parse], and what it
    returns satisfies [Q]. *)
Definition returns {A : Type} (res : option (Result (A * Parser.Vars)))
    (Q : A -> Parser.Vars -> Prop) : Prop :=
  match res with
  | None => True
  | Some (Raise e) => parse_error e = true
  | Some (Ok (a, v')) => Q a v'
  end.

(** The items that [parse] yields: a text is a string that is not empty
    and has no line beginning with a pipe, and no two texts follow each
    other; [prev] tells whether a text came just before. *)
Fixpoint texts_apart (prev : bool) (items : list Item) : bool :=
  match items with
  | [] => true
  | Text (Some s) :: items' =>
      negb prev && negb (String.eqb s "") && no_row_line true s
      && texts_apart true items'
  | Text None :: _ => false
  | Table _ :: items' => texts_apart false items'
  end.

(** The trees of an entry, and of the entries of an item, have texts. *)
Definition entry_texts (entry : Entry) : bool :=
  texts_present (description entry) && forallb texts_present (links entry).

Definition item_texts (item : Item) : bool :=
  match item with
  | Text (Some _) => true
  | Text None => false
  | Table entries => forallb entry_texts entries
  end.

(** The entries of the tables among [items], in order. *)
Definition entries_of (items : list Item) : list Entry :=
  flat_map (fun item => match item with
                        | Table entries => entries
                        | Text _ => []
                        end) items.

(** ** Trees of literals *)

(** The tree holds no code span and no link. *)
Fixpoint literal_only (node : Node) : bool :=
  match node with
  | Markdown children => forallb literal_only children
  | MarkdownLiteral _ => true
  | MarkdownCode _ => false
  | MarkdownLink _ _ => false
  end.

(** The texts of the literals of the tree, put together. *)
Fixpoint plain_text (node : Node) : string :=
  match node with
  | Markdown children => concat_strings (map plain_text children)
  | MarkdownLiteral (Some s) => s
  | _ => ""
  end.

(** ** Tables, row by row *)

(** A token of a cell, by its type. *)
Definition inner_token (tok : Token) : bool :=
  match type tok with
  | LITERAL | BACKTICK | OPEN_BRACKET | CLOSE_BRACKET | OPEN_PAREN
  | CLOSE_PAREN => true
  | _ => false
  end.

(** The tokens of a cell and the pipe that ends it. *)
Definition cell_tokens (p : list Token) : Prop :=
  exists toks ce,
    p = toks ++ [ce] /\ type ce = TABLE_CELL_END
    /\ forallb inner_token toks = true.

(** Two states of the parser that have the tokens [p] to read first, and
    [rest1] and [rest2] behind them. *)
Definition framed (rest1 rest2 : list Token) (e2 : Ending) (p : list Token)
    (v w : Parser.Vars) : Prop :=
  stream v = p ++ rest1 /\ stream w = p ++ rest2
  /\ Parser.tokenizer_end w = e2.

(** The second result is the first one, when the first is a result at
    all, with states related by [Q]. *)
Definition same_result {A : Type} (Q : Parser.Vars -> Parser.Vars -> Prop)
    (r1 r2 : option (Result (A * Parser.Vars))) : Prop :=
  match r1 with
  | None => True
  | Some (Raise e) => r2 = Some (Raise e)
  | Some (Ok (x, v')) => exists w', r2 = Some (Ok (x, w')) /\ Q v' w'
  end.

(** [c] is the text of one cell: it has no bare newline or pipe and no
    unfinished escape. *)
Definition cell_text (c : string) : bool :=
  match lex [] c with
  | Some _ => true
  | None => false
  end.

(** The line of the table row with the cell texts [cells]. *)
Definition row_line (cells : list string) : string :=
  "|" +:+ concat_strings (map (fun c => c +:+ "|") cells) +:+ nl.

(** The tokens of the cells of a row and of the end of the row, and the
    tokens of the row, given the tokens of each cell. *)
Definition cells_tokens (cells : list (list Token)) : list Token :=
  concat (map (fun toks => toks ++ [cell_end]) cells)
  ++ [mkToken TABLE_ROW_END (Some nl)].

Definition row_tokens (cells : list (list Token)) : list Token :=
  row_begin :: cells_tokens cells.

(** The cell texts [cells] are texts of cells and parse to [trees]. *)
Definition cells_parse (cells : list string) (trees : list Node) : Prop :=
  Forall2 (fun c t => cell_text c = true /\ parse_cell c = Some (Ok t))
    cells trees.

(** The tokens of the cell text [c]. *)
Definition cell_lex (c : string) : list Token :=
  match lex [] c with
  | Some toks => toks
  | None => []
  end.

(** The tokens of the rows with the cell texts [rows]. *)
Definition rows_tokens (rows : list (list string)) : list Token :=
  concat (map (fun cells => row_tokens (map cell_lex cells)) rows).

(** ** Cells that are read back as they were written *)

(** [s] is one character, and that one of [chars]. *)
Definition one_of (chars s : string) : bool :=
  match s with
  | String a EmptyString => in_string a chars
  | _ => false
  end.

(** A literal or a code span outside a link label whose serialization is
    read back as the same node: the literal holds none of the characters
    | ` [ ] ( ), which [to_markdown] does not escape in a literal, or it
    is one of the characters [singles] alone, the text of a token of its
    own; the code span holds no pipe. *)
Definition restorable_outside (singles : string) (node : Node) : bool :=
  match node with
  | MarkdownLiteral (Some s) => free_of "|`[]()" s || one_of singles s
  | MarkdownCode s => free_of "|" s
  | _ => false
  end.

(** The same in a link label, which is escaped a second time with the
    brackets: the literal holds no pipe, backtick, parenthesis or
    backslash, or is one parenthesis alone; the code span holds no pipe,
    backtick or backslash. *)
Definition restorable_in_label (node : Node) : bool :=
  match node with
  | MarkdownLiteral (Some s) => free_of "|`()\" s || one_of "()" s
  | MarkdownCode s => free_of "|`\" s
  | _ => false
  end.

(** A child of a cell: the bracketed text that [parse_link] returns when
    a second bracket opens (the literal "[" and the label read so far), a
    link, whose href holds no pipe, or a literal or code span. *)
Definition restorable_child (node : Node) : bool :=
  match node with
  | Markdown (MarkdownLiteral (Some s) :: label) =>
      String.eqb s "[" && forallb (restorable_outside "()") label
  | MarkdownLink (Markdown label) href =>
      forallb restorable_in_label label && free_of "|" href
  | _ => restorable_outside "]()" node
  end.

(** The tree of a cell whose serialization is read back as the same tree. *)
Definition restorable (t : Node) : bool :=
  match t with
  | Markdown children => forallb restorable_child children
  | _ => false
  end.

(** *** The trees that the parser builds *)

(** What stands before a child of a cell or of a label: nothing that
    matters, a literal that the tokenizer may still extend, or bracketed
    text that is no link. *)
Inductive Before : Type :=
  | at_first
  | open_literal
  | bracketed_text.

Definition is_literal (node : Node) : bool :=
  match node with
  | MarkdownLiteral _ => true
  | _ => false
  end.

(** The literal of a one-character token. *)
Definition token_literal (singles : string) (node : Node) : bool :=
  match node with
  | MarkdownLiteral (Some s) => one_of singles s
  | _ => false
  end.

Definition opens_bracket (node : Node) : bool :=
  match node with
  | Markdown _ | MarkdownLink _ _ => true
  | _ => false
  end.

Definition fits (singles : string) (prev : Before) (x : Node) : bool :=
  match prev with
  | at_first => true
  | open_literal => negb (is_literal x) || token_literal singles x
  | bracketed_text => opens_bracket x
  end.

Definition next_before (singles : string) (x : Node) : Before :=
  match x with
  | MarkdownLiteral _ =>
      if token_literal singles x then at_first else open_literal
  | Markdown _ => bracketed_text
  | _ => at_first
  end.

(** The children [l] that follow [prev]: each satisfies [ok]; of two
    literals side by side one is the text of a one-character token; and
    bracketed text is followed by a link or by bracketed text. *)
Fixpoint shape_list (ok : Node -> bool) (singles : string) (prev : Before)
    (l : list Node) : bool :=
  match l with
  | [] => match prev with bracketed_text => false | _ => true end
  | x :: l' =>
      fits singles prev x && ok x
      && shape_list ok singles (next_before singles x) l'
  end.

(** A literal that is not empty, or a code span; neither holds a newline. *)
Definition cell_leaf (node : Node) : bool :=
  match node with
  | MarkdownLiteral (Some s) => negb (String.eqb s "") && free_of nl s
  | MarkdownCode s => free_of nl s
  | _ => false
  end.

Definition cell_child (node : Node) : bool :=
  match node with
  | Markdown (MarkdownLiteral (Some s) :: label) =>
      String.eqb s "[" && shape_list cell_leaf "()" at_first label
  | MarkdownLink (Markdown label) href =>
      shape_list cell_leaf "()" at_first label && free_of nl href
  | _ => cell_leaf node
  end.

(** The shape of the tree of a cell. *)
Definition cell_shape (t : Node) : bool :=
  match t with
  | Markdown children => shape_list cell_child "]()" at_first children
  | _ => false
  end.

(** *** Serializations and their tokens *)

(** The serialization of a literal or code span in which the characters
    [chars] are escaped, and its tokens.  The literal of one of the
    characters [singles] is the token of that character. *)
Definition leaf_text (chars : string) (node : Node) : string :=
  match node with
  | MarkdownLiteral (Some s) => backslash_escape s chars
  | MarkdownCode s => "`" +:+ backslash_escape s chars +:+ "`"
  | _ => ""
  end.

Definition leaf_tokens (singles chars : string) (node : Node) : list Token :=
  match node with
  | MarkdownLiteral (Some s) =>
      if one_of singles s then cell_lex s else [mkToken LITERAL (Some s)]
  | MarkdownCode s =>
      mkToken BACKTICK (Some "`")
      :: cell_lex (backslash_escape s chars) ++ [mkToken BACKTICK (Some "`")]
  | _ => []
  end.

Definition child_text (node : Node) : string :=
  match node with
  | Markdown (_ :: label) =>
      "[" +:+ concat_strings (map (leaf_text "`") label)
  | MarkdownLink (Markdown label) href =>
      "[" +:+ concat_strings (map (leaf_text "[]") label)
      +:+ "](" +:+ backslash_escape href "()" +:+ ")"
  | _ => leaf_text "`" node
  end.

Definition child_tokens (node : Node) : list Token :=
  match node with
  | Markdown (_ :: label) =>
      mkToken OPEN_BRACKET (Some "[")
      :: flat_map (leaf_tokens "()" "`") label
  | MarkdownLink (Markdown label) href =>
      mkToken OPEN_BRACKET (Some "[")
      :: flat_map (leaf_tokens "()" "[]") label
      ++ mkToken CLOSE_BRACKET (Some "]") :: mkToken OPEN_PAREN (Some "(")
      :: cell_lex (backslash_escape href "()")
      ++ [mkToken CLOSE_PAREN (Some ")")]
  | _ => leaf_tokens "]()" "`" node
  end.

(** The text is empty or begins with a character that is a token of its
    own, before which the tokenizer flushes its literal. *)
Definition starts_special (s : string) : bool :=
  match s with
  | EmptyString => true
  | String a _ => match special a with Some _ => true | None => false end
  end.

(** A character that the tokenizer adds to a literal, bare or after the
    backslash that escapes the characters [chars]. *)
Definition literal_char (chars : string) (a : ascii) : bool :=
  negb (Ascii.eqb a newline) && negb (Ascii.eqb a "|")
  && (in_string a chars
      || match special a with Some _ => false | None => true end).

(** A literal or code span whose serialization, with the characters
    [chars] escaped, is read back as the same node: the literal is one of
    the characters [singles] alone, or it is not empty and made of
    characters that the tokenizer adds to a literal; the code span has no
    newline or pipe, and no backtick unless that is escaped. *)
Definition leaf_ok (singles chars : string) (node : Node) : bool :=
  match node with
  | MarkdownLiteral (Some s) =>
      one_of singles s
      || (negb (String.eqb s "") && all_chars (literal_char chars) s)
  | MarkdownCode s =>
      free_of (String newline "|") s && (in_string "`" chars || free_of "`" s)
  | _ => false
  end.

(** A child of a cell whose serialization is read back as the same node. *)
Definition child_ok (node : Node) : bool :=
  match node with
  | Markdown (MarkdownLiteral (Some s) :: label) =>
      String.eqb s "[" && shape_list (leaf_ok "()" "`") "()" at_first label
  | MarkdownLink (Markdown label) href =>
      shape_list (leaf_ok "()" "[]") "()" at_first label
      && free_of (String newline "|") href
  | _ => leaf_ok "]()" "`" node
  end.

(** The call returns [node] and leaves the tokens [rest] to read. *)
Definition result_is (res : option (Result (Node * Parser.Vars)))
    (node : Node) (rest : list Token) (e : Ending) : Prop :=
  exists w,
    res = Some (Ok (node, w)) /\ stream w = rest
    /\ Parser.tokenizer_end w = e.

(** A token that [parse_code] adds to the text of a code span, and one
    that [parse_link] adds to the href of a link. *)
Definition code_part (tok : Token) : Prop :=
  text tok = Some (token_text tok)
  /\ (type tok = LITERAL
      \/ exists a, special a = Some (type tok) /\ Ascii.eqb a "`" = false).

Definition href_part (tok : Token) : Prop :=
  text tok = Some (token_text tok)
  /\ (type tok = LITERAL
      \/ exists a, special a = Some (type tok) /\ in_string a "()" = false).

(** What holds of what a parsing function returns, when it returns. *)
Definition on_return {A : Type} (res : option (Result (A * Parser.Vars)))
    (Q : A -> Parser.Vars -> Prop) : Prop :=
  match res with
  | Some (Ok (a, v')) => Q a v'
  | _ => True
  end.

(** What stands before the next child, by the place in the stream. *)
Definition before_of (p : Place) : Before :=
  match p with
  | after_literal => open_literal
  | _ => at_first
  end.

(** The next token opens a bracket. *)
Definition bracket_next (v : Parser.Vars) : Prop :=
  exists tok rest, stream v = tok :: rest /\ type tok = OPEN_BRACKET.

(** What [parse_link] returns: a link, or bracketed text before a token
    that opens a bracket. *)
Definition link_result (label : list Node) (p : Place) (node : Node)
    (v' : Parser.Vars) : Prop :=
  exists extra,
    shape_list cell_leaf "()" (before_of p) extra = true
    /\ ((exists h, node = MarkdownLink (Markdown (label ++ extra)) h
                   /\ free_of nl h = true /\ stream_from in_cell v')
        \/ (node = Markdown (MarkdownLiteral (Some "[") :: label ++ extra)
            /\ (exists p', mid p' /\ stream_from p' v')
            /\ bracket_next v')).

(** What [parse_table_cell] returns, read from the place [p] of the
    stream of [v]: the children that it was given and more, in the shape
    of a cell. *)
Definition cell_result (children : list Node) (p : Place) (v : Parser.Vars)
    (node : Node) : Prop :=
  exists extra,
    node = Markdown (children ++ extra)
    /\ shape_list cell_child "]()" (before_of p) extra = true
    /\ (bracket_next v ->
        shape_list cell_child "]()" bracketed_text extra = true).

(** * Properties *)

(** ** Dates *)

Lemma make_datetime_raises y m d H M S e :
  make_datetime y m d H M S = Raise e -> e = ValueError.
Proof.
  unfold make_datetime, make_date, bind.
  repeat match goal with |- context [if ?b then _ else _] => destruct b end;
    congruence.
Qed.

Lemma strptime_raises s fmt e : strptime s fmt = Raise e -> e = ValueError.
Proof.
  unfold strptime.
  destruct (re_match (pattern fmt) s) as [[[|c rest] g]|]; try congruence.
  apply make_datetime_raises.
Qed.

(** The model of [strptime] on sample strings, as the library behaves. *)
Lemma strptime_samples :
  strptime "2020-01-01" fmt_date = Ok (mkDatetime (mkDate 2020 1 1) 0 0 0)
  /\ strptime "2023-5-1" fmt_date = Ok (mkDatetime (mkDate 2023 5 1) 0 0 0)
  /\ strptime "2024-02- 9" fmt_date = Ok (mkDatetime (mkDate 2024 2 9) 0 0 0)
  /\ strptime " 2020-01-01" fmt_date = Raise ValueError
  /\ strptime "2020-01-01 " fmt_date = Raise ValueError
  /\ strptime "0000-02-09" fmt_date = Raise ValueError
  /\ strptime "2023-02-29" fmt_date = Raise ValueError
  /\ strptime "2024-02-29" fmt_date = Ok (mkDatetime (mkDate 2024 2 29) 0 0 0)
  /\ strptime "2023-05-01 10:00:00" fmt_minutes = Raise ValueError
  /\ strptime "2023-05-01  7:5:3" fmt_seconds
     = Ok (mkDatetime (mkDate 2023 5 1) 7 5 3)
  /\ strptime "2023-05-01 10:00:60" fmt_seconds = Raise ValueError
  /\ strptime "2023-5-1   1:2" fmt_minutes
     = Ok (mkDatetime (mkDate 2023 5 1) 1 2 0).
Proof. repeat split; vm_compute; reflexivity. Qed.

Lemma parse_datetime_refines s :
  parse_datetime (Some s) = parse_datetime_spec s.
Proof.
  unfold parse_datetime, parse_datetime_spec.
  destruct (String.eqb s ""); [reflexivity|].
  destruct (String.eqb s "ongoing"); [reflexivity|]. simpl orb. cbv iota.
  set (rest := if startswith s "~" then tail s else s).
  simpl for_fmt.
  destruct (strptime rest fmt_seconds) as [d|e] eqn:E1; [reflexivity|].
  apply strptime_raises in E1; subst e.
  destruct (strptime rest fmt_minutes) as [d|e] eqn:E2; [reflexivity|].
  apply strptime_raises in E2; subst e.
  destruct (strptime rest fmt_date) as [d|e] eqn:E3; [reflexivity|].
  apply strptime_raises in E3; subst e. reflexivity.
Qed.

(** C5: [parse_datetime] follows the date rule of the specification on every
    string: "" and "ongoing" give (None, False); a leading tilde sets the
    approximate flag and is stripped; the three formats are tried in order
    and the first that parses wins; text that matches none of them raises.
    "~2023-05-01" gives the date 2023-05-01 with the flag set, and
    "2023-05-01 10:00:00" gives a datetime, not a date. *)
Theorem parse_datetime_correct :
  (forall s, parse_datetime (Some s) = parse_datetime_spec s)
  /\ parse_datetime (Some "") = Ok (None, false)
  /\ parse_datetime (Some "ongoing") = Ok (None, false)
  /\ parse_datetime (Some "~2023-05-01")
     = Ok (Some (a_date (mkDate 2023 5 1)), true)
  /\ parse_datetime (Some "2023-05-01 10:00:00")
     = Ok (Some (a_datetime (mkDatetime (mkDate 2023 5 1) 10 0 0)), false)
  /\ parse_datetime (Some "2023-05-01 10:00")
     = Ok (Some (a_datetime (mkDatetime (mkDate 2023 5 1) 10 0 0)), false)
  /\ parse_datetime (Some "01.05.2023") = Raise ValueError.
Proof.
  split; [exact parse_datetime_refines|].
  repeat split; vm_compute; reflexivity.
Qed.

(** ** Entries *)

Lemma bind_Ok {A B : Type} (m : Result A) (k : A -> Result B) (b : B) :
  bind m k = Ok b -> exists a, m = Ok a /\ k a = Ok b.
Proof. destruct m as [a|e]; simpl; [eauto | discriminate]. Qed.

(** What a successful [Entry.__init__] has computed. *)
Lemma Entry_init_Ok row e :
  Entry_init row = Ok e ->
  exists c1 c2 c3 c4 c5 c6 c7 t1 t2 t3 t4 t7,
    row = [c1; c2; c3; c4; c5; c6; c7]
    /\ to_text c1 = Ok t1
    /\ parse_datetime t1 = Ok (start_date e, start_date_is_approx e)
    /\ to_text c2 = Ok t2
    /\ parse_datetime t2 = Ok (end_date e, end_date_is_approx e)
    /\ is_ongoing e = equals t2 "ongoing"
    /\ to_text c3 = Ok t3 /\ split_set t3 = Ok (places e)
    /\ to_text c4 = Ok t4 /\ split_set t4 = Ok (protocols e)
    /\ description e = c5
    /\ extract_links c6 = Ok (links e)
    /\ to_text c7 = Ok t7 /\ is_unknown e = truth t7.
Proof.
  unfold Entry_init.
  destruct row as [|c1 [|c2 [|c3 [|c4 [|c5 [|c6 [|c7 [|c8 row]]]]]]]];
    try discriminate.
  intros H.
  apply bind_Ok in H as (t1 & Ht1 & H).
  apply bind_Ok in H as ([sd sda] & Hsd & H).
  apply bind_Ok in H as (t2 & Ht2 & H).
  apply bind_Ok in H as ([ed eda] & Hed & H).
  apply bind_Ok in H as (t2' & Ht2' & H).
  apply bind_Ok in H as (t3 & Ht3 & H).
  apply bind_Ok in H as (ps & Hps & H).
  apply bind_Ok in H as (t4 & Ht4 & H).
  apply bind_Ok in H as (prs & Hprs & H).
  apply bind_Ok in H as (ls & Hls & H).
  apply bind_Ok in H as (t7 & Ht7 & H).
  injection H as <-. simpl.
  assert (t2' = t2) by congruence. subst t2'.
  exists c1, c2, c3, c4, c5, c6, c7, t1, t2, t3, t4, t7.
  repeat split; assumption.
Qed.

(** C9: in every entry that [Entry.__init__] builds, [is_ongoing] implies
    that [end_date] is [None] and that [end_date_is_approx] is [False]. *)
Theorem ongoing_has_no_end_date row e :
  Entry_init row = Ok e ->
  is_ongoing e = true ->
  end_date e = None /\ end_date_is_approx e = false.
Proof.
  intros H Hon. apply Entry_init_Ok in H.
  destruct H as (c1 & c2 & c3 & c4 & c5 & c6 & c7 & t1 & t2 & t3 & t4 & t7
                 & _ & _ & _ & _ & Hp & Ho & _).
  rewrite Hon in Ho. destruct t2 as [s|]; [|discriminate].
  simpl in Ho. symmetry in Ho. apply String.eqb_eq in Ho. subst s.
  change (parse_datetime (Some "ongoing"))
    with (@Ok (option DateValue * bool) (None, false)) in Hp.
  split; congruence.
Qed.

Lemma ongoing_has_no_end_date_witness :
  end_date sample_entry = None /\ end_date_is_approx sample_entry = false.
Proof.
  apply (ongoing_has_no_end_date sample_row sample_entry);
    vm_compute; reflexivity.
Defined.

Lemma isspace_not_digit c : isspace c = true -> isdigit c = false.
Proof.
  destruct c as [[] [] [] [] [] [] [] []]; vm_compute; congruence.
Qed.

Lemma re_match_year_first fmt c s :
  isdigit c = false ->
  re_match (pattern (Dir dY :: fmt)) (String c s) = None.
Proof.
  intros H. unfold re_match. cbn [pattern fold_right item_re directive_re rmatch].
  rewrite H. reflexivity.
Qed.

Lemma strptime_year_first fmt c s :
  isdigit c = false ->
  strptime (String c s) (Dir dY :: fmt) = Raise ValueError.
Proof.
  intros H. unfold strptime. rewrite re_match_year_first by assumption.
  reflexivity.
Qed.

Lemma parse_datetime_leading_space c s :
  isspace c = true -> parse_datetime (Some (String c s)) = Raise ValueError.
Proof.
  intros H. rewrite parse_datetime_refines. unfold parse_datetime_spec.
  assert (Hc : c <> "~"%char /\ c <> "o"%char).
  { split; intros ->; vm_compute in H; discriminate. }
  destruct Hc as [Ht Ho].
  assert (E1 : String.eqb (String c s) "" = false) by reflexivity.
  assert (E2 : String.eqb (String c s) "ongoing" = false).
  { simpl. apply Ascii.eqb_neq in Ho. rewrite Ho. reflexivity. }
  assert (E3 : startswith (String c s) "~" = false).
  { simpl. apply Ascii.eqb_neq. assumption. }
  rewrite E1, E2, E3.
  apply isspace_not_digit in H.
  unfold fmt_seconds, fmt_minutes, fmt_date. simpl app.
  rewrite !strptime_year_first by assumption. reflexivity.
Qed.

(** C10: [Entry.__init__] trims no cell text.  The dates are
    [parse_datetime] of the raw texts of the first two cells and
    [is_unknown] is the truth value of the raw text of the seventh, which
    is true for every non-empty text, blank or not; a date text that
    starts with a white space character is never accepted.  The header and
    separator cells, on the contrary, are trimmed. *)
Theorem entry_cells_not_trimmed :
  (forall row e,
    Entry_init row = Ok e ->
    exists c1 c2 c3 c4 c5 c6 c7 t1 t2 t7,
      row = [c1; c2; c3; c4; c5; c6; c7]
      /\ to_text c1 = Ok t1 /\ to_text c2 = Ok t2 /\ to_text c7 = Ok t7
      /\ parse_datetime t1 = Ok (start_date e, start_date_is_approx e)
      /\ parse_datetime t2 = Ok (end_date e, end_date_is_approx e)
      /\ is_unknown e = truth t7
      /\ (forall s, t7 = Some s -> s <> "" -> is_unknown e = true)
      /\ (forall s, t1 = Some s -> lstrip s = s)
      /\ (forall s, t2 = Some s -> lstrip s = s))
  /\ (exists e',
        parse (header_rows +:+ "|2020-01-01||||||  |") = Some ([Table [e']], Done)
        /\ is_unknown e' = true)
  /\ parse (header_rows +:+ "| 2020-01-01|||||||") = Some ([], Raised ValueError)
  /\ parse (header_rows +:+ "|2020-01-01 |||||||") = Some ([], Raised ValueError)
  /\ parse (header_rows +:+ "|2020-01-01| ongoing ||||||") = Some ([], Raised ValueError).
Proof.
  split.
  - intros row e H. apply Entry_init_Ok in H.
    destruct H as (c1 & c2 & c3 & c4 & c5 & c6 & c7 & t1 & t2 & t3 & t4 & t7
                   & -> & Ht1 & Hp1 & Ht2 & Hp2 & _ & _ & _ & _ & _ & _ & _
                   & Ht7 & Hu).
    exists c1, c2, c3, c4, c5, c6, c7, t1, t2, t7.
    repeat (split; [first [reflexivity | assumption]|]).
    split; [|split].
    + intros s -> Hs. rewrite Hu. destruct s; [congruence | reflexivity].
    + intros s ->. destruct s as [|c s]; [reflexivity|]. simpl.
      destruct (isspace c) eqn:Hc; [|reflexivity].
      rewrite parse_datetime_leading_space in Hp1 by assumption. discriminate.
    + intros s ->. destruct s as [|c s]; [reflexivity|]. simpl.
      destruct (isspace c) eqn:Hc; [|reflexivity].
      rewrite parse_datetime_leading_space in Hp2 by assumption. discriminate.
  - split; [|repeat split; vm_compute; reflexivity].
    eexists. split; [vm_compute; reflexivity | reflexivity].
Qed.

Lemma entry_cells_not_trimmed_witness :
  exists c1 c2 c3 c4 c5 c6 c7 t1 t2 t7,
    sample_row = [c1; c2; c3; c4; c5; c6; c7]
    /\ to_text c1 = Ok t1 /\ to_text c2 = Ok t2 /\ to_text c7 = Ok t7
    /\ parse_datetime t1
       = Ok (start_date sample_entry, start_date_is_approx sample_entry)
    /\ parse_datetime t2
       = Ok (end_date sample_entry, end_date_is_approx sample_entry)
    /\ is_unknown sample_entry = truth t7
    /\ (forall s, t7 = Some s -> s <> "" -> is_unknown sample_entry = true)
    /\ (forall s, t1 = Some s -> lstrip s = s)
    /\ (forall s, t2 = Some s -> lstrip s = s).
Proof.
  apply (proj1 entry_cells_not_trimmed sample_row sample_entry).
  vm_compute; reflexivity.
Defined.

(** ** The links column *)

Lemma lstrip_empty s : lstrip s = "" <-> all_chars isspace s = true.
Proof.
  induction s as [|c s IH]; simpl; [tauto|].
  destruct (isspace c); simpl; [assumption|]. split; discriminate.
Qed.

Lemma lstrip_head s c t : lstrip s = String c t -> isspace c = false.
Proof.
  induction s as [|a s IH]; simpl; [discriminate|].
  destruct (isspace a) eqn:E; [assumption|]. intros [= <- <-]. assumption.
Qed.

Lemma rstrip_empty s : rstrip s = "" -> all_chars isspace s = true.
Proof.
  induction s as [|c s IH]; simpl; [reflexivity|].
  destruct (rstrip s); [|discriminate].
  destruct (isspace c); [intros _; apply IH; reflexivity | discriminate].
Qed.

Lemma strip_empty s : strip s = "" <-> all_chars isspace s = true.
Proof.
  unfold strip. split.
  - intros H. apply rstrip_empty in H.
    destruct (lstrip s) as [|c t] eqn:E; [apply lstrip_empty; assumption|].
    apply lstrip_head in E. simpl in H. rewrite E in H. discriminate.
  - intros H. apply lstrip_empty in H. rewrite H. reflexivity.
Qed.

Lemma strip_eqb_empty s : String.eqb (strip s) "" = all_chars isspace s.
Proof.
  destruct (all_chars isspace s) eqn:E.
  - apply String.eqb_eq, strip_empty, E.
  - apply String.eqb_neq. intros H. apply strip_empty in H. congruence.
Qed.

Lemma extract_links_Ok node :
  links_only node = true -> extract_links node = Ok (link_nodes node).
Proof.
  induction node as [children IH|[s|]|s|label href _] using Node_ind';
    simpl; try discriminate; try reflexivity.
  - intros H.
    assert (E : mapM extract_links children = Ok (map link_nodes children)).
    { induction IH as [|c cs Hc _ IHcs]; [reflexivity|].
      simpl in H. apply andb_prop in H as [H1 H2].
      simpl. rewrite (Hc H1). simpl. rewrite (IHcs H2). reflexivity. }
    rewrite E. simpl. rewrite flat_map_concat_map. reflexivity.
  - intros H. rewrite strip_eqb_empty, H. reflexivity.
Qed.

Lemma extract_links_Raise node :
  links_only node = false -> exists e, extract_links node = Raise e.
Proof.
  induction node as [children IH|[s|]|s|label href _] using Node_ind';
    simpl; try discriminate; eauto.
  - intros H. induction IH as [|c cs Hc _ IHcs]; [discriminate|].
    simpl in H. simpl.
    destruct (links_only c) eqn:Ec.
    + rewrite (extract_links_Ok c Ec). simpl.
      destruct (IHcs H) as [e He].
      destruct (mapM extract_links cs); simpl in *; [discriminate | eauto].
    + destruct (Hc eq_refl) as [e He]. rewrite He. simpl. eauto.
  - intros H. rewrite strip_eqb_empty, H. eauto.
Qed.

(** C8: [extract_links] succeeds exactly on the trees that hold, besides
    containers, only links and literals made of white space, and then
    returns the links in tree order; on every other tree it raises, with
    [ValueError] for a literal that is not blank and for a code span.  An
    entry is built only from such a links cell, its [links] are those
    links, and the cell "see [x](y) also" aborts the parse. *)
Theorem links_cell_holds_only_links :
  (forall node, links_only node = true ->
                extract_links node = Ok (link_nodes node))
  /\ (forall node, links_only node = false ->
                   exists e, extract_links node = Raise e)
  /\ (forall s, all_chars isspace s = false ->
                extract_links (MarkdownLiteral (Some s)) = Raise ValueError)
  /\ (forall s, extract_links (MarkdownCode s) = Raise ValueError)
  /\ (forall row e,
        Entry_init row = Ok e ->
        exists c6, row !! 5 = Some c6 /\ links_only c6 = true
                   /\ links e = link_nodes c6)
  /\ parse (header_rows +:+ "|2020-01-01|||||see [x](y) also||")
     = Some ([], Raised ValueError).
Proof.
  split; [exact extract_links_Ok|].
  split; [exact extract_links_Raise|].
  split; [intros s H; simpl; rewrite strip_eqb_empty, H; reflexivity|].
  split; [reflexivity|].
  split; [|vm_compute; reflexivity].
  intros row e H. apply Entry_init_Ok in H.
  destruct H as (c1 & c2 & c3 & c4 & c5 & c6 & c7 & t1 & t2 & t3 & t4 & t7
                 & -> & _ & _ & _ & _ & _ & _ & _ & _ & _ & _ & Hl & _).
  exists c6. split; [reflexivity|].
  destruct (links_only c6) eqn:E.
  - rewrite (extract_links_Ok c6 E) in Hl. split; congruence.
  - destruct (extract_links_Raise c6 E) as [x Hx]. congruence.
Qed.

Lemma links_cell_holds_only_links_witness :
  extract_links (Markdown [MarkdownLiteral (Some " "); sample_link])
  = Ok [sample_link].
Proof.
  apply (proj1 links_cell_holds_only_links
           (Markdown [MarkdownLiteral (Some " "); sample_link])).
  vm_compute; reflexivity.
Defined.

(** ** The separator row *)

Lemma rep_match_total {A : Type} p n s (k : string -> option A) :
  (forall s', k s' <> None) ->
  rep_match p n s k <> None <-> starts_with_run p n s = true.
Proof.
  intros Hk. revert n. induction s as [|c s IH]; intros n.
  - destruct n; simpl; [split; [reflexivity | intros _; apply Hk]|].
    split; [congruence | discriminate].
  - simpl. destruct (p c) eqn:Ep.
    + destruct n as [|n]; simpl.
      * split; [reflexivity|]. intros _.
        destruct (rep_match p 0 s k); [discriminate | apply Hk].
      * rewrite Ep. simpl. rewrite <- (IH n).
        destruct (rep_match p n s k); split; congruence.
    + destruct n; simpl; [split; [reflexivity | intros _; apply Hk]|].
      rewrite Ep. split; [congruence | discriminate].
Qed.

(** What line 283 accepts: a trimmed cell that starts with three dashes,
    after an optional colon; what follows is not looked at. *)
Lemma separator_ok_iff sep :
  Parser.separator_ok sep = true <->
  starts_with_run (is_char "-") 3 (strip sep) = true
  \/ exists t, strip sep = String ":" t
               /\ starts_with_run (is_char "-") 3 t = true.
Proof.
  unfold Parser.separator_ok, re_match, separator_re.
  set (s := strip sep). clearbody s. cbn [rmatch].
  match goal with
  | |- context [rep_match _ 3 _ ?k0] => set (k := k0)
  end.
  assert (Hk : forall s', k s' <> None).
  { intros s'. unfold k. destruct s' as [|a s']; [discriminate|].
    destruct (Ascii.eqb a ":"); discriminate. }
  pose proof (rep_match_total (is_char "-") 3 s k Hk) as H0.
  destruct s as [|a t].
  - simpl. split; [discriminate | intros [H|(t & H & _)]; discriminate].
  - destruct (Ascii.eqb a ":") eqn:Ea.
    + apply Ascii.eqb_eq in Ea. subst a.
      pose proof (rep_match_total (is_char "-") 3 t k Hk) as H1.
      destruct (rep_match (is_char "-") 3 t k) eqn:E1.
      * split; [intros _|reflexivity]. right. exists t.
        split; [reflexivity|]. apply H1. discriminate.
      * destruct (rep_match (is_char "-") 3 (String ":" t) k) eqn:E0.
        -- split; [intros _|reflexivity]. left. apply H0. discriminate.
        -- split; [discriminate|]. intros [H|(t' & [= <-] & H)].
           ++ apply H0 in H. congruence.
           ++ apply H1 in H. congruence.
    + destruct (rep_match (is_char "-") 3 (String a t) k) eqn:E0.
      * split; [intros _|reflexivity]. left. apply H0. discriminate.
      * split; [discriminate|]. intros [H|(t' & [= -> <-] & H)].
        -- apply H0 in H. congruence.
        -- rewrite Ascii.eqb_refl in Ea. discriminate.
Qed.

(** C2, on the code: the separator test of line 283 uses [re.match], which
    does not anchor the pattern at the end, so the cell "---x" passes it,
    and a table with that separator cell is parsed; the anchored pattern
    rejects "---x", and cells with fewer than three dashes are rejected by
    both. *)
Theorem separator_accepts_trailing_text :
  Parser.separator_ok "---x" = true
  /\ separator_anchored "---x" = false
  /\ Parser.separator_ok "--" = false
  /\ separator_anchored "--" = false
  /\ separator_anchored ":---:" = true
  /\ exists e,
       parse ("|start date|end date|places|protocols|description|links|?|"
              +:+ nl +:+ "|---x|---|---|---|---|---|---|" +:+ nl
              +:+ "|2020-01-01|||||||")
       = Some ([Table [e]], Done).
Proof.
  repeat (split; [vm_compute; reflexivity|]).
  eexists. vm_compute. reflexivity.
Qed.

(** ** Backslash escapes in the tokenizer *)

Lemma punctuation_is_ascii_punctuation c :
  in_string c punctuation = is_ascii_punctuation c.
Proof.
  destruct c as [[] [] [] [] [] [] [] []]; vm_compute; reflexivity.
Qed.

(** C3, as the code has it: in a table cell, a backslash followed by an
    ASCII punctuation character puts only that character into the literal
    text (so "\|" is a literal "|" and does not end the cell); a backslash
    at the end of the input or of the line raises [ValueError]; a backslash
    followed by any other character raises nothing and puts both
    characters into the literal text. *)
Theorem backslash_in_table_cell v v1 d v2 :
  Tokenizer.getchar v = (Some "\"%char, v1) ->
  Tokenizer.getchar v1 = (d, v2) ->
  Tokenizer.table_cell v = after_backslash d v2
  /\ tokenize "|a\|b|"
     = Some ([mkToken TABLE_ROW_BEGIN (Some "|"); mkToken LITERAL (Some "a|b");
              mkToken TABLE_CELL_END (Some "|"); mkToken TABLE_ROW_END (Some "");
              mkToken EOF None], Done)
  /\ tokenize "|a\" = Some ([mkToken TABLE_ROW_BEGIN (Some "|")], Raised ValueError)
  /\ tokenize ("|a\" +:+ nl +:+ "|")
     = Some ([mkToken TABLE_ROW_BEGIN (Some "|")], Raised ValueError).
Proof.
  intros H1 H2. split; [|repeat split; vm_compute; reflexivity].
  unfold Tokenizer.table_cell, after_backslash. rewrite H1.
  cbn -[in_string punctuation Tokenizer.getchar].
  rewrite H2. destruct d as [b|]; cbn -[in_string punctuation]; [|reflexivity].
  destruct (Ascii.eqb b newline); [reflexivity|].
  rewrite punctuation_is_ascii_punctuation.
  destruct (is_ascii_punctuation b); reflexivity.
Qed.

Lemma backslash_in_table_cell_witness :
  Tokenizer.table_cell (Tokenizer.init "\|x")
  = after_backslash (Some "|"%char) (Tokenizer.init "x").
Proof.
  apply (backslash_in_table_cell (Tokenizer.init "\|x") (Tokenizer.init "|x")
           (Some "|"%char) (Tokenizer.init "x")); reflexivity.
Defined.

(** C3 as stated fails: a backslash before a character that is not ASCII
    punctuation is no error; the tokenizer keeps both characters. *)
Lemma backslash_before_letter_is_kept :
  tokenize "|\a|"
  = Some ([mkToken TABLE_ROW_BEGIN (Some "|"); mkToken LITERAL (Some "\a");
           mkToken TABLE_CELL_END (Some "|"); mkToken TABLE_ROW_END (Some "");
           mkToken EOF None], Done)
  /\ ~ (exists toks e, tokenize "|\a|" = Some (toks, Raised e)).
Proof.
  split; [vm_compute; reflexivity|].
  intros (toks & e & H). vm_compute in H. discriminate.
Qed.

(** ** Cells *)

(** C4, on the code: when the token after the closing bracket is not an
    open parenthesis, [parse_link] pushes it back and then raises
    [NameError], because line 362 calls [MarkdownNodeText], a name that is
    bound nowhere; so the cell "[text]X" does not parse.  The sibling
    branch of line 347 wraps with [MarkdownLiteral] and succeeds. *)
Theorem bracketed_text_raises_NameError :
  (forall n label v token v',
      Parser.read_token v = Some (Ok (token, v')) ->
      type token <> OPEN_PAREN ->
      Parser.parse_link_tail n label v = Some (Raise NameError))
  /\ parse_cell "[text]X" = Some (Raise NameError)
  /\ parse_cell "[text]" = Some (Raise NameError)
  /\ parse_cell "[te[xt](y)"
     = Some (Ok (Markdown
                   [Markdown [MarkdownLiteral (Some "["); MarkdownLiteral (Some "te")];
                    MarkdownLink (Markdown [MarkdownLiteral (Some "xt")]) "y"])).
Proof.
  split; [|repeat split; vm_compute; reflexivity].
  intros n label v token v' H Hty.
  unfold Parser.parse_link_tail, Parser.bindM. rewrite H.
  destruct (type token); try reflexivity. congruence.
Qed.

(** ** The example table *)

(** C6 as stated fails: with the data row of the specification, whose
    cells are padded with blanks, the start date text is " 2020-01-01 ",
    which [parse_datetime] rejects; the parse raises and yields nothing. *)
Lemma padded_example_row_raises :
  parse (header_rows
         +:+ "| 2020-01-01 | ongoing | US DE | tor | Some event | [ref](http://x) |  |")
  = Some ([], Raised ValueError).
Proof. vm_compute; reflexivity. Qed.

(** C6, as the code has it: with the same header and separator rows and
    the data row written without padding, the parse yields one table of
    one entry, with start date 2020-01-01, [is_ongoing] set, places US and
    DE, protocol tor, one link to http://x and [is_unknown] not set. *)
Theorem example_table_parses :
  exists e,
    parse (header_rows
           +:+ "|2020-01-01|ongoing|US DE|tor|Some event|[ref](http://x)||")
    = Some ([Table [e]], Done)
    /\ start_date e = Some (a_date (mkDate 2020 1 1))
    /\ start_date_is_approx e = false
    /\ end_date e = None
    /\ is_ongoing e = true
    /\ places e = {[ "US"; "DE" ]}
    /\ protocols e = {[ "tor" ]}
    /\ (exists label, links e = [MarkdownLink label "http://x"])
    /\ is_unknown e = false.
Proof.
  exists example_entry.
  split; [vm_compute; reflexivity|].
  repeat (split; [reflexivity|]).
  split; [eexists; reflexivity | reflexivity].
Qed.

(** ** The header row *)

(** C7: when the header row has been read and its trimmed cell texts are
    not exactly the seven expected column names, [parse_table] raises in
    its header part, before the separator and the entry rows are read (an
    [AssertionError] when the texts can be taken, the exception of
    [to_text] otherwise), and [parse] ends with that exception having
    yielded nothing for the table.  A header with "desc" for
    "description" is such a header. *)
Theorem header_mismatch_is_fatal :
  (forall n v row v',
      Parser.parse_table_row n [] v = Some (Ok (row, v')) ->
      Parser.stripped_texts row <> Ok EXPECTED_COLUMN_NAMES ->
      exists e,
        Parser.parse_table_header n v = Some (Raise e)
        /\ Parser.parse_table n v = Some (Raise e)
        /\ (forall names, Parser.stripped_texts row = Ok names ->
                          e = AssertionError)
        /\ (forall yielded v0 token,
              Parser.read_token v0 = Some (Ok (token, v)) ->
              type token = TABLE_ROW_BEGIN ->
              Parser.loop (S n) yielded v0 = Some (yielded, Parser.leaving e)))
  /\ parse ("| start date | end date | places | protocols | desc | links | ? |"
            +:+ nl +:+ "|---|---|---|---|---|---|---|" +:+ nl
            +:+ "|2020-01-01|ongoing|US DE|tor|Some event|[ref](http://x)||")
     = Some ([], Raised AssertionError)
  /\ parse ("Timeline" +:+ nl
            +:+ "| start date | end date | places | protocols | desc | links | ? |"
            +:+ nl +:+ "|---|---|---|---|---|---|---|" +:+ nl
            +:+ "|2020-01-01|ongoing|US DE|tor|Some event|[ref](http://x)||")
     = Some ([Text (Some ("Timeline" +:+ nl))], Raised AssertionError).
Proof.
  split; [|split; vm_compute; reflexivity].
  intros n v row v' Hrow Hne.
  assert (Hh : exists e,
             Parser.parse_table_header n v = Some (Raise e)
             /\ (forall names, Parser.stripped_texts row = Ok names ->
                               e = AssertionError)).
  { unfold Parser.parse_table_header, Parser.bindM. rewrite Hrow.
    destruct (Parser.stripped_texts row) as [names|e] eqn:E; simpl.
    - unfold Parser.string_list_eqb. rewrite bool_decide_eq_false_2.
      + simpl. eauto.
      + congruence.
    - exists e. split; [reflexivity | discriminate]. }
  destruct Hh as (e & Hh & He). exists e.
  assert (Ht : Parser.parse_table n v = Some (Raise e)).
  { unfold Parser.parse_table, Parser.bindM. rewrite Hh. reflexivity. }
  repeat split; try assumption.
  intros yielded v0 token Hread Hty. simpl. rewrite Hread, Hty, Ht.
  reflexivity.
Qed.

Lemma header_mismatch_is_fatal_witness :
  exists e,
    Parser.parse_table_header 4 (Parser.init misnamed_header Done) = Some (Raise e)
    /\ Parser.parse_table 4 (Parser.init misnamed_header Done) = Some (Raise e)
    /\ (forall names,
          Parser.stripped_texts [cell "desc"] = Ok names -> e = AssertionError)
    /\ (forall yielded v0 token,
          Parser.read_token v0
          = Some (Ok (token, Parser.init misnamed_header Done)) ->
          type token = TABLE_ROW_BEGIN ->
          Parser.loop 5 yielded v0 = Some (yielded, Parser.leaving e)).
Proof.
  apply (proj1 header_mismatch_is_fatal 4 (Parser.init misnamed_header Done)
           [cell "desc"] (Parser.init [] Done)).
  - vm_compute; reflexivity.
  - vm_compute; discriminate.
Defined.

(** ** The tokenizer always ends *)

Module TokenizerTotal.
Import Tokenizer.

Lemma flush_literals_size v v' :
  flush_literals v = Ok v' -> chars_left v' = chars_left v.
Proof.
  unfold flush_literals. destruct (literals_buf v); [intros [= <-]; reflexivity|].
  destruct (join _); simpl; [intros [= <-]; reflexivity | discriminate].
Qed.

Lemma emit_size ty txt v v' : emit ty txt v = Ok v' -> chars_left v' = chars_left v.
Proof.
  unfold emit.
  destruct ty; try (intros [= <-]; reflexivity);
    (destruct (flush_literals v) as [w|] eqn:E; simpl; [|discriminate];
     intros [= <-]; apply flush_literals_size in E; exact E).
Qed.

Lemma getchar_size v c v' :
  getchar v = (c, v') ->
  (chars_left v = S (chars_left v') /\ (c = None -> unget_buf v <> []))
  \/ (c = None /\ v' = v /\ chars_left v = 0).
Proof.
  unfold getchar, chars_left. destruct v as [input u l t]; simpl.
  destruct u as [|a u]; simpl.
  - destruct input as [|a s]; intros [= <- <-]; simpl.
    + right. auto.
    + left. split; [reflexivity | discriminate].
  - intros [= <- <-]. simpl. left. split; [lia | discriminate].
Qed.

Lemma ungetchar_size c v : chars_left (ungetchar c v) = S (chars_left v).
Proof. unfold ungetchar, chars_left. simpl. lia. Qed.

Lemma calls_left_begin_line v : calls_left state_begin_line v <= 3 * chars_left v + 3.
Proof. simpl. destruct (chars_left v =? 0); lia. Qed.

Lemma call_decreases state v state' v' :
  call state v = Ok (Some state', v') ->
  calls_left state' v' < calls_left state v.
Proof.
  destruct state; unfold call.
  - unfold begin_line. destruct (getchar v) as [c w] eqn:G.
    apply getchar_size in G. destruct c as [a|].
    + destruct G as [[G _]|[G _]]; [|discriminate].
      destruct (Ascii.eqb a "|").
      * destruct (emit _ _ w) as [w'|] eqn:E; simpl; [|discriminate].
        intros [= <- <-]. apply emit_size in E. simpl. rewrite G, E.
        simpl. lia.
      * intros [= <- <-]. simpl. rewrite ungetchar_size, G. simpl. lia.
    + intros [= <- <-]. simpl. destruct (chars_left v =? 0); lia.
  - unfold literal_line. destruct (getchar v) as [c w] eqn:G.
    apply getchar_size in G.
    destruct (emit _ _ w) as [w'|] eqn:E; simpl; [|discriminate].
    apply emit_size in E.
    destruct (is_eol c) eqn:Ec; intros [= <- <-].
    + pose proof (calls_left_begin_line w') as Hb.
      destruct G as [[G _]|(-> & -> & G)].
      * simpl in *. lia.
      * simpl. rewrite E, G. simpl. lia.
    + destruct G as [[G _]|(-> & _)]; [|discriminate]. simpl. lia.
  - unfold begin_table_cell. destruct (getchar v) as [c w] eqn:G.
    apply getchar_size in G. destruct (is_eol c) eqn:Ec.
    + destruct (emit _ _ w) as [w'|] eqn:E; simpl; [|discriminate].
      apply emit_size in E. intros [= <- <-].
      pose proof (calls_left_begin_line w') as Hb.
      destruct G as [[G _]|(-> & -> & G)].
      * simpl in *. lia.
      * simpl. rewrite E, G. simpl. lia.
    + intros [= <- <-].
      destruct G as [[G _]|(-> & _)]; [|discriminate].
      simpl. rewrite ungetchar_size. lia.
  - unfold table_cell. destruct (getchar v) as [c w] eqn:G.
    apply getchar_size in G. destruct (is_eol c) eqn:Ec; [discriminate|].
    destruct c as [a|]; [|discriminate].
    destruct G as [[G _]|[G _]]; [|discriminate].
    destruct (Ascii.eqb a "|").
    + destruct (emit _ _ w) as [w'|] eqn:E; simpl; [|discriminate].
      apply emit_size in E. intros [= <- <-]. simpl. lia.
    + destruct (Ascii.eqb a "\").
      * destruct (getchar w) as [d w2] eqn:G2. apply getchar_size in G2.
        destruct (is_eol d); [discriminate|].
        destruct d as [b|]; [|discriminate].
        destruct G2 as [[G2 _]|[G2 _]]; [|discriminate].
        destruct (in_string b punctuation);
          (destruct (emit _ _ w2) as [w'|] eqn:E; simpl; [|discriminate];
           apply emit_size in E; intros [= <- <-]; simpl; lia).
      * match goal with
        | |- bind ?m _ = _ -> _ => destruct m as [w'|] eqn:E
        end; simpl; [|discriminate].
        assert (chars_left w' = chars_left w).
        { repeat match type of E with
                 | (if ?b then _ else _) = _ => destruct b
                 end; apply emit_size in E; exact E. }
        intros [= <- <-]. simpl. lia.
  - unfold eof. destruct (emit _ _ v); simpl; discriminate.
Qed.

Lemma tokenizer_loop_total n state v yielded :
  calls_left state v < n -> exists res, loop n state v yielded = Some res.
Proof.
  revert state v yielded. induction n as [|n IH]; intros state v yielded H.
  - lia.
  - simpl. destruct (call state v) as [[[state'|] v']|e] eqn:E; eauto.
    apply IH. apply call_decreases in E.
    change (calls_left state' (set_tokens v' [])) with (calls_left state' v').
    lia.
Qed.

End TokenizerTotal.

(** The bound of [tokenize] is never reached: on every input the
    tokenizer yields finitely many tokens and returns or raises. *)
Lemma tokenize_total input : exists toks e, tokenize input = Some (toks, e).
Proof.
  destruct (TokenizerTotal.tokenizer_loop_total (Tokenizer.bound input)
              Tokenizer.state_begin_line (Tokenizer.init input) [])
    as [[toks e] H].
  - unfold Tokenizer.bound. simpl. unfold chars_left. simpl.
    destruct (String.length input + 0 =? 0); lia.
  - exists toks, e. exact H.
Qed.

(** ** The parser always ends *)

Module ParserTotal.
Import Parser.

Lemma ends_mono {A : Type} (res : option (Result (A * Vars))) m m' :
  ends res m -> m <= m' -> ends res m'.
Proof. destruct res as [[[x v]|]|]; simpl; [lia | trivial | trivial]. Qed.

Lemma ends_bindM {A B : Type} (m : M A) (k : A -> M B) v a b :
  ends (m v) a ->
  (forall x w, size w < a -> ends (k x w) b) ->
  ends (bindM m k v) b.
Proof.
  unfold bindM. destruct (m v) as [[[x w]|]|]; simpl; auto.
Qed.

Lemma ends_read_token v : ends (read_token v) (size v).
Proof.
  unfold read_token. destruct v as [u t e]; simpl.
  destruct u as [|tok u]; [|simpl; unfold size; simpl; lia].
  destruct t as [|tok t]; [destruct e; exact I | simpl; unfold size; simpl; lia].
Qed.

Lemma ends_unread_token tok v : ends (unread_token tok v) (S (S (size v))).
Proof. unfold unread_token, ends, size. simpl. lia. Qed.

Lemma ends_ret {A : Type} (x : A) v m : size v < m -> ends (ret x v) m.
Proof. trivial. Qed.

Lemma ends_lift {A : Type} (res : Result A) v m :
  size v < m -> ends (lift res v) m.
Proof. destruct res; simpl; trivial. Qed.

Lemma parse_code_total n txt v :
  size v < n -> ends (parse_code n txt v) (size v).
Proof.
  revert txt v. induction n as [|n IH]; intros txt v H; [lia|]. simpl.
  eapply ends_bindM; [apply ends_read_token|]. intros token w Hw.
  destruct (type token); try exact I;
    try (eapply ends_mono; [apply IH; lia | lia]).
  eapply ends_bindM; [apply ends_lift, Hw|]. intros s w' Hw'.
  apply ends_ret. exact Hw'.
Qed.

Lemma parse_link_href_total n label href v :
  size v < n -> ends (parse_link_href n label href v) (size v).
Proof.
  revert href v. induction n as [|n IH]; intros href v H; [lia|]. simpl.
  eapply ends_bindM; [apply ends_read_token|]. intros token w Hw.
  destruct (type token); try exact I;
    try (eapply ends_mono; [apply IH; lia | lia]).
  eapply ends_bindM; [apply ends_lift, Hw|]. intros s w' Hw'.
  apply ends_ret. exact Hw'.
Qed.

Lemma parse_link_tail_total n label v :
  size v <= n -> ends (parse_link_tail n label v) (size v).
Proof.
  intros H. unfold parse_link_tail.
  eapply ends_bindM; [apply ends_read_token|]. intros token w Hw.
  destruct (type token);
    try (eapply ends_bindM; [apply ends_unread_token|]; intros; exact I).
  eapply ends_mono; [apply parse_link_href_total; lia | lia].
Qed.

Lemma parse_link_total n label v :
  size v < n -> ends (parse_link n label v) (S (size v)).
Proof.
  revert label v. induction n as [|n IH]; intros label v H; [lia|]. simpl.
  eapply ends_bindM; [apply ends_read_token|]. intros token w Hw.
  destruct (type token); try exact I;
    try (eapply ends_mono; [apply IH; lia | lia]).
  - eapply ends_bindM; [apply parse_code_total; lia|]. intros code w' Hw'.
    eapply ends_mono; [apply IH; lia | lia].
  - eapply ends_bindM; [apply ends_unread_token|]. intros _ w' Hw'.
    apply ends_ret. lia.
  - eapply ends_mono; [apply parse_link_tail_total; lia | lia].
Qed.

Lemma parse_table_cell_total n children v :
  size v < n -> ends (parse_table_cell n children v) (size v).
Proof.
  revert children v. induction n as [|n IH]; intros children v H; [lia|]. simpl.
  eapply ends_bindM; [apply ends_read_token|]. intros token w Hw.
  destruct (type token);
    try (eapply ends_mono; [apply IH; lia | lia]).
  - apply ends_ret. exact Hw.
  - eapply ends_bindM; [apply parse_code_total; lia|]. intros code w' Hw'.
    eapply ends_mono; [apply IH; lia | lia].
  - eapply ends_bindM; [apply parse_link_total; lia|]. intros link w' Hw'.
    eapply ends_mono; [apply IH; lia | lia].
Qed.

Lemma parse_table_row_total n row v :
  size v + 1 < n -> ends (parse_table_row n row v) (size v).
Proof.
  revert row v. induction n as [|n IH]; intros row v H; [lia|]. simpl.
  eapply ends_bindM; [apply ends_read_token|]. intros token w Hw.
  destruct (type token);
    try (eapply ends_bindM; [apply ends_unread_token|]; intros _ w1 Hw1;
         eapply ends_bindM; [apply parse_table_cell_total; lia|];
         intros c w2 Hw2;
         eapply ends_mono; [apply IH; lia | lia]).
  apply ends_ret. exact Hw.
Qed.

Lemma parse_table_entries_total n entries v :
  size v + 1 < n -> ends (parse_table_entries n entries v) (S (size v)).
Proof.
  revert entries v. induction n as [|n IH]; intros entries v H; [lia|]. simpl.
  eapply ends_bindM; [apply ends_read_token|]. intros token w Hw.
  destruct (type token);
    try (eapply ends_bindM; [apply ends_unread_token|]; intros _ w1 Hw1;
         apply ends_ret; lia).
  eapply ends_bindM; [apply parse_table_row_total; lia|]. intros row w1 Hw1.
  eapply ends_bindM; [apply ends_lift; exact Hw1|]. intros entry w2 Hw2.
  eapply ends_mono; [apply IH; lia | lia].
Qed.

Lemma parse_table_total n v :
  size v + 1 < n -> ends (parse_table n v) (size v).
Proof.
  intros H. unfold parse_table, parse_table_header, parse_table_separator.
  apply ends_bindM with (a := size v).
  - apply ends_bindM with (a := size v); [apply parse_table_row_total; lia|].
    intros row w Hw.
    apply ends_bindM with (a := size v); [apply ends_lift; exact Hw|].
    intros names w1 Hw1. apply ends_lift. exact Hw1.
  - intros _ w Hw. apply ends_bindM with (a := size v).
    + apply ends_bindM with (a := size w); [apply ends_read_token|].
      intros token w1 Hw1.
      apply ends_bindM with (a := size w); [apply ends_lift; exact Hw1|].
      intros _ w2 Hw2.
      apply ends_bindM with (a := size w);
        [eapply ends_mono; [apply parse_table_row_total; lia | lia]|].
      intros row w3 Hw3.
      apply ends_bindM with (a := size w); [apply ends_lift; exact Hw3|].
      intros names w4 Hw4. apply ends_lift. lia.
    + intros _ w1 Hw1.
      eapply ends_mono; [apply parse_table_entries_total; lia | lia].
Qed.

Lemma parser_loop_total n yielded v :
  size v + 1 < n -> exists res, loop n yielded v = Some res.
Proof.
  revert yielded v. induction n as [|n IH]; intros yielded v H; [lia|]. simpl.
  pose proof (ends_read_token v) as Hr.
  destruct (read_token v) as [[[token w]|e]|]; simpl in Hr; [|eauto|tauto].
  destruct (type token); eauto; try (apply IH; lia).
  pose proof (parse_table_total n w ltac:(lia)) as Ht.
  destruct (parse_table n w) as [[[entries w']|e]|]; simpl in Ht;
    [|eauto|tauto].
  apply IH. lia.
Qed.

End ParserTotal.

(** [parse] is total: on every input it yields finitely many items and
    then returns or raises; neither recursion bound is reached. *)
Lemma parse_total input : exists items e, parse input = Some (items, e).
Proof.
  unfold parse. destruct (tokenize_total input) as (toks & e & ->).
  destruct (ParserTotal.parser_loop_total
              (Parser.size (Parser.init toks e) + 2) [] (Parser.init toks e))
    as [[items e'] H]; [lia|].
  exists items, e'. exact H.
Qed.

(** ** The tokens of a cell *)

Lemma append_nil_r s : s +:+ "" = s.
Proof.
  induction s as [|a s IH]; [reflexivity|].
  change (String a (s +:+ "") = String a s). rewrite IH. reflexivity.
Qed.

Lemma append_assoc s t u : (s +:+ t) +:+ u = s +:+ (t +:+ u).
Proof.
  induction s as [|a s IH]; [reflexivity|].
  change (String a ((s +:+ t) +:+ u) = String a (s +:+ (t +:+ u))).
  rewrite IH. reflexivity.
Qed.

Lemma length_append s t :
  String.length (s +:+ t) = String.length s + String.length t.
Proof.
  induction s as [|a s IH]; [reflexivity|].
  change (S (String.length (s +:+ t)) = S (String.length s + String.length t)).
  rewrite IH. reflexivity.
Qed.

Module TokenizerCell.
Import Tokenizer.

Lemma loop_mono n m state v yielded res :
  loop n state v yielded = Some res -> n <= m ->
  loop m state v yielded = Some res.
Proof.
  revert m state v yielded. induction n as [|n IH]; intros m state v yielded H Hm.
  - discriminate.
  - destruct m as [|m]; [lia|]. simpl in *.
    destruct (call state v) as [[[state'|] v']|e]; try assumption.
    apply IH; [assumption | lia].
Qed.

Lemma join_Some buf : join (map Some buf) = Ok (concat_strings buf).
Proof.
  induction buf as [|s buf IH]; simpl; [reflexivity|]. rewrite IH. reflexivity.
Qed.

Lemma flush_literals_buf input buf toks :
  flush_literals (mkVars input [] (map Some buf) toks)
  = Ok (mkVars input [] [] (toks ++ flushed buf)).
Proof.
  unfold flush_literals. destruct buf as [|s buf].
  - simpl. rewrite app_nil_r. reflexivity.
  - cbn [literals_buf map join]. rewrite join_Some. reflexivity.
Qed.

(** A token other than a literal flushes the buffer and follows it. *)
Lemma emit_token ty txt input buf :
  ty <> LITERAL ->
  emit ty txt (mkVars input [] (map Some buf) [])
  = Ok (mkVars input [] [] (flushed buf ++ [mkToken ty txt])).
Proof.
  intros H. unfold emit.
  destruct ty; try congruence; rewrite flush_literals_buf; reflexivity.
Qed.

Lemma emit_literal s input buf :
  emit LITERAL (Some s) (mkVars input [] (map Some buf) [])
  = Ok (mkVars input [] (map Some (buf ++ [s])) []).
Proof. unfold emit. simpl. rewrite map_app. reflexivity. Qed.

(** One call of [state_table_cell] on a character that is no newline, pipe
    or backslash. *)
Lemma table_cell_plain a input buf :
  Ascii.eqb a newline = false -> Ascii.eqb a "|" = false ->
  Ascii.eqb a "\" = false ->
  table_cell (mkVars (String a input) [] (map Some buf) [])
  = match special a with
    | Some ty =>
        Ok (Some state_table_cell,
            mkVars input [] [] (flushed buf ++ [mkToken ty (Some (str1 a))]))
    | None =>
        Ok (Some state_table_cell, mkVars input [] (map Some (buf ++ [str1 a])) [])
    end.
Proof.
  intros Hn Hp Hb. unfold table_cell, getchar. cbn -[emit]. unfold set_r. cbn -[emit].
  rewrite Hn, Hp, Hb. unfold special.
  repeat match goal with
         | |- context [if Ascii.eqb a ?c then _ else _] =>
             destruct (Ascii.eqb a c)
         end;
    first [rewrite emit_token by discriminate | rewrite emit_literal];
    reflexivity.
Qed.

Lemma table_cell_escape d input buf :
  Ascii.eqb d newline = false ->
  table_cell (mkVars (String "\" (String d input)) [] (map Some buf) [])
  = Ok (Some state_table_cell,
        mkVars input [] (map Some (buf ++ [if in_string d punctuation
                                            then str1 d
                                            else String "\" (str1 d)])) []).
Proof.
  intros Hn. unfold table_cell, getchar. cbn -[emit in_string punctuation].
  unfold set_r. cbn -[emit in_string punctuation].
  rewrite Hn. destruct (in_string d punctuation); rewrite emit_literal;
    reflexivity.
Qed.

Lemma table_cell_pipe input buf :
  table_cell (mkVars (String "|" input) [] (map Some buf) [])
  = Ok (Some state_begin_table_cell,
        mkVars input [] [] (flushed buf ++ [cell_end])).
Proof.
  unfold table_cell, getchar. cbn -[emit]. unfold set_r. cbn -[emit].
  rewrite emit_token by discriminate. reflexivity.
Qed.

(** The tokenizer in a cell yields the tokens of [lex] and the token that
    ends the cell, and goes on after the pipe. *)
Lemma loop_table_cell m :
  forall c, String.length c <= m ->
  forall buf toks n yielded rest res,
    lex buf c = Some toks ->
    loop n state_begin_table_cell (mkVars rest [] [] [])
      (yielded ++ toks ++ [cell_end]) = Some res ->
    loop (S (String.length c) + n) state_table_cell
      (mkVars (c +:+ String "|" rest) [] (map Some buf) []) yielded = Some res.
Proof.
  induction m as [|m IH]; intros c Hc buf toks n yielded rest res Hlex Hres.
  - destruct c; [|simpl in Hc; lia]. simpl in Hlex. injection Hlex as <-.
    cbn [String.length Nat.add loop call].
    change ("" +:+ String "|" rest) with (String "|" rest).
    rewrite table_cell_pipe. exact Hres.
  - destruct c as [|a c].
    { simpl in Hlex. injection Hlex as <-.
      cbn [String.length Nat.add loop call].
      change ("" +:+ String "|" rest) with (String "|" rest).
      rewrite table_cell_pipe. exact Hres. }
    simpl in Hc. cbn [lex] in Hlex.
    destruct (Ascii.eqb a newline) eqn:Hn; [discriminate|].
    destruct (Ascii.eqb a "|") eqn:Hp; [discriminate|]. simpl orb in Hlex.
    cbn iota in Hlex.
    destruct (Ascii.eqb a "\") eqn:Hb.
    + apply Ascii.eqb_eq in Hb. subst a.
      destruct c as [|d c]; [discriminate|].
      destruct (Ascii.eqb d newline) eqn:Hdn; [discriminate|].
      change (loop (S (S (String.length (String d c)) + n)) state_table_cell
                (mkVars (String "\" (String d (c +:+ String "|" rest))) []
                   (map Some buf) []) yielded = Some res).
      cbn [loop call]. rewrite table_cell_escape by assumption.
      cbn [tokens set_tokens r unget_buf literals_buf]. rewrite app_nil_r.
      apply loop_mono with (n := S (String.length c) + n); [|simpl; lia].
      apply IH with (toks := toks); [simpl in Hc; lia| |exact Hres].
      destruct (in_string d punctuation); exact Hlex.
    + change (loop (S (S (String.length c) + n)) state_table_cell
                (mkVars (String a (c +:+ String "|" rest)) []
                   (map Some buf) []) yielded = Some res).
      cbn [loop call]. rewrite table_cell_plain by assumption.
      destruct (special a) as [ty|] eqn:Hs.
      * destruct (lex [] c) as [toks'|] eqn:Hl; [|discriminate].
        injection Hlex as <-.
        cbn [tokens set_tokens r unget_buf literals_buf].
        apply (IH c ltac:(lia) [] toks'); [exact Hl|].
        rewrite <- Hres. f_equal.
        rewrite <- !app_assoc. reflexivity.
      * cbn [tokens set_tokens r unget_buf literals_buf]. rewrite app_nil_r.
        apply IH with (toks := toks); [lia | exact Hlex | exact Hres].
Qed.

End TokenizerCell.

(** The tokens of the one-cell row [|c|]. *)
Lemma tokenize_cell c toks :
  lex [] c = Some toks ->
  tokenize ("|" +:+ c +:+ "|")
  = Some (row_begin :: toks
          ++ [cell_end; mkToken TABLE_ROW_END (Some ""); mkToken EOF None],
          Done).
Proof.
  intros Hlex. unfold tokenize.
  apply TokenizerCell.loop_mono
    with (n := 2 + (S (String.length c) + 3)).
  2:{ unfold Tokenizer.bound.
      change ("|" +:+ c +:+ "|") with (String "|" (c +:+ "|")).
      cbn [String.length]. rewrite length_append. cbn [String.length]. lia. }
  change (2 + (S (String.length c) + 3))
    with (S (S (S (String.length c) + 3))).
  cbn [Tokenizer.loop Tokenizer.call].
  change (Tokenizer.begin_line (Tokenizer.init ("|" +:+ c +:+ "|")))
    with (@Ok (option Tokenizer.State * Tokenizer.Vars)
            (Some Tokenizer.state_begin_table_cell,
             Tokenizer.mkVars (c +:+ "|") [] [] [row_begin])).
  cbn [Tokenizer.tokens Tokenizer.set_tokens Tokenizer.r Tokenizer.unget_buf
       Tokenizer.literals_buf app].
  destruct c as [|a c].
  - simpl in Hlex. injection Hlex as <-. vm_compute. reflexivity.
  - assert (Ha : Ascii.eqb a newline = false).
    { cbn [lex] in Hlex. destruct (Ascii.eqb a newline); [discriminate|reflexivity]. }
    assert (E : Tokenizer.begin_table_cell
                  (Tokenizer.mkVars (String a c +:+ "|") [] [] [])
                = Ok (Some Tokenizer.state_table_cell,
                      Tokenizer.mkVars (c +:+ "|") [Some a] [] [])).
    { unfold Tokenizer.begin_table_cell, Tokenizer.getchar. simpl.
      rewrite Ha. reflexivity. }
    cbn [Tokenizer.call Tokenizer.tokens Tokenizer.set_tokens Tokenizer.r
         Tokenizer.unget_buf Tokenizer.literals_buf].
    unfold Tokenizer.set_tokens at 1.
    cbn [Tokenizer.tokens Tokenizer.r Tokenizer.unget_buf Tokenizer.literals_buf].
    rewrite E. clear E. unfold Tokenizer.set_tokens at 1.
    cbn [Tokenizer.tokens Tokenizer.set_tokens Tokenizer.r Tokenizer.unget_buf
         Tokenizer.literals_buf].
    change (Tokenizer.loop (S (String.length (String a c)) + 3)
              Tokenizer.state_table_cell
              (Tokenizer.mkVars (String a c +:+ String "|" "") []
                 (map Some []) []) ([] ++ [row_begin])
            = Some (row_begin :: toks
                    ++ [cell_end; mkToken TABLE_ROW_END (Some "");
                        mkToken EOF None], Done)).
    apply (TokenizerCell.loop_table_cell (String.length (String a c))
             (String a c) ltac:(lia) [] toks 3 ([] ++ [row_begin]) "");
      [exact Hlex|].
    cbn. rewrite <- !app_assoc. reflexivity.
Qed.

(** ** Escaping and the tokenizer *)

Lemma plain_char a :
  negb (in_string a (String newline "|`[]()")) = true ->
  Ascii.eqb a newline = false /\ Ascii.eqb a "|" = false /\ special a = None.
Proof.
  unfold special. cbn [in_string].
  repeat match goal with
         | |- context [if Ascii.eqb a ?c then _ else _] => destruct (Ascii.eqb a c)
         end; simpl; intros H; try discriminate; auto.
Qed.

Lemma lex_escaped s buf :
  plain s = true ->
  lex buf (backslash_escape s "")
  = Some (flushed (buf ++ map str1 (list_ascii_of_string s))).
Proof.
  revert buf. induction s as [|a s IH]; intros buf H.
  - simpl. rewrite app_nil_r. reflexivity.
  - unfold plain, free_of in H. cbn [all_chars] in H.
    apply andb_prop in H as [Ha Hs].
    apply plain_char in Ha as (Hn & Hp & Hsp).
    cbn [backslash_escape in_string list_ascii_of_string map].
    rewrite orb_false_r.
    replace (buf ++ str1 a :: map str1 (list_ascii_of_string s))
      with ((buf ++ [str1 a]) ++ map str1 (list_ascii_of_string s))
      by (rewrite <- app_assoc; reflexivity).
    destruct (Ascii.eqb a "\") eqn:Hb.
    + apply Ascii.eqb_eq in Hb. subst a.
      change ("\" +:+ String "\" (backslash_escape s ""))
        with (String "\" (String "\" (backslash_escape s ""))).
      cbn -[punctuation in_string]. 
      change (in_string "\" punctuation) with true. cbn iota.
      apply IH. exact Hs.
    + change ("" +:+ String a (backslash_escape s ""))
        with (String a (backslash_escape s "")).
      cbn [lex]. rewrite Hn, Hp, Hb, Hsp. simpl orb. cbn iota.
      apply IH. exact Hs.
Qed.

Lemma concat_chars s : concat_strings (map str1 (list_ascii_of_string s)) = s.
Proof.
  induction s as [|a s IH]; [reflexivity|].
  cbn [list_ascii_of_string map concat_strings]. rewrite IH. reflexivity.
Qed.

(** Escaping is reversed by the tokenizer: the row [|e|], for [e] the
    escaped form of a plain text [s], holds the single literal [s]. *)
Lemma tokenize_escaped s :
  plain s = true ->
  tokenize ("|" +:+ backslash_escape s "" +:+ "|")
  = Some (row_begin
          :: match s with
             | EmptyString => []
             | _ => [mkToken LITERAL (Some s)]
             end
          ++ [cell_end; mkToken TABLE_ROW_END (Some ""); mkToken EOF None],
          Done).
Proof.
  intros H. rewrite (tokenize_cell _ _ (lex_escaped s [] H)).
  destruct s as [|a s]; [reflexivity|].
  unfold flushed. cbn [app list_ascii_of_string map].
  change (str1 a :: map str1 (list_ascii_of_string s))
    with (map str1 (list_ascii_of_string (String a s))).
  rewrite concat_chars. reflexivity.
Qed.

(** ** Escaping, texts and tokens *)

Lemma free_of_append chars s t :
  free_of chars (s +:+ t) = free_of chars s && free_of chars t.
Proof.
  unfold free_of. induction s as [|a s IH]; [reflexivity|].
  change (String a s +:+ t) with (String a (s +:+ t)). cbn [all_chars].
  rewrite IH, andb_assoc. reflexivity.
Qed.

Lemma escape_id s chars :
  free_of (String "\" chars) s = true -> backslash_escape s chars = s.
Proof.
  unfold free_of. induction s as [|a s IH]; [reflexivity|].
  cbn [all_chars backslash_escape in_string]. intros H.
  apply andb_prop in H as [Ha Hs]. rewrite (IH Hs).
  destruct (Ascii.eqb a "\"); [discriminate|]. simpl orb.
  simpl in Ha. apply negb_true_iff in Ha. rewrite Ha. reflexivity.
Qed.

Lemma escape_append s t chars :
  backslash_escape (s +:+ t) chars
  = backslash_escape s chars +:+ backslash_escape t chars.
Proof.
  induction s as [|a s IH]; [reflexivity|].
  change (String a s +:+ t) with (String a (s +:+ t)).
  cbn [backslash_escape]. rewrite IH, append_assoc. reflexivity.
Qed.

(** Characters that do not occur need no escaping. *)
Lemma escape_free s chars :
  free_of chars s = true -> backslash_escape s chars = backslash_escape s "".
Proof.
  unfold free_of. induction s as [|a s IH]; [reflexivity|].
  cbn [all_chars backslash_escape in_string]. intros H.
  apply andb_prop in H as [Ha Hs]. rewrite (IH Hs).
  apply negb_true_iff in Ha. rewrite Ha. reflexivity.
Qed.

Lemma concat_strings_app l1 l2 :
  concat_strings (l1 ++ l2) = concat_strings l1 +:+ concat_strings l2.
Proof.
  induction l1 as [|s l1 IH]; [reflexivity|].
  cbn [app concat_strings]. rewrite IH, append_assoc. reflexivity.
Qed.

Lemma src_app l1 l2 : src (l1 ++ l2) = src l1 +:+ src l2.
Proof. unfold src. rewrite map_app. apply concat_strings_app. Qed.

Lemma src_cons tok toks : src (tok :: toks) = token_text tok +:+ src toks.
Proof. reflexivity. Qed.

Lemma src_flushed buf : src (flushed buf) = concat_strings buf.
Proof.
  destruct buf as [|s buf]; [reflexivity|].
  unfold flushed, src. cbn [map concat_strings token_text text].
  apply append_nil_r.
Qed.

Module ParserCell.
Import Parser.

Lemma join_app txt s t :
  join txt = Ok t -> join (txt ++ [Some s]) = Ok (t +:+ s).
Proof.
  revert t. induction txt as [|[x|] txt IH]; intros t; simpl.
  - intros [= <-]. rewrite append_nil_r. reflexivity.
  - destruct (join txt) as [t'|] eqn:E; simpl; [|discriminate].
    intros [= <-]. rewrite (IH t' eq_refl). simpl.
    rewrite append_assoc. reflexivity.
  - discriminate.
Qed.

Lemma special_cases a ty :
  special a = Some ty ->
  (a = "`"%char /\ ty = BACKTICK) \/ (a = "["%char /\ ty = OPEN_BRACKET)
  \/ (a = "]"%char /\ ty = CLOSE_BRACKET) \/ (a = "("%char /\ ty = OPEN_PAREN)
  \/ (a = ")"%char /\ ty = CLOSE_PAREN).
Proof.
  unfold special.
  repeat match goal with
         | |- context [if Ascii.eqb a ?c then _ else _] =>
             destruct (Ascii.eqb a c) eqn:?
         end; intros [= <-];
    match goal with
    | H : Ascii.eqb a _ = true |- _ => apply Ascii.eqb_eq in H; subst a
    end; tauto.
Qed.

End ParserCell.

(** A cell that holds one plain literal is parsed back from its
    serialization. *)
Lemma parse_cell_escaped s :
  plain s = true -> s <> "" ->
  parse_cell (backslash_escape s "") = Some (Ok (cell s)).
Proof.
  intros H Hne. unfold parse_cell. rewrite (tokenize_escaped s H).
  destruct s as [|a s]; [congruence|]. reflexivity.
Qed.


(** ** The shape of the tokenizer's output *)

Lemma run_app p l1 l2 :
  run p (l1 ++ l2)
  = match run p l1 with
    | Some q => run q l2
    | None => None
    end.
Proof.
  revert p. induction l1 as [|tok l1 IH]; intros p; [reflexivity|].
  simpl. destruct (step p tok); [apply IH | reflexivity].
Qed.

Lemma no_row_line_app b s t :
  no_row_line b (s +:+ t) = no_row_line b s && no_row_line (line_start b s) t.
Proof.
  revert b. induction s as [|a s IH]; intros b; [reflexivity|].
  change (String a s +:+ t) with (String a (s +:+ t)).
  cbn [no_row_line line_start]. rewrite IH, andb_assoc. reflexivity.
Qed.

Lemma line_start_app b s t :
  line_start b (s +:+ t) = line_start (line_start b s) t.
Proof.
  revert b. induction s as [|a s IH]; intros b; [reflexivity|].
  change (String a s +:+ t) with (String a (s +:+ t)). apply IH.
Qed.

Lemma append_not_empty s t : t <> "" -> s +:+ t <> "".
Proof.
  destruct s as [|a s]; [trivial|]. intros _.
  change (String a s +:+ t) with (String a (s +:+ t)). discriminate.
Qed.

Lemma concat_strings_snoc buf s :
  concat_strings (buf ++ [s]) = concat_strings buf +:+ s.
Proof.
  rewrite concat_strings_app. cbn [concat_strings]. rewrite append_nil_r.
  reflexivity.
Qed.

Lemma eqb_empty_false s : s <> "" -> String.eqb s "" = false.
Proof. destruct s; [congruence | reflexivity]. Qed.

Lemma free_of_nl_char a : Ascii.eqb a newline = false -> free_of nl (str1 a) = true.
Proof.
  intros H. unfold free_of, nl, str1. cbn [all_chars in_string]. rewrite H.
  reflexivity.
Qed.

Module TokenizerShape.
Import Tokenizer.

(** A token that is no literal flushes the literals and follows them. *)
Lemma emit_other ty txt v buf :
  ty <> LITERAL ->
  literals_buf v = map Some buf ->
  emit ty txt v
  = Ok (mkVars (r v) (unget_buf v) []
          (tokens v ++ flushed buf ++ [mkToken ty txt])).
Proof.
  intros Hty Hbuf. destruct v as [input u l t]. simpl in Hbuf. subst l.
  assert (E : flush_literals (mkVars input u (map Some buf) t)
              = Ok (mkVars input u [] (t ++ flushed buf))).
  { unfold flush_literals. destruct buf as [|s buf].
    - simpl. rewrite app_nil_r. reflexivity.
    - cbn [literals_buf map join]. rewrite TokenizerCell.join_Some.
      reflexivity. }
  unfold emit. destruct ty; try congruence; rewrite E; simpl;
    rewrite <- app_assoc; reflexivity.
Qed.

(** The literal of text outside a row, read outside a row. *)
Lemma run_flushed_text buf :
  (buf <> [] -> concat_strings buf <> "") ->
  no_row_line true (concat_strings buf) = true ->
  exists p, run outside (flushed buf) = Some p
            /\ (p = outside \/ p = after_text).
Proof.
  intros Hne Hl. destruct buf as [|s buf]; [exists outside; auto|].
  exists after_text. split; [|auto]. unfold flushed.
  cbn [run step type text]. rewrite Hl, eqb_empty_false by (apply Hne; discriminate).
  reflexivity.
Qed.

(** The literal of a cell, read after a token that is no literal. *)
Lemma run_flushed_cell buf p :
  (buf <> [] -> concat_strings buf <> "") ->
  free_of nl (concat_strings buf) = true ->
  p = cell_start \/ p = in_cell ->
  exists q, run p (flushed buf) = Some q
            /\ (q = cell_start \/ q = in_cell \/ q = after_literal).
Proof.
  intros Hne Hf Hp. destruct buf as [|s buf]; [exists p; tauto|].
  exists after_literal. split; [|auto]. unfold flushed.
  cbn [run step type text]. rewrite Hf, eqb_empty_false by (apply Hne; discriminate).
  destruct Hp as [-> | ->]; reflexivity.
Qed.

Lemma getchar_vars v c v' :
  getchar v = (c, v') ->
  literals_buf v' = literals_buf v /\ tokens v' = tokens v
  /\ (length (unget_buf v) <= 1 -> unget_buf v' = [])
  /\ (unget_buf v = [] ->
      match c with
      | None => r v = "" /\ v' = v
      | Some a => r v = String a (r v')
      end)
  /\ (forall x u, unget_buf v = x :: u -> c = x).
Proof.
  unfold getchar. destruct v as [input u l t]; simpl.
  destruct u as [|x u].
  - destruct input as [|a s]; intros [= <- <-]; simpl;
      repeat split; auto; discriminate.
  - intros [= <- <-]. simpl. repeat split; try discriminate.
    + destruct u; [reflexivity | simpl; lia].
    + intros y u' [= -> _]. reflexivity.
Qed.

Lemma run_outside_row_begin buf :
  (buf <> [] -> concat_strings buf <> "") ->
  no_row_line true (concat_strings buf) = true ->
  run outside (flushed buf ++ [mkToken TABLE_ROW_BEGIN (Some "|")])
  = Some cell_start.
Proof.
  intros Hne Hl. rewrite run_app.
  destruct (run_flushed_text buf Hne Hl) as (q & -> & [-> | ->]); reflexivity.
Qed.

Lemma run_outside_eof buf :
  (buf <> [] -> concat_strings buf <> "") ->
  no_row_line true (concat_strings buf) = true ->
  run outside (flushed buf ++ [mkToken EOF None]) = Some finished.
Proof.
  intros Hne Hl. rewrite run_app.
  destruct (run_flushed_text buf Hne Hl) as (q & -> & [-> | ->]); reflexivity.
Qed.

Lemma run_cell_token buf p tok q :
  (buf <> [] -> concat_strings buf <> "") ->
  free_of nl (concat_strings buf) = true ->
  p = cell_start \/ p = in_cell ->
  (forall p', p' = cell_start \/ p' = in_cell \/ p' = after_literal ->
              step p' tok = Some q) ->
  run p (flushed buf ++ [tok]) = Some q.
Proof.
  intros Hne Hf Hp Hstep. rewrite run_app.
  destruct (run_flushed_cell buf p Hne Hf Hp) as (p' & -> & Hp').
  cbn [run]. rewrite (Hstep p' Hp'). reflexivity.
Qed.

(** One call of a state function keeps the invariant; it raises only a
    [ValueError], and only in a row; the last call ends the stream. *)
Lemma call_shape state v yielded :
  shape_inv state v yielded ->
  match call state v with
  | Raise e =>
      e = ValueError
      /\ (run outside yielded = Some cell_start
          \/ run outside yielded = Some in_cell)
  | Ok (Some state', v') =>
      shape_inv state' (set_tokens v' []) (yielded ++ tokens v')
  | Ok (None, v') => run outside (yielded ++ tokens v') = Some finished
  end.
Proof.
  intros (Ht & buf & Hbuf & Hne & Hinv). destruct state; unfold call.
  - (* state_begin_line *)
    destruct Hinv as (Hu & Hrun & Hl & Hs).
    unfold begin_line. destruct (getchar v) as [c w] eqn:G.
    apply getchar_vars in G as (Gl & Gt & Gu & Gr & Gx). specialize (Gr Hu).
    rewrite Hu in Gu. specialize (Gu ltac:(simpl; lia)).
    rewrite Hbuf in Gl. rewrite Ht in Gt.
    destruct c as [a|].
    + destruct (Ascii.eqb a "|") eqn:Ha.
      * apply Ascii.eqb_eq in Ha. subst a.
        rewrite (emit_other _ _ w buf) by (discriminate || assumption).
        cbn [bind set_tokens tokens r unget_buf literals_buf].
        split; [reflexivity|]. exists []. rewrite Gt, Gu.
        cbn [map app literals_buf unget_buf]. repeat split; try congruence.
        rewrite run_app, Hrun. apply (run_outside_row_begin buf Hne Hl).
      * split; [reflexivity|]. exists buf.
        unfold ungetchar. cbn [set_tokens set_unget_buf tokens r unget_buf literals_buf].
        rewrite Gt, app_nil_r, Gu. repeat split; try assumption.
        left. exists a. repeat split; [assumption|].
        destruct Hs as [Hs|Hs]; [exact Hs | rewrite Gr in Hs; discriminate].
    + destruct Gr as [Gr ->]. split; [reflexivity|]. exists buf.
      cbn [set_tokens tokens r unget_buf literals_buf].
      rewrite Ht, app_nil_r. repeat split; assumption.
  - (* state_literal_line *)
    destruct Hinv as (Hrun & Hl & Hcase).
    unfold literal_line. destruct (getchar v) as [c w] eqn:G.
    apply getchar_vars in G as (Gl & Gt & Gu & Gr & Gx).
    rewrite Hbuf in Gl. rewrite Ht in Gt.
    unfold emit. cbn [bind].
    assert (Hnew : forall s,
      no_row_line (line_start true (concat_strings buf)) s = true ->
      (s = "" -> buf <> []) ->
      (line_start true (concat_strings buf +:+ s) = true \/ r w = "") ->
      unget_buf w = [] ->
      shape_inv state_begin_line
        (set_tokens (set_literals_buf w (literals_buf w ++ [Some s])) [])
        (yielded ++ tokens (set_literals_buf w (literals_buf w ++ [Some s])))).
    { intros s Hs1 Hs2 Hs3 Hw. split; [reflexivity|]. exists (buf ++ [s]).
      cbn [set_tokens set_literals_buf tokens r unget_buf literals_buf].
      rewrite Gl, Gt, app_nil_r, map_app, concat_strings_snoc.
      split; [reflexivity|]. split.
      - intros _. destruct s as [|a s].
        + rewrite append_nil_r. apply Hne. apply Hs2. reflexivity.
        + apply append_not_empty. discriminate.
      - repeat split; try assumption.
        rewrite no_row_line_app, Hl, Hs1. reflexivity. }
    assert (Hmid : forall a,
      no_row_line (line_start true (concat_strings buf)) (str1 a) = true ->
      Ascii.eqb a newline = false ->
      unget_buf w = [] ->
      shape_inv state_literal_line
        (set_tokens (set_literals_buf w (literals_buf w ++ [Some (str1 a)])) [])
        (yielded
         ++ tokens (set_literals_buf w (literals_buf w ++ [Some (str1 a)])))).
    { intros a Hs1 Ha Hw. split; [reflexivity|]. exists (buf ++ [str1 a]).
      cbn [set_tokens set_literals_buf tokens r unget_buf literals_buf].
      rewrite Gl, Gt, app_nil_r, map_app, concat_strings_snoc.
      split; [reflexivity|]. split.
      - intros _. apply append_not_empty. discriminate.
      - repeat split; try assumption.
        + rewrite no_row_line_app, Hl, Hs1. reflexivity.
        + right. split; [assumption|]. rewrite line_start_app.
          cbn [str1 line_start]. exact Ha. }
    destruct Hcase as [(c0 & Hu & Hc0 & Hs)|(Hu & Hs)].
    + (* the character pushed back by state_begin_line *)
      assert (c = Some c0 /\ unget_buf w = []) as [-> Hw].
      { split; [exact (Gx _ _ Hu) | apply Gu; rewrite Hu; simpl; lia]. }
      cbn [is_eol chr_text]. destruct (Ascii.eqb c0 newline) eqn:Hn.
      * apply Hnew; [| discriminate | | exact Hw].
        -- rewrite Hs. cbn [str1 no_row_line]. rewrite Hc0. reflexivity.
        -- left. rewrite line_start_app. cbn [str1 line_start]. exact Hn.
      * apply Hmid; [|exact Hn | exact Hw].
        rewrite Hs. cbn [str1 no_row_line]. rewrite Hc0. reflexivity.
    + (* a character of the input, in the middle of a line *)
      specialize (Gr Hu). rewrite Hu in Gu. specialize (Gu ltac:(simpl; lia)).
      rewrite Hs in Hnew, Hmid.
      destruct c as [a|]; cbn [is_eol chr_text].
      * destruct (Ascii.eqb a newline) eqn:Hn.
        -- apply Hnew; [reflexivity | discriminate | | exact Gu].
           left. rewrite line_start_app. cbn [str1 line_start]. exact Hn.
        -- apply Hmid; [reflexivity | exact Hn | exact Gu].
      * destruct Gr as [Gr ->]. apply Hnew; [reflexivity | | auto | exact Gu].
        intros _ ->. discriminate.
  - (* state_begin_table_cell *)
    destruct Hinv as (-> & Hu & Hrun).
    unfold begin_table_cell. destruct (getchar v) as [c w] eqn:G.
    apply getchar_vars in G as (Gl & Gt & Gu & Gr & Gx).
    rewrite Hbuf in Gl. rewrite Ht in Gt. specialize (Gr Hu).
    rewrite Hu in Gu. specialize (Gu ltac:(simpl; lia)).
    destruct (is_eol c) eqn:Hc.
    + rewrite (emit_other _ _ w []) by (discriminate || assumption).
      cbn [bind set_tokens tokens r unget_buf literals_buf].
      split; [reflexivity|]. exists []. rewrite Gt, Gu.
      cbn [map app flushed concat_strings no_row_line line_start].
      repeat split; auto; try congruence.
      rewrite run_app, Hrun. cbn [run step type text].
      destruct c as [a|]; cbn [chr_text is_eol] in *.
      * apply Ascii.eqb_eq in Hc. subst a. reflexivity.
      * reflexivity.
    + split; [reflexivity|]. exists [].
      unfold ungetchar.
      cbn [set_tokens set_unget_buf tokens r unget_buf literals_buf map
           concat_strings].
      rewrite Gt, app_nil_r, Gu. repeat split; auto; try congruence.
  - (* state_table_cell *)
    destruct Hinv as (Hf & Hu & Hrun).
    unfold table_cell. destruct (getchar v) as [c w] eqn:G.
    apply getchar_vars in G as (Gl & Gt & Gu & _ & _).
    rewrite Hbuf in Gl. rewrite Ht in Gt. specialize (Gu Hu).
    destruct (is_eol c) eqn:Hc; [auto|].
    destruct c as [a|]; [|auto]. cbn [is_eol] in Hc.
    assert (Hlit : forall s w',
      s <> "" -> free_of nl s = true ->
      literals_buf w' = map Some buf -> tokens w' = [] -> unget_buf w' = [] ->
      shape_inv state_table_cell
        (set_tokens (set_literals_buf w' (literals_buf w' ++ [Some s])) [])
        (yielded ++ tokens (set_literals_buf w' (literals_buf w' ++ [Some s])))).
    { intros s w' Hs1 Hs2 Hl' Ht' Hu'. split; [reflexivity|].
      exists (buf ++ [s]).
      cbn [set_tokens set_literals_buf tokens r unget_buf literals_buf].
      rewrite Hl', Ht', Hu', app_nil_r, map_app, concat_strings_snoc.
      split; [reflexivity|]. split.
      - intros _. apply append_not_empty. exact Hs1.
      - rewrite free_of_append, Hf, Hs2. repeat split; auto. }
    assert (Htok : forall ty s,
      ty <> LITERAL ->
      (forall p', p' = cell_start \/ p' = in_cell \/ p' = after_literal ->
                  step p' (mkToken ty (Some s)) = Some in_cell) ->
      match v' <- emit ty (Some s) w ;; Ok (Some state_table_cell, v') with
      | Ok (Some state', v') =>
          shape_inv state' (set_tokens v' []) (yielded ++ tokens v')
      | Ok (None, v') => run outside (yielded ++ tokens v') = Some finished
      | Raise e =>
          e = ValueError
          /\ (run outside yielded = Some cell_start
              \/ run outside yielded = Some in_cell)
      end).
    { intros ty s Hty Hstep.
      rewrite (emit_other _ _ w buf) by assumption.
      cbn [bind set_tokens tokens r unget_buf literals_buf].
      split; [reflexivity|]. exists []. rewrite Gt, Gu.
      cbn [map app concat_strings]. repeat split; auto; try congruence.
      right. rewrite run_app.
      destruct Hrun as [Hr|Hr]; rewrite Hr;
        apply (run_cell_token buf _ _ in_cell Hne Hf); auto. }
    destruct (Ascii.eqb a "|") eqn:Hp.
    + apply Ascii.eqb_eq in Hp. subst a.
      rewrite (emit_other _ _ w buf) by (discriminate || assumption).
      cbn [bind set_tokens tokens r unget_buf literals_buf].
      split; [reflexivity|]. exists []. rewrite Gt, Gu.
      cbn [map app]. repeat split; auto; try congruence.
      rewrite run_app.
      destruct Hrun as [Hr|Hr]; rewrite Hr;
        apply (run_cell_token buf _ _ cell_start Hne Hf); auto;
        intros p' [->|[->| ->]]; reflexivity.
    + destruct (Ascii.eqb a "\") eqn:Hb.
      * destruct (getchar w) as [d w2] eqn:G2.
        apply getchar_vars in G2 as (G2l & G2t & G2u & _ & _).
        rewrite Gl in G2l. rewrite Gt in G2t. rewrite Gu in G2u.
        specialize (G2u ltac:(simpl; lia)).
        destruct (is_eol d) eqn:Hd; [auto|].
        destruct d as [b|]; [|auto]. cbn [is_eol] in Hd.
        destruct (in_string b punctuation); unfold emit; cbn [bind];
          apply Hlit; auto; try discriminate.
        -- apply free_of_nl_char. exact Hd.
        -- rewrite free_of_append, !free_of_nl_char by assumption. reflexivity.
      * repeat match goal with
               | |- context [if Ascii.eqb a ?c then _ else _] =>
                   let E := fresh "E" in
                   destruct (Ascii.eqb a c) eqn:E;
                   [apply Ascii.eqb_eq in E; subst a;
                    apply Htok; [discriminate|];
                    intros p' [->|[->| ->]]; reflexivity|]
               end.
        unfold emit. cbn [bind]. apply Hlit; auto; try discriminate.
        apply free_of_nl_char. exact Hc.
  - (* state_eof *)
    destruct Hinv as (Hu & Hrun & Hl & Hs). unfold eof.
    rewrite (emit_other _ _ v buf) by (discriminate || assumption).
    cbn [bind tokens]. rewrite Ht. cbn [app].
    rewrite run_app, Hrun. apply run_outside_eof; assumption.
Qed.

Lemma init_shape input : shape_inv state_begin_line (init input) [].
Proof.
  split; [reflexivity|]. exists []. simpl. repeat split; auto.
Qed.

Lemma loop_shape n :
  forall state v yielded toks e,
    shape_inv state v yielded ->
    loop n state v yielded = Some (toks, e) ->
    match e with
    | Done => run outside toks = Some finished
    | Raised x =>
        x = ValueError
        /\ (run outside toks = Some cell_start
            \/ run outside toks = Some in_cell)
    end.
Proof.
  induction n as [|n IH]; intros state v yielded toks e Hinv H; [discriminate|].
  cbn [loop] in H. pose proof (call_shape state v yielded Hinv) as Hc.
  destruct (call state v) as [[[state'|] v']|x].
  - eapply IH; eassumption.
  - injection H as <- <-. exact Hc.
  - injection H as <- <-. exact Hc.
Qed.

End TokenizerShape.

(** What a token tells about the place after it: the token that ends the
    stream has no text and is read last; every other token has a text. *)
Lemma step_cases p tok q :
  step p tok = Some q ->
  (type tok = EOF /\ text tok = None /\ q = finished)
  \/ (type tok <> EOF /\ (exists s, text tok = Some s) /\ q <> finished
      /\ p <> finished).
Proof.
  destruct tok as [ty [s|]]; unfold step; cbn [type text];
    destruct ty, p; try discriminate;
    repeat match goal with
           | |- (if ?b then _ else _) = _ -> _ => destruct b
           end;
    try discriminate; intros [= <-];
    first [left; repeat split; reflexivity
          | right; repeat split; eauto; discriminate].
Qed.

Lemma run_finished_nil toks q : run finished toks = Some q -> toks = [].
Proof.
  destruct toks as [|tok toks]; [reflexivity|].
  destruct tok as [ty tx]. destruct ty, tx; discriminate.
Qed.

(** Before the end of a stream no token is the last one, and every token
    has a text. *)
Lemma run_texts toks :
  forall p q,
    run p toks = Some q -> q <> finished ->
    Forall (fun t => type t <> EOF /\ exists s, text t = Some s) toks.
Proof.
  induction toks as [|tok toks IH]; intros p q H Hq; [constructor|].
  cbn [run] in H. destruct (step p tok) as [p1|] eqn:E; [|discriminate].
  apply step_cases in E as [(_ & _ & ->)|(Hty & Htx & _ & _)].
  - apply run_finished_nil in H as Hnil. subst toks. simpl in H. congruence.
  - constructor; [auto | eapply IH; eassumption].
Qed.

(** A stream that is read to its end is a body of tokens with text and
    then the one token that ends it. *)
Lemma run_finished toks :
  forall p,
    run p toks = Some finished -> p <> finished ->
    exists body q,
      toks = body ++ [mkToken EOF None]
      /\ run p body = Some q /\ (q = outside \/ q = after_text)
      /\ Forall (fun t => type t <> EOF /\ exists s, text t = Some s) body.
Proof.
  induction toks as [|tok toks IH]; intros p H Hp; [simpl in H; congruence|].
  cbn [run] in H. destruct (step p tok) as [p1|] eqn:E; [|discriminate].
  destruct (step_cases _ _ _ E) as [(Hty & Htx & ->)|(Hty & Htx & Hp1 & _)].
  - apply run_finished_nil in H. subst toks. exists [], p.
    destruct tok as [ty tx]. simpl in Hty, Htx. subst ty tx.
    repeat split; [|constructor].
    destruct p; try discriminate; auto.
  - destruct (IH p1 H Hp1) as (body & q & -> & Hrun & Hq & Hall).
    exists (tok :: body), q. repeat split; auto.
    cbn [run]. rewrite E. exact Hrun.
Qed.

(** X1: the tokenizer raises nothing but [ValueError], and only inside a
    table row: the tokens that it yielded before are the well-formed
    beginning of a stream that stops in a row, after the token that begins
    the row, after a pipe, or after a one-character token of a cell; none
    of them is the token that ends a stream, and every one has a text. *)
Theorem tokenize_raises_in_a_row input toks e :
  tokenize input = Some (toks, Raised e) ->
  e = ValueError
  /\ (run outside toks = Some cell_start \/ run outside toks = Some in_cell)
  /\ Forall (fun t => type t <> EOF /\ exists s, text t = Some s) toks.
Proof.
  intros H.
  pose proof (TokenizerShape.loop_shape _ _ _ _ _ _
                (TokenizerShape.init_shape input) H) as (He & Hrun).
  repeat split; [exact He | exact Hrun|].
  destruct Hrun as [Hr|Hr]; eapply run_texts; try exact Hr; discriminate.
Qed.

Lemma tokenize_raises_in_a_row_witness :
  ValueError = ValueError
  /\ (run outside [row_begin; mkToken LITERAL (Some "a"); cell_end]
      = Some cell_start
      \/ run outside [row_begin; mkToken LITERAL (Some "a"); cell_end]
         = Some in_cell)
  /\ Forall (fun t => type t <> EOF /\ exists s, text t = Some s)
       [row_begin; mkToken LITERAL (Some "a"); cell_end].
Proof.
  apply (tokenize_raises_in_a_row "|a|b").
  vm_compute. reflexivity.
Defined.

(** X2: a token stream that the tokenizer completes is well formed: text
    outside rows comes as single literals that are not empty and have no
    line beginning with a pipe; a row is the token that begins it, cells
    that each end with a pipe token, and the token that ends the row; in a
    cell no two literals stand side by side, and a literal is not empty
    and holds no newline; the stream ends with the one token [EOF]. *)
Theorem tokenize_stream_shape input toks :
  tokenize input = Some (toks, Done) ->
  run outside toks = Some finished
  /\ exists body,
      toks = body ++ [mkToken EOF None]
      /\ Forall (fun t => type t <> EOF /\ exists s, text t = Some s) body.
Proof.
  intros H.
  pose proof (TokenizerShape.loop_shape _ _ _ _ _ _
                (TokenizerShape.init_shape input) H) as Hrun.
  split; [exact Hrun|].
  destruct (run_finished toks outside Hrun ltac:(discriminate))
    as (body & q & -> & _ & _ & Hall).
  exists body. auto.
Qed.

Lemma tokenize_stream_shape_witness :
  run outside
    [mkToken LITERAL (Some ("x" +:+ nl)); row_begin;
     mkToken LITERAL (Some "a|"); mkToken BACKTICK (Some "`"); cell_end;
     mkToken TABLE_ROW_END (Some ""); mkToken EOF None] = Some finished
  /\ exists body,
      [mkToken LITERAL (Some ("x" +:+ nl)); row_begin;
       mkToken LITERAL (Some "a|"); mkToken BACKTICK (Some "`"); cell_end;
       mkToken TABLE_ROW_END (Some ""); mkToken EOF None]
      = body ++ [mkToken EOF None]
      /\ Forall (fun t => type t <> EOF /\ exists s, text t = Some s) body.
Proof.
  apply (tokenize_stream_shape ("x" +:+ nl +:+ "|a\|`|")).
  vm_compute. reflexivity.
Defined.

(** ** Text outside tables *)

Module TokenizerText.
Import Tokenizer.

(** What was yielded before does not matter to the loop. *)
Lemma loop_yielded n :
  forall state v first yielded,
    loop n state v (first ++ yielded) = after first (loop n state v yielded).
Proof.
  induction n as [|n IH]; intros state v first yielded; [reflexivity|].
  cbn [loop]. destruct (call state v) as [[[state'|] v']|e].
  - rewrite <- app_assoc. apply IH.
  - simpl. rewrite app_assoc. reflexivity.
  - reflexivity.
Qed.

Lemma loop_S n state v yielded :
  loop (S n) state v yielded
  = match call state v with
    | Raise e => Some (yielded, Raised e)
    | Ok (None, v') => Some (yielded ++ tokens v', Done)
    | Ok (Some state', v') =>
        loop n state' (set_tokens v' []) (yielded ++ tokens v')
    end.
Proof. simpl. destruct (call state v) as [[[s|] v']|e]; reflexivity. Qed.

(** The two calls that read one character of text. *)
Lemma literal_line_char c input buf :
  literal_line (mkVars (String c input) [] (map Some buf) [])
  = Ok (Some (text_state (Ascii.eqb c newline)),
        mkVars input [] (map Some (buf ++ [str1 c])) []).
Proof.
  unfold literal_line, getchar. cbn -[emit]. unfold set_r. cbn -[emit].
  rewrite TokenizerCell.emit_literal. simpl. destruct (Ascii.eqb c newline); reflexivity.
Qed.

Lemma literal_line_unget c input buf :
  literal_line (mkVars input [Some c] (map Some buf) [])
  = Ok (Some (text_state (Ascii.eqb c newline)),
        mkVars input [] (map Some (buf ++ [str1 c])) []).
Proof.
  unfold literal_line, getchar. cbn -[emit]. unfold set_unget_buf. cbn -[emit].
  rewrite TokenizerCell.emit_literal. simpl. destruct (Ascii.eqb c newline); reflexivity.
Qed.

Lemma begin_line_char c input l :
  Ascii.eqb c "|" = false ->
  begin_line (mkVars (String c input) [] l [])
  = Ok (Some state_literal_line, mkVars input [Some c] l []).
Proof.
  intros H. unfold begin_line, getchar. cbn -[emit]. rewrite H. reflexivity.
Qed.

(** Reading text: the characters of [pre], in which no line begins with a
    pipe, go to [literals_buf], and the loop goes on behind them. *)
Lemma loop_text pre :
  forall b buf n yielded rest res,
    no_row_line b pre = true ->
    loop n (text_state (line_start b pre))
      (mkVars rest [] (map Some (buf ++ map str1 (list_ascii_of_string pre))) [])
      yielded = Some res ->
    loop (2 * String.length pre + n) (text_state b)
      (mkVars (pre +:+ rest) [] (map Some buf) []) yielded = Some res.
Proof.
  induction pre as [|c pre IH]; intros b buf n yielded rest res Hno H.
  - simpl in *. rewrite app_nil_r in H. exact H.
  - cbn [no_row_line] in Hno. apply andb_prop in Hno as [Hc Hno].
    cbn [line_start list_ascii_of_string map] in H.
    change (String c pre +:+ rest) with (String c (pre +:+ rest)).
    replace (buf ++ str1 c :: map str1 (list_ascii_of_string pre))
      with ((buf ++ [str1 c]) ++ map str1 (list_ascii_of_string pre)) in H
      by (rewrite <- app_assoc; reflexivity).
    specialize (IH _ _ _ _ _ _ Hno H).
    replace (2 * String.length (String c pre) + n)
      with (S (S (2 * String.length pre + n))) by (simpl; lia).
    destruct b.
    + simpl in Hc. apply negb_true_iff in Hc.
      cbn [text_state]. rewrite loop_S. cbn [call].
      rewrite (begin_line_char _ _ _ Hc). unfold set_tokens.
      cbn [tokens r unget_buf literals_buf].
      rewrite loop_S. cbn [call]. rewrite literal_line_unget.
      unfold set_tokens. cbn [tokens r unget_buf literals_buf].
      rewrite !app_nil_r. exact IH.
    + cbn [text_state]. rewrite loop_S. cbn [call]. rewrite literal_line_char.
      unfold set_tokens. cbn [tokens r unget_buf literals_buf].
      rewrite app_nil_r.
      apply TokenizerCell.loop_mono with (n := 2 * String.length pre + n);
        [exact IH | lia].
Qed.

(** The end of the input after text. *)
Lemma loop_text_eof b buf yielded :
  (b = false -> buf <> []) ->
  loop 3 (text_state b) (mkVars "" [] (map Some buf) []) yielded
  = Some (yielded ++ flushed buf ++ [mkToken EOF None], Done).
Proof.
  intros Hb.
  assert (E : forall l y,
    loop 2 state_begin_line (mkVars "" [] (map Some l) []) y
    = Some (y ++ flushed l ++ [mkToken EOF None], Done)).
  { intros l y. rewrite loop_S. cbn [call]. unfold begin_line, getchar.
    cbn [r unget_buf]. unfold set_tokens. cbn [tokens r unget_buf literals_buf].
    rewrite loop_S. cbn [call]. unfold eof.
    rewrite TokenizerCell.emit_token by discriminate.
    cbn [bind tokens]. rewrite !app_nil_r. reflexivity. }
  destruct b; cbn [text_state].
  - apply TokenizerCell.loop_mono with (n := 2); [apply E | lia].
  - rewrite loop_S. cbn [call]. unfold literal_line, getchar.
    cbn [r unget_buf chr_text]. rewrite TokenizerCell.emit_literal.
    cbn [bind is_eol]. unfold set_tokens.
    cbn [tokens r unget_buf literals_buf]. rewrite app_nil_r, E.
    destruct buf as [|x buf]; [specialize (Hb eq_refl); congruence|].
    unfold flushed. cbn [app concat_strings].
    rewrite concat_strings_snoc, append_nil_r. reflexivity.
Qed.

(** The pipe that begins a row, after text. *)
Lemma loop_row_begin n more buf yielded :
  loop (S n) state_begin_line (mkVars (String "|" more) [] (map Some buf) [])
    yielded
  = loop n state_begin_table_cell (mkVars more [] [] [])
      (yielded ++ flushed buf ++ [row_begin]).
Proof.
  rewrite loop_S. cbn [call]. unfold begin_line, getchar.
  cbn [r unget_buf]. unfold set_r. cbn [r unget_buf literals_buf tokens].
  cbn [Ascii.eqb Bool.eqb chr_text].
  rewrite TokenizerCell.emit_token by discriminate. reflexivity.
Qed.

End TokenizerText.

Lemma flushed_chars s : flushed (map str1 (list_ascii_of_string s)) = text_token s.
Proof.
  destruct s as [|a s]; [reflexivity|].
  unfold flushed, text_token. cbn [list_ascii_of_string map].
  change (str1 a :: map str1 (list_ascii_of_string s))
    with (map str1 (list_ascii_of_string (String a s))).
  rewrite concat_chars. reflexivity.
Qed.

(** The tokens of a text without table rows: one literal with the whole
    text, and the token that ends the stream. *)
Lemma tokenize_text s :
  no_row_line true s = true ->
  tokenize s = Some (text_token s ++ [mkToken EOF None], Done).
Proof.
  intros H. unfold tokenize.
  apply TokenizerCell.loop_mono with (n := 2 * String.length s + 3);
    [|unfold Tokenizer.bound; lia].
  rewrite <- (append_nil_r s) at 2.
  apply (TokenizerText.loop_text s true [] 3 [] ""); [exact H|].
  cbn [app]. rewrite TokenizerText.loop_text_eof, flushed_chars; [reflexivity|].
  destruct s; [discriminate|]. discriminate.
Qed.

(** What [parse] yielded before does not matter to its loop. *)
Lemma parser_loop_yielded n :
  forall v first yielded,
    Parser.loop n (first ++ yielded) v = after first (Parser.loop n yielded v).
Proof.
  induction n as [|n IH]; intros v first yielded; [reflexivity|].
  cbn [Parser.loop]. destruct (Parser.read_token v) as [[[token w]|e]|];
    try reflexivity.
  destruct (type token); try reflexivity.
  - rewrite <- app_assoc. apply IH.
  - destruct (Parser.parse_table n w) as [[[entries w']|e]|]; try reflexivity.
    rewrite <- app_assoc. apply IH.
Qed.

Lemma after_nil {A : Type} (res : option (list A * Ending)) : after [] res = res.
Proof. destruct res as [[l e]|]; reflexivity. Qed.

(** The tokens of text before a table: the literal of the text, and the
    tokens of what follows. *)
Lemma tokenize_text_before_row pre more :
  no_row_line true pre = true ->
  line_start true pre = true ->
  tokenize (pre +:+ String "|" more)
  = after (text_token pre) (tokenize (String "|" more)).
Proof.
  intros Hno Hls.
  destruct (tokenize_total (String "|" more)) as (toks & e & H). rewrite H.
  cbn [after]. unfold tokenize in *.
  apply TokenizerCell.loop_mono
    with (n := 2 * String.length pre + Tokenizer.bound (String "|" more));
    [|unfold Tokenizer.bound; rewrite length_append; lia].
  apply (TokenizerText.loop_text pre true []); [exact Hno|].
  rewrite Hls. cbn [text_state app]. unfold Tokenizer.bound in *.
  replace (3 * String.length (String "|" more) + 4)
    with (S (3 * String.length (String "|" more) + 3)) in * by lia.
  rewrite TokenizerText.loop_row_begin, flushed_chars.
  change (Tokenizer.init (String "|" more))
    with (Tokenizer.mkVars (String "|" more) [] (map Some []) []) in H.
  rewrite TokenizerText.loop_row_begin in H. cbn [app flushed] in H.
  cbn [app]. rewrite TokenizerText.loop_yielded, H. reflexivity.
Qed.

(** X3: a text in which no line begins with a pipe is one literal token
    and is yielded by [parse] as it stands, in one piece; an empty text
    yields nothing. *)
Theorem parse_text_verbatim s :
  no_row_line true s = true ->
  tokenize s = Some (text_token s ++ [mkToken EOF None], Done)
  /\ parse s = Some (text_item s, Done).
Proof.
  intros H. pose proof (tokenize_text s H) as Ht. split; [exact Ht|].
  unfold parse. rewrite Ht. destruct s; reflexivity.
Qed.

Lemma parse_text_verbatim_witness :
  tokenize ("a|b" +:+ nl +:+ nl +:+ " |c")
  = Some (text_token ("a|b" +:+ nl +:+ nl +:+ " |c") ++ [mkToken EOF None],
          Done)
  /\ parse ("a|b" +:+ nl +:+ nl +:+ " |c")
     = Some (text_item ("a|b" +:+ nl +:+ nl +:+ " |c"), Done).
Proof.
  apply (parse_text_verbatim ("a|b" +:+ nl +:+ nl +:+ " |c")).
  vm_compute. reflexivity.
Defined.

(** The items of text before a table, and of what follows. *)
Lemma parse_after_text pre more :
  no_row_line true pre = true ->
  line_start true pre = true ->
  parse (pre +:+ String "|" more)
  = after (text_item pre) (parse (String "|" more)).
Proof.
  intros Hno Hls. unfold parse.
  rewrite (tokenize_text_before_row pre more Hno Hls).
  destruct (tokenize (String "|" more)) as [[toks e]|]; [|reflexivity].
  destruct pre as [|a pre]; [cbn [after text_token text_item app];
                             rewrite after_nil; reflexivity|].
  cbn [after text_token text_item app].
  change (Parser.size (Parser.init (mkToken LITERAL (Some (String a pre)) :: toks) e) + 2)
    with (S (Parser.size (Parser.init toks e) + 2)).
  cbn [Parser.loop Parser.read_token Parser.init Parser.unread_buf
       Parser.tokenizer Parser.tokenizer_end type text].
  apply (parser_loop_yielded _ _ [Text (Some (String a pre))] []).
Qed.

(** X4: text before a table is yielded by [parse] as it stands: when no
    line of [pre] begins with a pipe and [pre] ends with a newline (or is
    empty), the input [pre] followed by a line that begins with a pipe
    gives the literal token and the item of [pre] and then what the rest
    gives alone, with the same end or exception. *)
Theorem parse_text_before_table pre more :
  no_row_line true pre = true ->
  line_start true pre = true ->
  tokenize (pre +:+ String "|" more)
  = after (text_token pre) (tokenize (String "|" more))
  /\ parse (pre +:+ String "|" more)
     = after (text_item pre) (parse (String "|" more)).
Proof.
  intros Hno Hls. split.
  - exact (tokenize_text_before_row pre more Hno Hls).
  - exact (parse_after_text pre more Hno Hls).
Qed.

Lemma parse_text_before_table_witness :
  tokenize (("Timeline" +:+ nl) +:+ String "|" ("a|" +:+ nl))
  = after (text_token ("Timeline" +:+ nl)) (tokenize (String "|" ("a|" +:+ nl)))
  /\ parse (("Timeline" +:+ nl) +:+ String "|" ("a|" +:+ nl))
     = after (text_item ("Timeline" +:+ nl)) (parse (String "|" ("a|" +:+ nl))).
Proof.
  apply (parse_text_before_table ("Timeline" +:+ nl) ("a|" +:+ nl));
    vm_compute; reflexivity.
Defined.

(** ** What the parser keeps, and the exceptions that leave it *)

Lemma step_mid p tok q :
  mid p -> step p tok = Some q ->
  (exists s, text tok = Some s)
  /\ match type tok with
     | TABLE_CELL_END => q = cell_start
     | LITERAL => q = after_literal
     | BACKTICK | OPEN_BRACKET | CLOSE_BRACKET | OPEN_PAREN | CLOSE_PAREN =>
         q = in_cell
     | _ => False
     end.
Proof.
  intros Hp. destruct tok as [ty [s|]]; unfold step; cbn [type text];
    destruct Hp as [-> | ->]; destruct ty; try discriminate;
    repeat match goal with
           | |- (if ?b then _ else _) = _ -> _ => destruct b
           end;
    try discriminate; intros [= <-]; eauto.
Qed.

Lemma step_cell_start tok q :
  step cell_start tok = Some q ->
  (exists s, text tok = Some s)
  /\ match type tok with
     | TABLE_CELL_END => q = cell_start
     | TABLE_ROW_END => q = outside
     | LITERAL => q = after_literal
     | BACKTICK | OPEN_BRACKET | CLOSE_BRACKET | OPEN_PAREN | CLOSE_PAREN =>
         q = in_cell
     | _ => False
     end.
Proof.
  destruct tok as [ty [s|]]; unfold step; cbn [type text];
    destruct ty; try discriminate;
    repeat match goal with
           | |- (if ?b then _ else _) = _ -> _ => destruct b
           end;
    try discriminate; intros [= <-]; eauto.
Qed.

Lemma step_top p tok q :
  p = outside \/ p = after_text -> step p tok = Some q ->
  match type tok with
  | LITERAL =>
      p = outside /\ q = after_text
      /\ exists s, text tok = Some s /\ String.eqb s "" = false
                   /\ no_row_line true s = true
  | TABLE_ROW_BEGIN => q = cell_start
  | EOF => q = finished
  | _ => False
  end.
Proof.
  intros Hp. destruct tok as [ty [s|]]; unfold step; cbn [type text];
    destruct Hp as [-> | ->]; destruct ty; try discriminate;
    try (intros [= <-]; reflexivity);
    try (destruct (String.eqb s "|"); [intros [= <-]; reflexivity | discriminate]).
  destruct (String.eqb s "") eqn:E1; [discriminate|].
  destruct (no_row_line true s) eqn:E2; [|discriminate].
  intros [= <-]. eauto 6.
Qed.

Module ParserKeeps.
Import Parser.

Lemma returns_bindM {A B : Type} (m : M A) (k : A -> M B) v
    (Q : A -> Vars -> Prop) (R : B -> Vars -> Prop) :
  returns (m v) Q ->
  (forall a w, Q a w -> returns (k a w) R) ->
  returns (bindM m k v) R.
Proof.
  unfold bindM. destruct (m v) as [[[a w]|e]|]; simpl; auto.
Qed.

Lemma returns_weaken {A : Type} (res : option (Result (A * Vars)))
    (Q R : A -> Vars -> Prop) :
  returns res Q -> (forall a w, Q a w -> R a w) -> returns res R.
Proof. destruct res as [[[a w]|e]|]; simpl; auto. Qed.

Lemma returns_lift {A : Type} (res : Result A) v (Q : A -> Vars -> Prop) :
  (forall e, res = Raise e -> parse_error e = true) ->
  (forall a, res = Ok a -> Q a v) ->
  returns (lift res v) Q.
Proof. destruct res; simpl; auto. Qed.

(** Reading a token before the end of the stream: the token fits the
    place, and an exception is the tokenizer's [ValueError]. *)
Lemma returns_read p v :
  stream_from p v -> p <> finished ->
  returns (read_token v)
    (fun tok v' => stream v = tok :: stream v'
                   /\ exists q, step p tok = Some q /\ stream_from q v').
Proof.
  intros (q & Hrun & Hend) Hp. unfold read_token, stream_from, stream in *.
  destruct v as [u t e]; cbn [unread_buf tokenizer tokenizer_end] in *.
  destruct u as [|tok u]; [destruct t as [|tok t]|]; cbn [app] in *.
  - simpl in Hrun. injection Hrun as <-.
    destruct e as [|e]; [congruence|]. destruct Hend as [-> _]. reflexivity.
  - cbn [returns run] in *. split; [reflexivity|].
    destruct (step p tok) as [q'|]; [|discriminate]. eauto.
  - cbn [returns run] in *. split; [reflexivity|].
    destruct (step p tok) as [q'|]; [|discriminate]. eauto.
Qed.

Lemma returns_unread p q tok v :
  step p tok = Some q -> stream_from q v ->
  returns (unread_token tok v)
    (fun _ v' => stream_from p v' /\ stream v' = tok :: stream v).
Proof.
  intros Hstep (q' & Hrun & Hend). unfold unread_token, returns.
  split; [|reflexivity]. exists q'. unfold stream in *.
  cbn [unread_buf tokenizer tokenizer_end app run]. rewrite Hstep. auto.
Qed.

Lemma mid_not_finished p : mid p -> p <> finished.
Proof. intros [-> | ->]; discriminate. Qed.

Lemma join_texts l : join (map Some l) = Ok (concat_strings l).
Proof. apply TokenizerCell.join_Some. Qed.

Lemma parse_code_keeps n :
  forall l v p,
    mid p -> stream_from p v ->
    returns (parse_code n (map Some l) v)
      (fun node v' => texts_present node = true /\ stream_from in_cell v').
Proof.
  induction n as [|n IH]; intros l v p Hp Hv; [exact I|].
  cbn [parse_code].
  eapply returns_bindM; [apply (returns_read p v Hv (mid_not_finished p Hp))|].
  intros tok w (_ & q & Hstep & Hw). cbv beta.
  apply step_mid in Hstep as [[s Hs] Hq]; [|exact Hp].
  assert (Hnext : mid q -> returns (parse_code n (map Some l ++ [text tok]) w)
            (fun node v' => texts_present node = true /\ stream_from in_cell v')).
  { intros Hq'. rewrite Hs. change [Some s] with (map Some [s]).
    rewrite <- map_app. apply (IH _ _ q Hq' Hw). }
  destruct (type tok); try exact eq_refl; try contradiction;
    try (apply Hnext; subst q; unfold mid; auto).
  subst q. rewrite join_texts. simpl. auto.
Qed.

Lemma parse_link_href_keeps n :
  forall label l v p,
    forallb texts_present label = true ->
    mid p -> stream_from p v ->
    returns (parse_link_href n label (map Some l) v)
      (fun node v' => texts_present node = true /\ stream_from in_cell v').
Proof.
  induction n as [|n IH]; intros label l v p Hl Hp Hv; [exact I|].
  cbn [parse_link_href].
  eapply returns_bindM; [apply (returns_read p v Hv (mid_not_finished p Hp))|].
  intros tok w (_ & q & Hstep & Hw). cbv beta.
  apply step_mid in Hstep as [[s Hs] Hq]; [|exact Hp].
  assert (Hnext : mid q ->
            returns (parse_link_href n label (map Some l ++ [text tok]) w)
            (fun node v' => texts_present node = true /\ stream_from in_cell v')).
  { intros Hq'. rewrite Hs. change [Some s] with (map Some [s]).
    rewrite <- map_app. apply (IH _ _ _ q Hl Hq' Hw). }
  destruct (type tok); try exact eq_refl; try contradiction;
    try (apply Hnext; subst q; unfold mid; auto).
  subst q. rewrite join_texts. simpl. auto.
Qed.

Lemma parse_link_tail_keeps n label v p :
  forallb texts_present label = true ->
  mid p -> stream_from p v ->
  returns (parse_link_tail n label v)
    (fun node v' => texts_present node = true /\ stream_from in_cell v').
Proof.
  intros Hl Hp Hv. unfold parse_link_tail.
  eapply returns_bindM; [apply (returns_read p v Hv (mid_not_finished p Hp))|].
  intros tok w (_ & q & Hstep & Hw). cbv beta.
  pose proof (returns_unread p q tok w Hstep Hw) as Hu.
  apply step_mid in Hstep as [[s Hs] Hq]; [|exact Hp].
  destruct (type tok); try contradiction;
    try (eapply returns_bindM; [exact Hu|]; intros; exact eq_refl).
  subst q. apply (parse_link_href_keeps n label [] w in_cell Hl); unfold mid; auto.
Qed.

Lemma parse_link_keeps n :
  forall label v p,
    forallb texts_present label = true ->
    mid p -> stream_from p v ->
    returns (parse_link n label v)
      (fun node v' => texts_present node = true
                      /\ exists q, mid q /\ stream_from q v').
Proof.
  induction n as [|n IH]; intros label v p Hl Hp Hv; [exact I|].
  cbn [parse_link].
  eapply returns_bindM; [apply (returns_read p v Hv (mid_not_finished p Hp))|].
  intros tok w (_ & q & Hstep & Hw). cbv beta.
  pose proof (returns_unread p q tok w Hstep Hw) as Hu.
  apply step_mid in Hstep as [[s Hs] Hq]; [|exact Hp].
  assert (Hnext : forall x w' q',
            texts_present x = true -> mid q' -> stream_from q' w' ->
            returns (parse_link n (label ++ [x]) w')
              (fun node v' => texts_present node = true
                              /\ exists q, mid q /\ stream_from q v')).
  { intros x w' q' Hx Hq' Hw'. apply (IH _ _ q'); [|exact Hq' | exact Hw'].
    rewrite forallb_app, Hl. simpl. rewrite Hx. reflexivity. }
  destruct (type tok); try exact eq_refl; try contradiction; subst q.
  - (* LITERAL *)
    apply (Hnext _ _ after_literal); [rewrite Hs; reflexivity | right; auto | exact Hw].
  - (* BACKTICK *)
    eapply returns_bindM;
      [apply (parse_code_keeps n [] w in_cell); [left; auto | exact Hw]|].
    intros code w' [Hcode Hw']. apply (Hnext _ _ in_cell); [exact Hcode | left; auto | exact Hw'].
  - (* OPEN_BRACKET *)
    eapply returns_bindM; [exact Hu|]. intros _ w' [Hw' _]. simpl.
    split; [exact Hl|]. exists p. auto.
  - (* CLOSE_BRACKET *)
    eapply returns_weaken ;
      [apply (parse_link_tail_keeps n label w in_cell Hl); [left; auto | exact Hw]|].
    intros node w' [Hnode Hw']. split; [exact Hnode|]. exists in_cell. split; [left; auto | exact Hw'].
  - apply (Hnext _ _ in_cell); [rewrite Hs; reflexivity | left; auto | exact Hw].
  - apply (Hnext _ _ in_cell); [rewrite Hs; reflexivity | left; auto | exact Hw].
Qed.

Lemma parse_table_cell_keeps n :
  forall children v p,
    forallb texts_present children = true ->
    cell_ready p v -> stream_from p v ->
    returns (parse_table_cell n children v)
      (fun node v' => cell_tree node = true /\ stream_from cell_start v').
Proof.
  induction n as [|n IH]; intros children v p Hc Hp Hv; [exact I|].
  cbn [parse_table_cell].
  assert (Hnf : p <> finished).
  { destruct Hp as [Hp|[-> _]]; [apply mid_not_finished, Hp | discriminate]. }
  eapply returns_bindM; [apply (returns_read p v Hv Hnf)|].
  intros tok w (Hhead & q & Hstep & Hw). cbv beta.
  assert (Hq : (exists s, text tok = Some s)
               /\ match type tok with
                  | TABLE_CELL_END => q = cell_start
                  | LITERAL => q = after_literal
                  | BACKTICK | OPEN_BRACKET | CLOSE_BRACKET | OPEN_PAREN
                  | CLOSE_PAREN => q = in_cell
                  | _ => False
                  end).
  { destruct Hp as [Hp|[-> Hp]]; [exact (step_mid p tok q Hp Hstep)|].
    pose proof (step_cell_start tok q Hstep) as [Hs Hq]. split; [exact Hs|].
    specialize (Hp tok _ Hhead). destruct (type tok); auto; congruence. }
  destruct Hq as [[s Hs] Hq].
  assert (Hnext : forall x w' q',
            texts_present x = true -> mid q' -> stream_from q' w' ->
            returns (parse_table_cell n (children ++ [x]) w')
              (fun node v' => cell_tree node = true
                              /\ stream_from cell_start v')).
  { intros x w' q' Hx Hq' Hw'. apply (IH _ _ q'); [|left; exact Hq' | exact Hw'].
    rewrite forallb_app, Hc. simpl. rewrite Hx. reflexivity. }
  destruct (type tok); try contradiction; subst q.
  - apply (Hnext _ _ after_literal); [rewrite Hs; reflexivity | right; auto | exact Hw].
  - simpl. auto.
  - eapply returns_bindM;
      [apply (parse_code_keeps n [] w in_cell); [left; auto | exact Hw]|].
    intros code w' [Hcode Hw'].
    apply (Hnext _ _ in_cell); [exact Hcode | left; auto | exact Hw'].
  - eapply returns_bindM;
      [apply (parse_link_keeps n [] w in_cell); [reflexivity | left; auto | exact Hw]|].
    intros link w' (Hlink & q' & Hq' & Hw').
    apply (Hnext _ _ q'); assumption.
  - apply (Hnext _ _ in_cell); [rewrite Hs; reflexivity | left; auto | exact Hw].
  - apply (Hnext _ _ in_cell); [rewrite Hs; reflexivity | left; auto | exact Hw].
  - apply (Hnext _ _ in_cell); [rewrite Hs; reflexivity | left; auto | exact Hw].
Qed.

Lemma parse_table_row_keeps n :
  forall row v,
    forallb cell_tree row = true ->
    stream_from cell_start v ->
    returns (parse_table_row n row v)
      (fun row' v' => forallb cell_tree row' = true /\ stream_from outside v').
Proof.
  induction n as [|n IH]; intros row v Hrow Hv; [exact I|].
  cbn [parse_table_row].
  eapply returns_bindM;
    [apply (returns_read cell_start v Hv ltac:(discriminate))|].
  intros tok w (_ & q & Hstep & Hw). cbv beta.
  pose proof (returns_unread cell_start q tok w Hstep Hw) as Hu.
  assert (Hcell : type tok <> TABLE_ROW_END ->
    returns
      (bindM (unread_token tok)
         (fun _ => bindM (parse_table_cell n [])
                     (fun cell => parse_table_row n (row ++ [cell]))) w)
      (fun row' v' => forallb cell_tree row' = true /\ stream_from outside v')).
  { intros Hty. eapply returns_bindM; [exact Hu|]. intros _ w1 [Hw1 Hs1].
    eapply returns_bindM.
    - apply (parse_table_cell_keeps n [] w1 cell_start eq_refl); [|exact Hw1].
      right. split; [reflexivity|]. intros tok' rest' E. rewrite Hs1 in E.
      injection E as <- _. exact Hty.
    - intros cell w2 [Hcell Hw2]. apply IH; [|exact Hw2].
      rewrite forallb_app, Hrow. simpl. rewrite Hcell. reflexivity. }
  apply step_cell_start in Hstep as [_ Hq].
  destruct (type tok); try (apply Hcell; discriminate).
  subst q. simpl. auto.
Qed.

End ParserKeeps.

(** *** The exceptions of [Entry] *)

Lemma mapM_raises {A B : Type} (f : A -> Result B) (P : exn -> Prop) xs e :
  Forall (fun x => forall e', f x = Raise e' -> P e') xs ->
  mapM f xs = Raise e -> P e.
Proof.
  induction xs as [|x xs IH]; intros H; [discriminate|].
  apply Forall_cons in H as [Hx Hxs]. cbn [mapM].
  destruct (f x) as [y|e'] eqn:E; simpl.
  - destruct (mapM f xs) as [ys|e'']; simpl; [discriminate|].
    intros [= <-]. apply IH; [exact Hxs | reflexivity].
  - intros [= <-]. apply Hx. reflexivity.
Qed.

Lemma mapM_to_text children :
  Forall (fun n => texts_present n = true ->
                   (exists s, to_text n = Ok (Some s))
                   \/ to_text n = Raise ValueError) children ->
  forallb texts_present children = true ->
  (exists l, mapM to_text children = Ok (map Some l))
  \/ mapM to_text children = Raise ValueError.
Proof.
  induction children as [|x children IH]; intros H Hp.
  - left. exists []. reflexivity.
  - apply Forall_cons in H as [Hx Hxs]. cbn [forallb] in Hp.
    apply andb_prop in Hp as [Hpx Hps]. cbn [mapM].
    destruct (Hx Hpx) as [[s ->]| ->]; [|right; reflexivity].
    destruct (IH Hxs Hps) as [[l ->]| ->]; [|right; reflexivity].
    left. exists (s :: l). reflexivity.
Qed.

(** [to_text] on a tree whose literals have texts: the text, or the
    [ValueError] of a code span or a link. *)
Lemma to_text_present node :
  texts_present node = true ->
  (exists s, to_text node = Ok (Some s)) \/ to_text node = Raise ValueError.
Proof.
  induction node as [children IH|[s|]|s|label href IH] using Node_ind';
    cbn [texts_present to_text]; intros H; try discriminate; eauto.
  destruct (mapM_to_text children IH H) as [[l ->]| ->]; [|right; reflexivity].
  left. simpl. rewrite TokenizerCell.join_Some. simpl. eauto.
Qed.

Lemma to_text_cell node :
  cell_tree node = true ->
  (exists s, to_text node = Ok (Some s)) \/ to_text node = Raise ValueError.
Proof.
  intros H. apply to_text_present. destruct node; try discriminate. exact H.
Qed.

Lemma for_fmt_raises fmts s e : for_fmt fmts s = Raise e -> e = ValueError.
Proof.
  induction fmts as [|fmt fmts IH]; cbn [for_fmt].
  - destruct (strptime s fmt_date) as [d|e'] eqn:E; simpl; [discriminate|].
    intros [= <-]. exact (strptime_raises _ _ _ E).
  - destruct (strptime s fmt) as [d|e'] eqn:E; [discriminate|].
    apply strptime_raises in E. subst e'. exact IH.
Qed.

Lemma parse_datetime_raises s e :
  parse_datetime (Some s) = Raise e -> e = ValueError.
Proof.
  unfold parse_datetime.
  destruct (String.eqb s "" || String.eqb s "ongoing"); [discriminate|].
  destruct (for_fmt _ _) as [d|e'] eqn:E; simpl; [discriminate|].
  intros [= <-]. exact (for_fmt_raises _ _ _ E).
Qed.

Lemma extract_links_raises node e :
  texts_present node = true -> extract_links node = Raise e -> e = ValueError.
Proof.
  revert e.
  induction node as [children IH|[s|]|s|label href IH] using Node_ind';
    intros e; cbn [texts_present extract_links]; intros Hp H;
    try discriminate; try congruence.
  - destruct (mapM extract_links children) as [found|e'] eqn:E; simpl in H;
      [discriminate|].
    injection H as <-.
    assert (Hall : Forall (fun x => forall e', extract_links x = Raise e' ->
                                               e' = ValueError) children).
    { clear E. induction children as [|x children IHc]; [constructor|].
      apply Forall_cons in IH as [Hx Hxs]. cbn [forallb] in Hp.
      apply andb_prop in Hp as [Hpx Hps]. constructor; auto. }
    exact (mapM_raises extract_links (fun e => e = ValueError) children e'
             Hall E).
  - destruct (String.eqb (strip s) ""); congruence.
Qed.

(** [Entry] raises nothing but [ValueError] on the cells of a row. *)
Lemma Entry_init_raises row e :
  forallb cell_tree row = true -> Entry_init row = Raise e -> e = ValueError.
Proof.
  intros Hrow. unfold Entry_init.
  destruct row as [|c1 [|c2 [|c3 [|c4 [|c5 [|c6 [|c7 [|c8 row]]]]]]]];
    try congruence.
  cbn [forallb] in Hrow.
  repeat match type of Hrow with
         | _ && _ = true => let H := fresh "Hc" in apply andb_prop in Hrow as [H Hrow]
         end.
  assert (Hl : texts_present c6 = true) by (destruct c6; try discriminate; assumption).
  destruct (to_text_cell c1 Hc) as [[s1 ->]| ->]; cbn [bind split_set]; [|congruence].
  destruct (parse_datetime (Some s1)) as [d1|e1] eqn:E1; cbn [bind split_set];
    [|intros [= <-]; exact (parse_datetime_raises _ _ E1)].
  destruct (to_text_cell c2 Hc0) as [[s2 ->]| ->]; cbn [bind split_set]; [|congruence].
  destruct (parse_datetime (Some s2)) as [d2|e2] eqn:E2; cbn [bind split_set];
    [|intros [= <-]; exact (parse_datetime_raises _ _ E2)].
  destruct (to_text_cell c3 Hc1) as [[s3 ->]| ->]; cbn [bind split_set]; [|congruence].
  destruct (to_text_cell c4 Hc2) as [[s4 ->]| ->]; cbn [bind split_set]; [|congruence].
  destruct (extract_links c6) as [ls|e6] eqn:E6; cbn [bind split_set];
    [|intros [= <-]; exact (extract_links_raises _ _ Hl E6)].
  destruct (to_text_cell c7 Hc5) as [[s7 ->]| ->]; cbn [bind split_set]; congruence.
Qed.

Lemma stripped_texts_raises row e :
  forallb cell_tree row = true ->
  Parser.stripped_texts row = Raise e -> e = ValueError.
Proof.
  intros Hrow. unfold Parser.stripped_texts.
  apply (mapM_raises _ (fun e => e = ValueError)).
  apply List.Forall_forall. intros c Hin e'.
  rewrite forallb_forall in Hrow.
  destruct (to_text_cell c (Hrow c Hin)) as [[s ->]| ->]; simpl; congruence.
Qed.

Lemma to_markdown_present node :
  texts_present node = true -> exists m, to_markdown node = Ok m.
Proof.
  induction node as [children IH|[s|]|s|label href IH] using Node_ind';
    cbn [texts_present to_markdown]; intros H; try discriminate; eauto.
  - assert (E : exists parts, mapM to_markdown children = Ok parts).
    { induction children as [|x children IHc]; [exists []; reflexivity|].
      apply Forall_cons in IH as [Hx Hxs]. cbn [forallb] in H.
      apply andb_prop in H as [Hpx Hps]. cbn [mapM].
      destruct (Hx Hpx) as [m ->]. destruct (IHc Hxs Hps) as [parts ->].
      simpl. eauto. }
    destruct E as [parts ->]. simpl. eauto.
  - destruct (IH H) as [m ->]. simpl. eauto.
Qed.

Lemma mapM_to_markdown l :
  forallb texts_present l = true -> exists parts, mapM to_markdown l = Ok parts.
Proof.
  induction l as [|x l IH]; [exists []; reflexivity|].
  cbn [forallb mapM]. intros H. apply andb_prop in H as [Hx Hl].
  destruct (to_markdown_present x Hx) as [m ->]. destruct (IH Hl) as [parts ->].
  simpl. eauto.
Qed.

(** The links that [extract_links] returns are nodes of the tree. *)
Lemma extract_links_present node ls :
  texts_present node = true -> extract_links node = Ok ls ->
  forallb texts_present ls = true.
Proof.
  revert ls.
  induction node as [children IH|[s|]|s|label href IH] using Node_ind';
    intros ls; cbn [texts_present extract_links]; intros Hp H;
    try discriminate.
  - apply bind_Ok in H as (found & E & H). injection H as <-.
    revert found E. induction children as [|x children IHc]; intros found E.
    + injection E as <-. reflexivity.
    + apply Forall_cons in IH as [Hx Hxs]. cbn [forallb] in Hp.
      apply andb_prop in Hp as [Hpx Hps]. cbn [mapM] in E.
      apply bind_Ok in E as (y & Ey & E). apply bind_Ok in E as (ys & Eys & E).
      injection E as <-. cbn [concat]. rewrite forallb_app.
      rewrite (Hx y Hpx Ey), (IHc Hxs Hps ys Eys). reflexivity.
  - destruct (String.eqb (strip s) ""); [|discriminate].
    injection H as <-. reflexivity.
  - injection H as <-. cbn [forallb texts_present]. rewrite Hp. reflexivity.
Qed.

(** The trees of an entry made from the cells of a row have texts. *)
Lemma Entry_init_texts row entry :
  forallb cell_tree row = true -> Entry_init row = Ok entry ->
  entry_texts entry = true.
Proof.
  intros Hrow H.
  apply Entry_init_Ok in H
    as (c1 & c2 & c3 & c4 & c5 & c6 & c7 & t1 & t2 & t3 & t4 & t7 & -> & H).
  destruct H as (_ & _ & _ & _ & _ & _ & _ & _ & _ & Hd & Hl & _).
  cbn [forallb] in Hrow.
  repeat match type of Hrow with
         | _ && _ = true =>
             let H := fresh "Hc" in apply andb_prop in Hrow as [H Hrow]
         end.
  unfold entry_texts. rewrite Hd.
  assert (H5 : texts_present c5 = true)
    by (destruct c5; try discriminate; assumption).
  assert (H6 : texts_present c6 = true)
    by (destruct c6; try discriminate; assumption).
  rewrite H5, (extract_links_present c6 _ H6 Hl). reflexivity.
Qed.

(** *** Tables and the loop of [parse] *)

Module ParserTable.
Import Parser ParserKeeps.

Lemma ValueError_is_parse_error e : e = ValueError -> parse_error e = true.
Proof. intros ->. reflexivity. Qed.

Lemma assert_raises b e : assert b = Raise e -> parse_error e = true.
Proof. destruct b; [discriminate | intros [= <-]; reflexivity]. Qed.

Lemma parse_table_entries_keeps n :
  forall entries v,
    forallb entry_texts entries = true ->
    stream_from outside v ->
    returns (parse_table_entries n entries v)
      (fun entries' v' => forallb entry_texts entries' = true
                          /\ stream_from outside v').
Proof.
  induction n as [|n IH]; intros entries v He Hv; [exact I|].
  cbn [parse_table_entries].
  eapply returns_bindM; [apply (returns_read outside v Hv ltac:(discriminate))|].
  intros tok w (_ & q & Hstep & Hw). cbv beta.
  pose proof (returns_unread outside q tok w Hstep Hw) as Hu.
  apply step_top in Hstep; [|left; reflexivity].
  destruct (type tok);
    try (eapply returns_bindM; [exact Hu|]; intros _ w1 [Hw1 _];
         split; [exact He | exact Hw1]).
  subst q.
  eapply returns_bindM; [apply (parse_table_row_keeps n [] w eq_refl Hw)|].
  intros row w1 [Hrow Hw1].
  eapply returns_bindM.
  - apply returns_lift
      with (Q := fun entry v' => entry_texts entry = true
                                 /\ stream_from outside v').
    + intros e E. apply ValueError_is_parse_error.
      exact (Entry_init_raises row e Hrow E).
    + intros entry E. split; [exact (Entry_init_texts row entry Hrow E) | exact Hw1].
  - intros entry w2 [Hentry Hw2]. apply IH; [|exact Hw2].
    rewrite forallb_app, He. simpl. rewrite Hentry. reflexivity.
Qed.

Lemma parse_table_keeps n v :
  stream_from cell_start v ->
  returns (parse_table n v)
    (fun entries v' => forallb entry_texts entries = true
                       /\ stream_from outside v').
Proof.
  intros Hv. unfold parse_table, parse_table_header, parse_table_separator.
  eapply returns_bindM with (Q := fun _ v' => stream_from outside v').
  { eapply returns_bindM; [apply (parse_table_row_keeps n [] v eq_refl Hv)|].
    intros row w [Hrow Hw].
    eapply returns_bindM with (Q := fun _ v' => stream_from outside v').
    - apply returns_lift; [|intros _ _; exact Hw].
      intros e E. apply ValueError_is_parse_error.
      exact (stripped_texts_raises row e Hrow E).
    - intros names w1 Hw1. apply returns_lift; [|intros _ _; exact Hw1].
      intros e. apply assert_raises. }
  intros _ w Hw.
  eapply returns_bindM with (Q := fun _ v' => stream_from outside v');
    [|intros _ w1 Hw1; apply parse_table_entries_keeps; [reflexivity | exact Hw1]].
  eapply returns_bindM; [apply (returns_read outside w Hw ltac:(discriminate))|].
  intros tok w1 (_ & q & Hstep & Hw1). cbv beta.
  apply step_top in Hstep; [|left; reflexivity].
  destruct (type tok); try exact eq_refl. subst q.
  eapply returns_bindM with (Q := fun _ v' => stream_from cell_start v');
    [apply returns_lift; [discriminate | intros _ _; exact Hw1]|].
  intros _ w1' Hw1'.
  eapply returns_bindM; [apply (parse_table_row_keeps n [] w1' eq_refl Hw1')|].
  intros row w2 [Hrow Hw2].
  eapply returns_bindM with (Q := fun _ v' => stream_from outside v').
  - apply returns_lift; [|intros _ _; exact Hw2].
    intros e E. apply ValueError_is_parse_error.
    exact (stripped_texts_raises row e Hrow E).
  - intros names w3 Hw3. apply returns_lift; [|intros _ _; exact Hw3].
    intros e. apply assert_raises.
Qed.

Lemma leaving_parse_error e : parse_error e = true -> leaving e = Raised e.
Proof. destruct e; try discriminate; reflexivity. Qed.

(** The loop of [parse] on a stream of the tokenizer: what it yields
    more, and how it ends. *)
Lemma loop_keeps n :
  forall yielded v p items e,
    p = outside \/ p = after_text ->
    stream_from p v ->
    loop n yielded v = Some (items, e) ->
    exists more,
      items = yielded ++ more
      /\ texts_apart (match p with after_text => true | _ => false end) more
         = true
      /\ forallb item_texts more = true
      /\ match e with
         | Done => True
         | Raised x => parse_error x = true
         end.
Proof.
  induction n as [|n IH]; intros yielded v p items e Hp Hv H; [discriminate|].
  cbn [loop] in H.
  assert (Hnf : p <> finished) by (destruct Hp as [-> | ->]; discriminate).
  pose proof (returns_read p v Hv Hnf) as Hr.
  destruct (read_token v) as [[[tok w]|x]|]; [| |discriminate].
  - destruct Hr as (_ & q & Hstep & Hw).
    apply step_top in Hstep; [|exact Hp].
    destruct (type tok); try contradiction.
    + (* LITERAL *)
      destruct Hstep as (-> & -> & s & Hs & Hne & Hno).
      destruct (IH _ _ after_text _ _ ltac:(auto) Hw H)
        as (more & -> & Hm & Hi & He).
      exists (Text (text tok) :: more). rewrite <- app_assoc.
      split; [reflexivity|]. rewrite Hs. cbn [texts_apart forallb item_texts].
      rewrite Hne, Hno, Hm, Hi. auto.
    + (* TABLE_ROW_BEGIN *)
      subst q. pose proof (parse_table_keeps n w Hw) as Ht.
      destruct (parse_table n w) as [[[entries w']|x]|]; [| |discriminate].
      * destruct Ht as [Hen Ht].
        destruct (IH _ _ outside _ _ ltac:(auto) Ht H)
          as (more & -> & Hm & Hi & He).
        exists (Table entries :: more). rewrite <- app_assoc.
        split; [reflexivity|]. cbn [texts_apart forallb item_texts].
        rewrite Hen, Hi. auto.
      * simpl in Ht. rewrite (leaving_parse_error x Ht) in H.
        injection H as <- <-. exists []. rewrite app_nil_r. auto.
    + (* EOF *)
      injection H as <- <-. exists []. rewrite app_nil_r. auto.
  - simpl in Hr. rewrite (leaving_parse_error x Hr) in H.
    injection H as <- <-. exists []. rewrite app_nil_r. auto.
Qed.

End ParserTable.

(** The parser starts on a stream of the tokenizer. *)
Lemma init_stream input toks e :
  tokenize input = Some (toks, e) ->
  stream_from outside (Parser.init toks e).
Proof.
  intros H.
  pose proof (TokenizerShape.loop_shape _ _ _ _ _ _
                (TokenizerShape.init_shape input) H) as Hs.
  unfold stream_from, stream, Parser.init.
  cbn [Parser.unread_buf Parser.tokenizer Parser.tokenizer_end app].
  destruct e as [|x].
  - exists finished. auto.
  - destruct Hs as [-> [Hs|Hs]]; eauto.
Qed.

Lemma parse_keeps input items e :
  parse input = Some (items, e) ->
  texts_apart false items = true
  /\ forallb item_texts items = true
  /\ match e with
     | Done => True
     | Raised x => parse_error x = true
     end.
Proof.
  unfold parse. destruct (tokenize input) as [[toks e0]|] eqn:Ht; [|discriminate].
  intros H.
  destruct (ParserTable.loop_keeps _ _ _ outside _ _ ltac:(auto)
              (init_stream input toks e0 Ht) H) as (more & -> & Hm & Hi & He).
  auto.
Qed.

(** X5: the only exceptions that leave [parse] are [ValueError],
    [AssertionError] and [NameError]: it never ends with a [TypeError] or
    an [AttributeError] for a missing text, and never reads past the end
    of the token stream (no [StopIteration], which would leave the
    generator as a [RuntimeError]). *)
Theorem parse_raises input items e :
  parse input = Some (items, Raised e) ->
  e = ValueError \/ e = AssertionError \/ e = NameError.
Proof.
  intros H. apply parse_keeps in H as (_ & _ & He).
  destruct e; try discriminate; auto.
Qed.

Lemma parse_raises_witness :
  NameError = ValueError \/ NameError = AssertionError \/ NameError = NameError.
Proof.
  apply (parse_raises
           ("intro" +:+ nl +:+ header_rows
            +:+ "|2020-01-01|ongoing|US|tor|see [this] one|||" +:+ nl)
           [Text (Some ("intro" +:+ nl))]).
  vm_compute. reflexivity.
Defined.

(** X6: the items that [parse] yields, also before an exception: every
    text item is a string that is not empty and in which no line begins
    with a pipe, and no two text items follow each other, so that the text
    between two tables is one item. *)
Theorem parse_texts_apart input items e :
  parse input = Some (items, e) -> texts_apart false items = true.
Proof.
  intros H. apply parse_keeps in H as (Hm & _). exact Hm.
Qed.

Lemma parse_texts_apart_witness :
  texts_apart false
    [Text (Some ("intro" +:+ nl +:+ "more" +:+ nl)); Table [];
     Text (Some "end")] = true.
Proof.
  apply (parse_texts_apart
           ("intro" +:+ nl +:+ "more" +:+ nl +:+ header_rows +:+ "end") _ Done).
  vm_compute. reflexivity.
Defined.

(** ** md2csv: the rows written *)

Lemma entry_to_row_texts entry :
  entry_texts entry = true -> exists row, entry_to_row entry = Ok row.
Proof.
  unfold entry_texts, entry_to_row. intros H. apply andb_prop in H as [Hd Hl].
  destruct (to_markdown_present _ Hd) as [m ->].
  destruct (mapM_to_markdown _ Hl) as [parts ->]. simpl. eauto.
Qed.

Lemma write_rows_texts entries :
  forall written,
    forallb entry_texts entries = true ->
    exists rows,
      mapM entry_to_row entries = Ok rows
      /\ write_rows entries written = (written ++ rows, Done).
Proof.
  induction entries as [|entry entries IH]; intros written H.
  - exists []. rewrite app_nil_r. auto.
  - cbn [forallb] in H. apply andb_prop in H as [He Hes].
    destruct (entry_to_row_texts entry He) as [row Hrow].
    destruct (IH (written ++ [row]) Hes) as (rows & Hrows & Hw).
    exists (row :: rows). cbn [mapM write_rows]. rewrite Hrow, Hrows, Hw.
    rewrite <- app_assoc. auto.
Qed.

Lemma mapM_app_Ok {A B : Type} (f : A -> Result B) l1 l2 r1 r2 :
  mapM f l1 = Ok r1 -> mapM f l2 = Ok r2 -> mapM f (l1 ++ l2) = Ok (r1 ++ r2).
Proof.
  revert r1. induction l1 as [|x l1 IH]; intros r1; simpl.
  - intros [= <-]. trivial.
  - destruct (f x) as [y|]; simpl; [|discriminate].
    destruct (mapM f l1) as [ys|]; simpl; [|discriminate].
    intros [= <-] H2. rewrite (IH ys eq_refl H2). reflexivity.
Qed.

Lemma process_items_texts items :
  forall written,
    forallb item_texts items = true ->
    exists rows,
      mapM entry_to_row (entries_of items) = Ok rows
      /\ process_items items written = (written ++ rows, Done).
Proof.
  induction items as [|item items IH]; intros written H.
  - exists []. rewrite app_nil_r. auto.
  - cbn [forallb] in H. apply andb_prop in H as [Hi His].
    destruct item as [[s|]|entries]; try discriminate.
    + exact (IH written His).
    + cbn [item_texts] in Hi.
      destruct (write_rows_texts entries written Hi) as (rows1 & Hr1 & Hw1).
      destruct (IH (written ++ rows1) His) as (rows2 & Hr2 & Hw2).
      exists (rows1 ++ rows2). cbn [process_items entries_of flat_map].
      rewrite Hw1, Hw2, <- app_assoc. split; [|reflexivity].
      apply mapM_app_Ok; assumption.
Qed.

(** X7: [process] writes one row for each entry of each table that
    [parse] yields, in the order of the entries, and nothing for the text
    between tables; formatting an entry never raises, so [process] ends as
    [parse] ends: it returns, or the exception of [parse] leaves it after
    the rows of the tables yielded before. *)
Theorem process_writes_every_entry input :
  exists items e rows,
    parse input = Some (items, e)
    /\ mapM entry_to_row (entries_of items) = Ok rows
    /\ process input = Some (rows, e).
Proof.
  destruct (parse_total input) as (items & e & Hp).
  destruct (parse_keeps input items e Hp) as (_ & Hi & _).
  destruct (process_items_texts items [] Hi) as (rows & Hr & Hw).
  exists items, e, rows. unfold process. rewrite Hp, Hw. auto.
Qed.

(** ** md2csv: dates *)

Lemma append_cons a s t : String a s +:+ t = String a (s +:+ t).
Proof. reflexivity. Qed.

Lemma consumed_2 a b rest :
  consumed (String a (String b rest)) rest = String a (String b "").
Proof.
  unfold consumed. cbn [String.length].
  replace (S (S (String.length rest)) - String.length rest) with 2 by lia.
  destruct rest; reflexivity.
Qed.

Lemma consumed_4 a b c d rest :
  consumed (String a (String b (String c (String d rest)))) rest
  = String a (String b (String c (String d ""))).
Proof.
  unfold consumed. cbn [String.length].
  replace (S (S (S (S (String.length rest)))) - String.length rest) with 4
    by lia.
  destruct rest; reflexivity.
Qed.

Lemma pattern_cons {A : Type} i fmt s g (k : string -> groups -> option A) :
  rmatch (pattern (i :: fmt)) s g k
  = rmatch (item_re i) s g (fun s' g' => rmatch (pattern fmt) s' g' k).
Proof. reflexivity. Qed.

(** A property of the numbers from [lo] on, [len] of them, checked one by
    one. *)
Lemma N_cases (P : N -> Prop) lo len :
  Forall P (map N.of_nat (seq lo len)) ->
  forall n, (N.of_nat lo <= n < N.of_nat (lo + len))%N -> P n.
Proof.
  intros H n Hn. rewrite List.Forall_forall in H. apply H.
  apply in_map_iff. exists (N.to_nat n). split; [lia|].
  apply in_seq. lia.
Qed.

Ltac norm_str :=
  repeat match goal with
         | |- context [String ?a ?s +:+ ?t] =>
             change (String a s +:+ t) with (String a (s +:+ t))
         | |- context [EmptyString +:+ ?t] => change (EmptyString +:+ t) with t
         end.

(** The pattern of a directive matches the two digits that [strftime]
    writes, when what follows matches. *)
Ltac two_digits_case :=
  let rest := fresh "rest" in
  let g := fresh "g" in
  let k := fresh "k" in
  let r := fresh "r" in
  let Hk := fresh "Hk" in
  intros rest g k r Hk;
  match goal with
  | |- context [two_digits ?n] =>
      let s := eval vm_compute in (two_digits n) in
      change (two_digits n) with s in *
  end;
  norm_str; unfold directive_re, alts;
  cbn -[consumed]; rewrite ?consumed_2; rewrite Hk; reflexivity.

Lemma month_two_digits n :
  (1 <= n <= 12)%N ->
  forall rest g (k : string -> groups -> option (string * groups)) r,
    k rest (("m"%char, two_digits n) :: g) = Some r ->
    rmatch (directive_re dm) (two_digits n +:+ rest) g k = Some r.
Proof.
  intros Hn. pattern n. apply (N_cases _ 1 12); [|lia].
  repeat (constructor; [two_digits_case|]). constructor.
Qed.

Lemma day_two_digits n :
  (1 <= n <= 31)%N ->
  forall rest g (k : string -> groups -> option (string * groups)) r,
    k rest (("d"%char, two_digits n) :: g) = Some r ->
    rmatch (directive_re dd) (two_digits n +:+ rest) g k = Some r.
Proof.
  intros Hn. pattern n. apply (N_cases _ 1 31); [|lia].
  repeat (constructor; [two_digits_case|]). constructor.
Qed.

Lemma hour_two_digits n :
  (n <= 23)%N ->
  forall rest g (k : string -> groups -> option (string * groups)) r,
    k rest (("H"%char, two_digits n) :: g) = Some r ->
    rmatch (directive_re dH) (two_digits n +:+ rest) g k = Some r.
Proof.
  intros Hn. pattern n. apply (N_cases _ 0 24); [|lia].
  repeat (constructor; [two_digits_case|]). constructor.
Qed.

Lemma minute_two_digits n :
  (n <= 59)%N ->
  forall rest g (k : string -> groups -> option (string * groups)) r,
    k rest (("M"%char, two_digits n) :: g) = Some r ->
    rmatch (directive_re dM) (two_digits n +:+ rest) g k = Some r.
Proof.
  intros Hn. pattern n. apply (N_cases _ 0 60); [|lia].
  repeat (constructor; [two_digits_case|]). constructor.
Qed.

Lemma second_two_digits n :
  (n <= 59)%N ->
  forall rest g (k : string -> groups -> option (string * groups)) r,
    k rest (("S"%char, two_digits n) :: g) = Some r ->
    rmatch (directive_re dS) (two_digits n +:+ rest) g k = Some r.
Proof.
  intros Hn. pattern n. apply (N_cases _ 0 60); [|lia].
  repeat (constructor; [two_digits_case|]). constructor.
Qed.

(** The two digits are read back as the number, and begin with a digit
    that is no white space. *)
Lemma two_digits_int n :
  (n <= 59)%N ->
  int (two_digits n) = n
  /\ exists a b, two_digits n = String a (String b "") /\ isspace a = false.
Proof.
  intros Hn. pattern n. apply (N_cases _ 0 60); [|lia].
  repeat (constructor; [split; [reflexivity | eexists _, _; split; reflexivity]|]).
  constructor.
Qed.

(** The year as [strftime] writes it, from the year 1000 on: four digits
    that are read back as the year. *)
Lemma decimal_year y :
  (1000 <= y <= 9999)%N ->
  exists a b c d,
    decimal y = String a (String b (String c (String d "")))
    /\ isdigit a = true /\ isdigit b = true /\ isdigit c = true
    /\ isdigit d = true
    /\ int (decimal y) = y.
Proof.
  intros Hy.
  assert (H : forallb
                (fun y => match decimal y with
                          | String a (String b (String c (String d ""))) =>
                              isdigit a && isdigit b && isdigit c && isdigit d
                              && (int (decimal y) =? y)%N
                          | _ => false
                          end)
                (map (fun i => 1000 + N.of_nat i)%N (seq 0 (N.to_nat 9000)))
              = true)
    by (vm_compute; reflexivity).
  rewrite forallb_forall in H. specialize (H y).
  assert (Hin : In y (map (fun i => 1000 + N.of_nat i)%N
                        (seq 0 (N.to_nat 9000)))).
  { apply in_map_iff. exists (N.to_nat (y - 1000)). split; [lia|].
    apply in_seq. lia. }
  specialize (H Hin). clear Hin. revert H.
  destruct (decimal y) as [|a [|b [|c [|d [|]]]]]; try discriminate.
  intros H. exists a, b, c, d.
  apply andb_prop in H as [H H5]. apply andb_prop in H as [H H4].
  apply andb_prop in H as [H H3]. apply andb_prop in H as [H1 H2].
  apply N.eqb_eq in H5. auto 10.
Qed.

Lemma year_four_digits a b c d rest g
    (k : string -> groups -> option (string * groups)) :
  isdigit a = true -> isdigit b = true -> isdigit c = true ->
  isdigit d = true ->
  rmatch (directive_re dY) (String a (String b (String c (String d rest)))) g k
  = k rest (("Y"%char, String a (String b (String c (String d "")))) :: g).
Proof.
  intros Ha Hb Hc Hd. unfold directive_re.
  cbn -[consumed isdigit]. rewrite Ha, Hb, Hc, Hd, consumed_4. reflexivity.
Qed.

Lemma space_hour_two_digits n :
  (n <= 23)%N ->
  forall rest g (k : string -> groups -> option (string * groups)) r,
    k rest (("H"%char, two_digits n) :: g) = Some r ->
    rmatch (item_re Space) (String " " (two_digits n +:+ rest)) g
      (fun s' g' => rmatch (directive_re dH) s' g' k) = Some r.
Proof.
  intros Hn. pattern n. apply (N_cases _ 0 24); [|lia].
  repeat (constructor; [unfold item_re; two_digits_case|]). constructor.
Qed.

(** What the constructors of dates have checked. *)
Lemma make_date_Ok y m d dte :
  make_date y m d = Ok dte ->
  dte = mkDate y m d
  /\ (1 <= y <= 9999)%N /\ (1 <= m <= 12)%N /\ (1 <= d <= 31)%N.
Proof.
  unfold make_date.
  destruct (_ && _) eqn:E; [|discriminate]. intros [= <-].
  repeat (apply andb_prop in E as [E ?]).
  repeat match goal with
         | H : (_ <=? _)%N = true |- _ => apply N.leb_le in H
         end.
  assert (days_in_month y m <= 31)%N.
  { unfold days_in_month. destruct (is_leap y).
    all: repeat match goal with
                | |- context [match ?x with _ => _ end] => destruct x
                end; lia. }
  repeat split; lia.
Qed.

Lemma make_datetime_Ok y m d H M S dt :
  make_datetime y m d H M S = Ok dt ->
  dt = mkDatetime (mkDate y m d) H M S
  /\ make_date y m d = Ok (mkDate y m d)
  /\ (H <= 23)%N /\ (M <= 59)%N /\ (S <= 59)%N.
Proof.
  unfold make_datetime. destruct (make_date y m d) as [dte|] eqn:Ed; [|discriminate].
  cbn [bind]. destruct (_ && _) eqn:E; [|discriminate]. intros [= <-].
  pose proof (make_date_Ok _ _ _ _ Ed) as [-> _].
  repeat (apply andb_prop in E as [E ?]).
  repeat match goal with
         | H : (_ <=? _)%N = true |- _ => apply N.leb_le in H
         end.
  auto.
Qed.

(** The text that [strftime] writes for a datetime is read back by
    [strptime] with the format of seconds. *)
Lemma strptime_strftime_datetime y m d H M S dt :
  make_datetime y m d H M S = Ok dt -> (1000 <= y)%N ->
  strptime (strftime_datetime dt) fmt_seconds = Ok dt.
Proof.
  intros Hdt Hy.
  pose proof (make_datetime_Ok _ _ _ _ _ _ _ Hdt) as (-> & Hd & HH & HM & HS).
  pose proof (make_date_Ok _ _ _ _ Hd) as (_ & Hy' & Hm & Hd').
  destruct (decimal_year y ltac:(lia))
    as (a & b & c & e & Ey & Ha & Hb & Hc & He & Hint).
  unfold strptime, re_match.
  assert (E : rmatch (pattern fmt_seconds)
                (strftime_datetime (mkDatetime (mkDate y m d) H M S)) []
                (fun rest g => Some (rest, g))
              = Some ("", [("S"%char, two_digits S); ("M"%char, two_digits M);
                           ("H"%char, two_digits H); ("d"%char, two_digits d);
                           ("m"%char, two_digits m); ("Y"%char, decimal y)])).
  { unfold strftime_datetime, strftime_date.
    cbn [dt_date year month day hour minute second].
    rewrite !append_assoc. rewrite Ey. norm_str.
    unfold fmt_seconds, fmt_minutes, fmt_date. cbn [app].
    rewrite pattern_cons. cbn [item_re].
    rewrite year_four_digits by assumption.
    rewrite pattern_cons. cbn [item_re rmatch]. rewrite Ascii.eqb_refl.
    rewrite pattern_cons. cbn [item_re].
    apply month_two_digits; [assumption|].
    rewrite pattern_cons. cbn [item_re rmatch]. rewrite Ascii.eqb_refl.
    rewrite pattern_cons. cbn [item_re].
    apply day_two_digits; [assumption|].
    rewrite pattern_cons.
    apply (space_hour_two_digits H HH _ _
             (fun s' g' => rmatch (pattern [Sep ":"; Dir dM; Sep ":"; Dir dS])
                             s' g' (fun rest g => Some (rest, g)))).
    rewrite pattern_cons. cbn [item_re rmatch]. rewrite Ascii.eqb_refl.
    rewrite pattern_cons. cbn [item_re].
    apply minute_two_digits; [assumption|].
    rewrite pattern_cons. cbn [item_re rmatch]. rewrite Ascii.eqb_refl.
    rewrite pattern_cons. cbn [item_re].
    rewrite <- (append_nil_r (two_digits S)).
    apply second_two_digits; [assumption|]. reflexivity. }
  rewrite E. unfold field. cbn [group group_name Ascii.eqb Bool.eqb].
  rewrite Hint.
  rewrite (proj1 (two_digits_int m ltac:(lia))),
    (proj1 (two_digits_int d ltac:(lia))), (proj1 (two_digits_int H ltac:(lia))),
    (proj1 (two_digits_int M HM)), (proj1 (two_digits_int S HS)).
  exact Hdt.
Qed.

(** After the year, the text of a date matches neither the format of
    minutes nor that of seconds, whatever the groups so far: no white
    space follows the day. *)
Lemma date_text_has_no_time (g : groups) :
  forallb
    (fun m =>
       forallb
         (fun d =>
            let s := String "-" (two_digits m +:+ String "-" (two_digits d)) in
            match rmatch (pattern (List.tail fmt_minutes)) s g
                    (fun rest g' => Some (rest, g')),
                  rmatch (pattern (List.tail fmt_seconds)) s g
                    (fun rest g' => Some (rest, g'))
            with
            | None, None => true
            | _, _ => false
            end)
         (map N.of_nat (seq 1 31)))
    (map N.of_nat (seq 1 12)) = true.
Proof. vm_compute. reflexivity. Qed.

Lemma in_range_N lo len n :
  (N.of_nat lo <= n < N.of_nat (lo + len))%N -> In n (map N.of_nat (seq lo len)).
Proof.
  intros Hn. apply in_map_iff. exists (N.to_nat n). split; [lia|].
  apply in_seq. lia.
Qed.

Lemma strptime_strftime_date y m d dte :
  make_date y m d = Ok dte -> (1000 <= y)%N ->
  strptime (strftime_date dte) fmt_seconds = Raise ValueError
  /\ strptime (strftime_date dte) fmt_minutes = Raise ValueError
  /\ strptime (strftime_date dte) fmt_date = Ok (mkDatetime dte 0 0 0).
Proof.
  intros Hd Hy.
  pose proof (make_date_Ok _ _ _ _ Hd) as (-> & Hy' & Hm & Hd').
  destruct (decimal_year y ltac:(lia))
    as (a & b & c & e & Ey & Ha & Hb & Hc & He & Hint).
  assert (Es : strftime_date (mkDate y m d)
               = String a (String b (String c (String e
                   (String "-" (two_digits m +:+ String "-" (two_digits d))))))).
  { unfold strftime_date. cbn [year month day]. rewrite Ey. reflexivity. }
  pose proof (date_text_has_no_time
                [("Y"%char, String a (String b (String c (String e ""))))])
    as Hno.
  rewrite forallb_forall in Hno.
  specialize (Hno m (in_range_N 1 12 m ltac:(lia))).
  rewrite forallb_forall in Hno.
  specialize (Hno d (in_range_N 1 31 d ltac:(lia))). cbv zeta in Hno.
  rewrite Es. unfold strptime, re_match.
  repeat split.
  - change fmt_seconds with (Dir dY :: List.tail fmt_seconds).
    rewrite pattern_cons. cbn [item_re].
    rewrite year_four_digits by assumption.
    destruct (rmatch (pattern (List.tail fmt_minutes)) _ _ _); [discriminate|].
    destruct (rmatch (pattern (List.tail fmt_seconds)) _ _ _); [discriminate|].
    reflexivity.
  - change fmt_minutes with (Dir dY :: List.tail fmt_minutes).
    rewrite pattern_cons. cbn [item_re].
    rewrite year_four_digits by assumption.
    destruct (rmatch (pattern (List.tail fmt_minutes)) _ _ _); [discriminate|].
    reflexivity.
  - assert (E : rmatch (pattern fmt_date)
                  (String a (String b (String c (String e
                     (String "-" (two_digits m +:+ String "-" (two_digits d)))))))
                  [] (fun rest g => Some (rest, g))
                = Some ("", [("d"%char, two_digits d); ("m"%char, two_digits m);
                             ("Y"%char, decimal y)])).
    { unfold fmt_date. rewrite Ey.
      rewrite pattern_cons. cbn [item_re].
      rewrite year_four_digits by assumption.
      rewrite pattern_cons. cbn [item_re rmatch]. rewrite Ascii.eqb_refl.
      rewrite pattern_cons. cbn [item_re].
      apply month_two_digits; [assumption|].
      rewrite pattern_cons. cbn [item_re rmatch]. rewrite Ascii.eqb_refl.
      rewrite pattern_cons. cbn [item_re].
      rewrite <- (append_nil_r (two_digits d)).
      apply day_two_digits; [assumption|]. reflexivity. }
    rewrite E. unfold field. cbn [group group_name Ascii.eqb Bool.eqb].
    rewrite Hint.
    rewrite (proj1 (two_digits_int m ltac:(lia))),
      (proj1 (two_digits_int d ltac:(lia))).
    unfold make_datetime. rewrite Hd. reflexivity.
Qed.

(** A text that begins with a digit is neither empty nor "ongoing" and
    has no tilde in front. *)
Lemma digit_first a s :
  isdigit a = true ->
  String.eqb (String a s) "" || String.eqb (String a s) "ongoing" = false
  /\ startswith (String a s) "~" = false.
Proof.
  intros Ha.
  assert (Ho : Ascii.eqb a "o" = false).
  { destruct (Ascii.eqb a "o") eqn:E; [|reflexivity].
    apply Ascii.eqb_eq in E. subst a. discriminate. }
  assert (Ht : Ascii.eqb a "~" = false).
  { destruct (Ascii.eqb a "~") eqn:E; [|reflexivity].
    apply Ascii.eqb_eq in E. subst a. discriminate. }
  split; [|exact Ht]. cbn [String.eqb orb]. rewrite Ho. reflexivity.
Qed.

(** X8: the dates of a CSV row are read back by [parse_datetime]: for a
    date or a datetime of the year 1000 or later, the text that
    [format_date] writes parses to the same date or datetime, not marked
    as approximate; the empty text written for no date parses to no date.
    (In earlier years [strftime] writes the year with fewer than the four
    digits that [strptime] asks for.) *)
Theorem format_date_parses_back :
  (forall y m d dte,
      make_date y m d = Ok dte -> (1000 <= y)%N ->
      parse_datetime (Some (format_date (Some (a_date dte))))
      = Ok (Some (a_date dte), false))
  /\ (forall y m d H M S dt,
        make_datetime y m d H M S = Ok dt -> (1000 <= y)%N ->
        parse_datetime (Some (format_date (Some (a_datetime dt))))
        = Ok (Some (a_datetime dt), false))
  /\ parse_datetime (Some (format_date None)) = Ok (None, false).
Proof.
  split; [|split; [|reflexivity]].
  - intros y m d dte Hd Hy.
    destruct (strptime_strftime_date y m d dte Hd Hy) as (E1 & E2 & E3).
    pose proof (make_date_Ok _ _ _ _ Hd) as (Hdte & Hy' & _).
    destruct (decimal_year y ltac:(lia)) as (a & b & c & e & Ey & Ha & _).
    cbn [format_date]. unfold parse_datetime.
    assert (Es : exists s, strftime_date dte = String a s).
    { subst dte. unfold strftime_date. cbn [year]. rewrite Ey. eexists.
      reflexivity. }
    destruct Es as [s Es]. rewrite Es in *.
    destruct (digit_first a s Ha) as [-> ->].
    cbn [for_fmt]. rewrite E1, E2, E3. reflexivity.
  - intros y m d H M S dt Hdt Hy.
    pose proof (strptime_strftime_datetime y m d H M S dt Hdt Hy) as E.
    pose proof (make_datetime_Ok _ _ _ _ _ _ _ Hdt) as (Hdte & Hd & _).
    pose proof (make_date_Ok _ _ _ _ Hd) as (_ & Hy' & _).
    destruct (decimal_year y ltac:(lia)) as (a & b & c & e & Ey & Ha & _).
    cbn [format_date]. unfold parse_datetime.
    assert (Es : exists s, strftime_datetime dt = String a s).
    { subst dt. unfold strftime_datetime, strftime_date.
      cbn [dt_date year]. rewrite Ey. eexists. reflexivity. }
    destruct Es as [s Es]. rewrite Es in *.
    destruct (digit_first a s Ha) as [-> ->].
    cbn [for_fmt]. rewrite E. reflexivity.
Qed.

Lemma format_date_parses_back_witness :
  parse_datetime (Some (format_date (Some (a_date (mkDate 2024 2 29)))))
  = Ok (Some (a_date (mkDate 2024 2 29)), false)
  /\ parse_datetime
       (Some (format_date
                (Some (a_datetime (mkDatetime (mkDate 1999 12 31) 23 59 0)))))
     = Ok (Some (a_datetime (mkDatetime (mkDate 1999 12 31) 23 59 0)), false).
Proof.
  split.
  - apply (proj1 format_date_parses_back 2024 2 29)%N;
      [vm_compute; reflexivity | lia].
  - apply (proj1 (proj2 format_date_parses_back) 1999 12 31 23 59 0)%N;
      [vm_compute; reflexivity | lia].
Defined.

(** ** md2csv: places and protocols *)

(** A word: a string that is not empty and holds no white space. *)
Lemma split_from_words s :
  forall acc,
    Forall (fun c => isspace c = false) acc ->
    Forall (fun w => w <> "" /\ all_chars (fun c => negb (isspace c)) w = true)
      (split_from acc s).
Proof.
  assert (Hclose : forall acc,
    Forall (fun c => isspace c = false) acc ->
    Forall (fun w => w <> "" /\ all_chars (fun c => negb (isspace c)) w = true)
      match acc with
      | [] => []
      | _ => [string_of_list_ascii (rev acc)]
      end).
  { intros acc Hacc. destruct acc as [|a acc]; constructor; [|constructor].
    split.
    - cbn [rev]. destruct (rev acc); discriminate.
    - assert (H : Forall (fun c => isspace c = false) (rev (a :: acc))).
      { apply Forall_rev. exact Hacc. }
      induction H as [|c l Hc _ IH]; [reflexivity|].
      cbn [string_of_list_ascii all_chars]. rewrite Hc, IH. reflexivity. }
  induction s as [|c s IH]; intros acc Hacc; cbn [split_from].
  - apply Hclose. exact Hacc.
  - destruct (isspace c) eqn:Hc.
    + apply Forall_app. split; [apply Hclose; exact Hacc | apply IH; constructor].
    + apply IH. constructor; assumption.
Qed.

(** Reading a word, and the white space or the end after it. *)
Lemma split_from_word w :
  forall acc rest,
    all_chars (fun c => negb (isspace c)) w = true ->
    split_from acc (w +:+ rest)
    = split_from (rev (list_ascii_of_string w) ++ acc) rest.
Proof.
  induction w as [|c w IH]; intros acc rest H; [reflexivity|].
  cbn [all_chars] in H. apply andb_prop in H as [Hc Hw].
  apply negb_true_iff in Hc.
  change (String c w +:+ rest) with (String c (w +:+ rest)).
  cbn [split_from list_ascii_of_string rev]. rewrite Hc, (IH _ _ Hw).
  rewrite <- app_assoc. reflexivity.
Qed.

Lemma string_of_rev_rev w :
  string_of_list_ascii (rev (rev (list_ascii_of_string w) ++ [])) = w.
Proof.
  rewrite app_nil_r, rev_involutive. apply string_of_list_ascii_of_string.
Qed.

Lemma rev_word_not_nil w : w <> "" -> rev (list_ascii_of_string w) ++ [] <> [].
Proof.
  destruct w as [|c w]; [congruence|]. intros _. cbn [list_ascii_of_string rev].
  rewrite app_nil_r. destruct (rev (list_ascii_of_string w)); discriminate.
Qed.

Lemma split_from_blank acc rest :
  split_from acc (String " " rest)
  = match acc with
    | [] => []
    | _ => [string_of_list_ascii (rev acc)]
    end ++ split_from [] rest.
Proof. reflexivity. Qed.

(** Words joined by single blanks are split into the same words. *)
Lemma split_join_words ws :
  Forall (fun w => w <> "" /\ all_chars (fun c => negb (isspace c)) w = true) ws ->
  split (join_with " " ws) = ws.
Proof.
  unfold split. induction ws as [|w ws IH]; intros H; [reflexivity|].
  apply Forall_cons in H as [[Hne Hw] Hws].
  destruct ws as [|w' ws].
  - cbn [join_with]. rewrite <- (append_nil_r w) at 1.
    rewrite (split_from_word w [] "" Hw). cbn [split_from].
    pose proof (rev_word_not_nil w Hne) as Hn.
    destruct (rev (list_ascii_of_string w) ++ []) eqn:E; [congruence|].
    rewrite <- E, string_of_rev_rev. reflexivity.
  - change (join_with " " (w :: w' :: ws))
      with (w +:+ String " " (join_with " " (w' :: ws))).
    rewrite (split_from_word w [] _ Hw).
    rewrite split_from_blank, (IH Hws).
    pose proof (rev_word_not_nil w Hne) as Hn.
    destruct (rev (list_ascii_of_string w) ++ []) eqn:E; [congruence|].
    rewrite <- E, string_of_rev_rev. reflexivity.
Qed.

(** [sorted] puts the elements of the set in order. *)
Lemma insert_sorted_perm x l : insert_sorted x l ≡ₚ x :: l.
Proof.
  induction l as [|y l IH]; [reflexivity|]. cbn [insert_sorted].
  destruct (String.leb x y); [reflexivity|].
  rewrite IH. apply Permutation_swap.
Qed.

Lemma sorted_perm (s : gset string) : sorted s ≡ₚ elements s.
Proof.
  unfold sorted. induction (elements s) as [|x l IH]; [reflexivity|].
  cbn [foldr]. rewrite insert_sorted_perm, IH. reflexivity.
Qed.

Lemma leb_total x y : String.leb x y = false -> String.leb y x = true.
Proof.
  unfold String.leb. rewrite (String.compare_antisym y x).
  destruct (String.compare x y); simpl; congruence.
Qed.

Lemma insert_sorted_Sorted x l :
  Sorted (fun a b => String.leb a b = true) l ->
  Sorted (fun a b => String.leb a b = true) (insert_sorted x l).
Proof.
  induction l as [|y l IH]; intros H; cbn [insert_sorted].
  - repeat constructor.
  - destruct (String.leb x y) eqn:E.
    + constructor; [exact H | constructor; exact E].
    + apply Sorted_inv in H as [Hl Hy]. constructor; [apply IH, Hl|].
      destruct l as [|z l]; cbn [insert_sorted].
      * constructor. apply leb_total, E.
      * destruct (String.leb x z); constructor.
        -- apply leb_total, E.
        -- apply HdRel_inv in Hy. exact Hy.
Qed.

Lemma sorted_Sorted (s : gset string) :
  Sorted (fun a b => String.leb a b = true) (sorted s).
Proof.
  unfold sorted. induction (elements s) as [|x l IH]; [constructor|].
  cbn [foldr]. apply insert_sorted_Sorted, IH.
Qed.

(** X9: the places (and the protocols) of an entry survive the CSV row:
    for the set [s] of the white space separated words of a cell text,
    the field [" ".join(sorted(s))] that [entry_to_row] writes is split
    again into exactly the elements of [s], each once and in ascending
    order, so that the set read from the field is [s]. *)
Theorem places_survive_csv text :
  exists s,
    split_set (Some text) = Ok s
    /\ split (join_with " " (sorted s)) = sorted s
    /\ split_set (Some (join_with " " (sorted s))) = Ok s
    /\ NoDup (sorted s)
    /\ Sorted (fun a b => String.leb a b = true) (sorted s).
Proof.
  exists (list_to_set (split text)). split; [reflexivity|].
  set (s := list_to_set (split text) : gset string).
  assert (Hwords : Forall (fun w => w <> ""
                     /\ all_chars (fun c => negb (isspace c)) w = true)
                     (sorted s)).
  { apply Forall_forall. intros w Hw.
    rewrite sorted_perm in Hw. apply elem_of_elements in Hw.
    unfold s in Hw. apply elem_of_list_to_set in Hw.
    pose proof (split_from_words text [] ltac:(constructor)) as Hall.
    rewrite Forall_forall in Hall. apply Hall. exact Hw. }
  assert (Hsplit : split (join_with " " (sorted s)) = sorted s)
    by (apply split_join_words; exact Hwords).
  split; [exact Hsplit|]. split; [|split].
  - unfold split_set. rewrite Hsplit. f_equal.
    rewrite (list_to_set_perm_L _ _ (sorted_perm s)).
    apply list_to_set_elements_L.
  - rewrite sorted_perm. apply NoDup_elements.
  - apply sorted_Sorted.
Qed.

(** ** Text of a tree, escaping, and the cells of an entry *)

Lemma mapM_to_text_literals children :
  Forall (fun n => texts_present n = true ->
                   to_text n = if literal_only n
                               then Ok (Some (plain_text n))
                               else Raise ValueError) children ->
  forallb texts_present children = true ->
  mapM to_text children
  = if forallb literal_only children
    then Ok (map (fun n => Some (plain_text n)) children)
    else Raise ValueError.
Proof.
  induction children as [|x children IH]; intros H Hp; [reflexivity|].
  apply Forall_cons in H as [Hx Hxs]. cbn [forallb] in Hp.
  apply andb_prop in Hp as [Hpx Hps]. cbn [mapM forallb map].
  rewrite (Hx Hpx). destruct (literal_only x); [|reflexivity].
  cbn [bind andb]. rewrite (IH Hxs Hps).
  destruct (forallb literal_only children); reflexivity.
Qed.

Lemma to_text_literal_only node :
  texts_present node = true ->
  to_text node = if literal_only node
                 then Ok (Some (plain_text node))
                 else Raise ValueError.
Proof.
  induction node as [children IH|[s|]|s|label href IH] using Node_ind';
    cbn [texts_present to_text literal_only plain_text]; intros H;
    try discriminate; try reflexivity.
  rewrite (mapM_to_text_literals children IH H).
  destruct (forallb literal_only children); [|reflexivity].
  cbn [bind]. rewrite <- (map_map plain_text Some), TokenizerCell.join_Some.
  reflexivity.
Qed.

(** X10: [to_text] of a tree whose literals have texts, as the parser
    builds them: the texts of the literals put together when the tree
    holds nothing but literals, and a [ValueError] as soon as it holds a
    code span or a link, at any depth. *)
Theorem to_text_of_literals node :
  texts_present node = true ->
  (literal_only node = true -> to_text node = Ok (Some (plain_text node)))
  /\ (literal_only node = false -> to_text node = Raise ValueError).
Proof.
  intros H. rewrite (to_text_literal_only node H).
  split; intros ->; reflexivity.
Qed.

Lemma to_text_of_literals_witness :
  (literal_only (Markdown [cell "a"; MarkdownLiteral (Some "b")]) = true ->
   to_text (Markdown [cell "a"; MarkdownLiteral (Some "b")])
   = Ok (Some (plain_text (Markdown [cell "a"; MarkdownLiteral (Some "b")]))))
  /\ (literal_only (Markdown [cell "a"; MarkdownLiteral (Some "b")]) = false ->
      to_text (Markdown [cell "a"; MarkdownLiteral (Some "b")])
      = Raise ValueError).
Proof.
  apply (to_text_of_literals (Markdown [cell "a"; MarkdownLiteral (Some "b")])).
  reflexivity.
Defined.

Lemma backslash_escape_cons c s chars :
  backslash_escape (String c s) chars
  = if Ascii.eqb c "\" || in_string c chars
    then String "\" (String c (backslash_escape s chars))
    else String c (backslash_escape s chars).
Proof.
  cbn [backslash_escape]. destruct (Ascii.eqb c "\" || in_string c chars);
    reflexivity.
Qed.

(** X11: [backslash_escape] never gives the same text for two different
    texts, whatever the set of characters to escape. *)
Theorem backslash_escape_injective chars s t :
  backslash_escape s chars = backslash_escape t chars -> s = t.
Proof.
  revert t. induction s as [|c s IH]; intros t H.
  - destruct t as [|d t]; [reflexivity|]. rewrite backslash_escape_cons in H.
    destruct (Ascii.eqb d "\" || in_string d chars); discriminate.
  - destruct t as [|d t].
    + rewrite backslash_escape_cons in H.
      destruct (Ascii.eqb c "\" || in_string c chars); discriminate.
    + rewrite !backslash_escape_cons in H.
      destruct (Ascii.eqb c "\" || in_string c chars) eqn:Ec;
        destruct (Ascii.eqb d "\" || in_string d chars) eqn:Ed.
      * injection H as <- H. f_equal. apply IH, H.
      * injection H as <- _. rewrite Ascii.eqb_refl in Ed. discriminate.
      * injection H as -> _. rewrite Ascii.eqb_refl in Ec. discriminate.
      * injection H as <- H. f_equal. apply IH, H.
Qed.

Lemma backslash_escape_injective_witness : "a\b`c" = "a\b`c".
Proof.
  apply (backslash_escape_injective "`" "a\b`c" "a\b`c"). reflexivity.
Defined.

(** X12: [Entry] on the cells of a row raises nothing but [ValueError],
    and raises it whenever the row has not exactly seven cells, or one of
    the cells of the dates, the places, the protocols or the last column
    holds a code span or a link. *)
Theorem Entry_init_ValueError row :
  forallb cell_tree row = true ->
  (forall e, Entry_init row = Raise e -> e = ValueError)
  /\ (length row <> 7 -> Entry_init row = Raise ValueError)
  /\ (forall i c,
        In i [0; 1; 2; 3; 6] -> nth_error row i = Some c ->
        literal_only c = false ->
        Entry_init row = Raise ValueError).
Proof.
  intros Hrow.
  assert (H1 : forall e, Entry_init row = Raise e -> e = ValueError)
    by (intros e; apply Entry_init_raises; exact Hrow).
  split; [exact H1|]. split.
  - intros Hlen. unfold Entry_init.
    destruct row as [|c1 [|c2 [|c3 [|c4 [|c5 [|c6 [|c7 [|c8 row]]]]]]]];
      try reflexivity. simpl in Hlen. congruence.
  - intros i c Hi Hc Hlit.
    destruct (Entry_init row) as [entry|e] eqn:E;
      [|rewrite (H1 e eq_refl); reflexivity].
    exfalso.
    apply Entry_init_Ok in E
      as (c1 & c2 & c3 & c4 & c5 & c6 & c7 & t1 & t2 & t3 & t4 & t7 & -> & E).
    destruct E as (E1 & _ & E2 & _ & _ & E3 & _ & E4 & _ & _ & _ & E7 & _).
    assert (Hc' : cell_tree c = true).
    { rewrite forallb_forall in Hrow. apply Hrow.
      eapply nth_error_In. exact Hc. }
    assert (Ht : to_text c = Raise ValueError).
    { rewrite to_text_literal_only, Hlit; [reflexivity|].
      destruct c; try discriminate. exact Hc'. }
    simpl in Hi.
    destruct Hi as [<-|[<-|[<-|[<-|[<-|[]]]]]]; simpl in Hc;
      injection Hc as <-; congruence.
Qed.

Lemma Entry_init_ValueError_witness :
  (forall e,
      Entry_init [cell "2020-01-01"; Markdown [MarkdownCode "x"]; cell "US";
                  cell "tor"; cell "d"; Markdown []; Markdown []] = Raise e ->
      e = ValueError)
  /\ (length [cell "2020-01-01"; Markdown [MarkdownCode "x"]; cell "US";
              cell "tor"; cell "d"; Markdown []; Markdown []] <> 7 ->
      Entry_init [cell "2020-01-01"; Markdown [MarkdownCode "x"]; cell "US";
                  cell "tor"; cell "d"; Markdown []; Markdown []]
      = Raise ValueError)
  /\ (forall i c,
        In i [0; 1; 2; 3; 6] ->
        nth_error [cell "2020-01-01"; Markdown [MarkdownCode "x"]; cell "US";
                   cell "tor"; cell "d"; Markdown []; Markdown []] i = Some c ->
        literal_only c = false ->
        Entry_init [cell "2020-01-01"; Markdown [MarkdownCode "x"]; cell "US";
                    cell "tor"; cell "d"; Markdown []; Markdown []]
        = Raise ValueError).
Proof.
  apply (Entry_init_ValueError
           [cell "2020-01-01"; Markdown [MarkdownCode "x"]; cell "US";
            cell "tor"; cell "d"; Markdown []; Markdown []]).
  reflexivity.
Defined.

(** ** Tables, row by row *)

(** *** A cell is parsed alike whatever follows it *)

Lemma cell_tokens_cons tok p :
  cell_tokens (tok :: p) ->
  (type tok = TABLE_CELL_END /\ p = [])
  \/ (inner_token tok = true /\ cell_tokens p).
Proof.
  intros (toks & ce & E & Hce & Hin). destruct toks as [|t toks].
  - left. simpl in E. injection E as -> ->. auto.
  - right. simpl in E. injection E as -> ->. cbn [forallb] in Hin.
    apply andb_prop in Hin as [Ht Hin]. split; [exact Ht|].
    exists toks, ce. auto.
Qed.

Lemma cell_tokens_not_nil p : cell_tokens p -> p <> [].
Proof. intros (toks & ce & -> & _). destruct toks; discriminate. Qed.

Lemma same_result_bindM {A B : Type} (m : Parser.M A) (k : A -> Parser.M B)
    (Q R : Parser.Vars -> Parser.Vars -> Prop) v w :
  same_result Q (m v) (m w) ->
  (forall x v' w', Q v' w' -> same_result R (k x v') (k x w')) ->
  same_result R (Parser.bindM m k v) (Parser.bindM m k w).
Proof.
  unfold Parser.bindM. destruct (m v) as [[[x v']|e]|]; simpl; [| |trivial].
  - intros (w' & -> & HQ) Hk. apply Hk. exact HQ.
  - intros -> _. reflexivity.
Qed.

Lemma bindM_step {A B : Type} (m : Parser.M A) (k : A -> Parser.M B) v a v' :
  m v = Some (Ok (a, v')) -> Parser.bindM m k v = k a v'.
Proof. unfold Parser.bindM. intros ->. reflexivity. Qed.

Section Frame.
Variables (rest1 rest2 : list Token) (e2 : Ending).

#[local] Abbreviation fr := (framed rest1 rest2 e2).

Lemma read_framed p v w :
  cell_tokens p -> fr p v w ->
  exists tok p' v' w',
    p = tok :: p'
    /\ Parser.read_token v = Some (Ok (tok, v'))
    /\ Parser.read_token w = Some (Ok (tok, w'))
    /\ fr p' v' w'.
Proof.
  intros Hp (Hv & Hw & He). apply cell_tokens_not_nil in Hp.
  destruct p as [|tok p]; [congruence|]. exists tok, p.
  unfold Parser.read_token, stream in *.
  destruct v as [u1 t1 x1], w as [u2 t2 x2].
  cbn [Parser.unread_buf Parser.tokenizer Parser.tokenizer_end] in *.
  assert (Hr1 : exists v', match u1 with
                           | tok0 :: u => Some (Ok (tok0, Parser.mkVars u t1 x1))
                           | [] => match t1 with
                                   | tok0 :: r => Some (Ok (tok0, Parser.mkVars [] r x1))
                                   | [] => match x1 with
                                           | Done => Some (Raise StopIteration)
                                           | Raised e => Some (Raise e)
                                           end
                                   end
                           end = Some (Ok (tok, v'))
                     /\ Parser.unread_buf v' ++ Parser.tokenizer v' = p ++ rest1).
  { destruct u1 as [|a u1]; [destruct t1 as [|a t1]|]; simpl in Hv;
      try discriminate; injection Hv as -> Hv; eexists; split; eauto. }
  assert (Hr2 : exists w', match u2 with
                           | tok0 :: u => Some (Ok (tok0, Parser.mkVars u t2 x2))
                           | [] => match t2 with
                                   | tok0 :: r => Some (Ok (tok0, Parser.mkVars [] r x2))
                                   | [] => match x2 with
                                           | Done => Some (Raise StopIteration)
                                           | Raised e => Some (Raise e)
                                           end
                                   end
                           end = Some (Ok (tok, w'))
                     /\ Parser.unread_buf w' ++ Parser.tokenizer w' = p ++ rest2
                     /\ Parser.tokenizer_end w' = x2).
  { destruct u2 as [|a u2]; [destruct t2 as [|a t2]|]; simpl in Hw;
      try discriminate; injection Hw as -> Hw; eexists; split; eauto. }
  destruct Hr1 as (v' & Hr1 & Hv'). destruct Hr2 as (w' & Hr2 & Hw' & He').
  exists v', w'. repeat split; try assumption. congruence.
Qed.

Lemma unread_framed tok p v w :
  fr p v w ->
  same_result (fr (tok :: p)) (Parser.unread_token tok v)
    (Parser.unread_token tok w).
Proof.
  intros (Hv & Hw & He). unfold Parser.unread_token, same_result.
  eexists. split; [reflexivity|]. unfold framed, stream in *.
  cbn [Parser.unread_buf Parser.tokenizer Parser.tokenizer_end app].
  rewrite Hv, Hw. auto.
Qed.

Lemma inner_not_end tok :
  inner_token tok = true -> type tok <> TABLE_CELL_END.
Proof. unfold inner_token. destruct (type tok); congruence. Qed.

(** What follows the tokens of a cell does not matter to [parse_code]. *)
Lemma parse_code_framed n :
  forall txt p v w,
    cell_tokens p -> fr p v w ->
    same_result (fun v' w' => exists p', cell_tokens p' /\ fr p' v' w')
      (Parser.parse_code n txt v) (Parser.parse_code n txt w).
Proof.
  induction n as [|n IH]; intros txt p v w Hp Hf; [exact I|].
  cbn [Parser.parse_code].
  destruct (read_framed p v w Hp Hf) as (tok & p' & v' & w' & -> & Hv & Hw & Hf').
  rewrite (bindM_step _ _ _ _ _ Hv), (bindM_step _ _ _ _ _ Hw).
  destruct (cell_tokens_cons tok p' Hp) as [[Hty ->]|[Hin Hp']].
  { rewrite Hty. reflexivity. }
  unfold inner_token in Hin.
  destruct (type tok); try discriminate; try (apply (IH _ p'); assumption).
  unfold Parser.bindM, Parser.lift, Parser.ret. destruct (join txt); simpl; eauto.
Qed.

Lemma parse_link_href_framed n :
  forall label href p v w,
    cell_tokens p -> fr p v w ->
    same_result (fun v' w' => exists p', cell_tokens p' /\ fr p' v' w')
      (Parser.parse_link_href n label href v)
      (Parser.parse_link_href n label href w).
Proof.
  induction n as [|n IH]; intros label href p v w Hp Hf; [exact I|].
  cbn [Parser.parse_link_href].
  destruct (read_framed p v w Hp Hf) as (tok & p' & v' & w' & -> & Hv & Hw & Hf').
  rewrite (bindM_step _ _ _ _ _ Hv), (bindM_step _ _ _ _ _ Hw).
  destruct (cell_tokens_cons tok p' Hp) as [[Hty ->]|[Hin Hp']].
  { rewrite Hty. reflexivity. }
  unfold inner_token in Hin.
  destruct (type tok); try discriminate; try (apply (IH _ _ p'); assumption);
    try reflexivity.
  unfold Parser.bindM, Parser.lift, Parser.ret. destruct (join href); simpl; eauto.
Qed.

Lemma parse_link_tail_framed n label p v w :
  cell_tokens p -> fr p v w ->
  same_result (fun v' w' => exists p', cell_tokens p' /\ fr p' v' w')
    (Parser.parse_link_tail n label v) (Parser.parse_link_tail n label w).
Proof.
  intros Hp Hf. unfold Parser.parse_link_tail.
  destruct (read_framed p v w Hp Hf) as (tok & p' & v' & w' & -> & Hv & Hw & Hf').
  rewrite (bindM_step _ _ _ _ _ Hv), (bindM_step _ _ _ _ _ Hw).
  destruct (cell_tokens_cons tok p' Hp) as [[Hty ->]|[Hin Hp']].
  { rewrite Hty. reflexivity. }
  destruct (type tok); try reflexivity.
  apply (parse_link_href_framed n label [] p'); assumption.
Qed.

Lemma parse_link_framed n :
  forall label p v w,
    cell_tokens p -> fr p v w ->
    same_result (fun v' w' => exists p', cell_tokens p' /\ fr p' v' w')
      (Parser.parse_link n label v) (Parser.parse_link n label w).
Proof.
  induction n as [|n IH]; intros label p v w Hp Hf; [exact I|].
  cbn [Parser.parse_link].
  destruct (read_framed p v w Hp Hf) as (tok & p' & v' & w' & -> & Hv & Hw & Hf').
  rewrite (bindM_step _ _ _ _ _ Hv), (bindM_step _ _ _ _ _ Hw).
  destruct (cell_tokens_cons tok p' Hp) as [[Hty ->]|[Hin Hp']].
  { rewrite Hty. reflexivity. }
  unfold inner_token in Hin.
  destruct (type tok); try discriminate; try (apply (IH _ p'); assumption).
  - (* BACKTICK *)
    eapply same_result_bindM; [apply (parse_code_framed n [] p'); assumption|].
    intros code v1 w1 (p1 & Hp1 & Hf1). apply (IH _ p1); assumption.
  - (* OPEN_BRACKET *)
    eapply same_result_bindM; [apply unread_framed; exact Hf'|].
    intros _ v1 w1 Hf1. simpl. eauto.
  - (* CLOSE_BRACKET *)
    apply (parse_link_tail_framed n label p'); assumption.
Qed.

(** What follows the pipe that ends a cell does not matter to
    [parse_table_cell], which reads up to it. *)
Lemma parse_table_cell_framed n :
  forall children p v w,
    cell_tokens p -> fr p v w ->
    same_result (fr [])
      (Parser.parse_table_cell n children v)
      (Parser.parse_table_cell n children w).
Proof.
  induction n as [|n IH]; intros children p v w Hp Hf; [exact I|].
  cbn [Parser.parse_table_cell].
  destruct (read_framed p v w Hp Hf) as (tok & p' & v' & w' & -> & Hv & Hw & Hf').
  rewrite (bindM_step _ _ _ _ _ Hv), (bindM_step _ _ _ _ _ Hw).
  destruct (cell_tokens_cons tok p' Hp) as [[Hty ->]|[Hin Hp']].
  { rewrite Hty. simpl. eauto. }
  unfold inner_token in Hin.
  destruct (type tok); try discriminate; try (apply (IH _ p'); assumption).
  - eapply same_result_bindM; [apply (parse_code_framed n [] p'); assumption|].
    intros code v1 w1 (p1 & Hp1 & Hf1). apply (IH _ p1); assumption.
  - eapply same_result_bindM; [apply (parse_link_framed n [] p'); assumption|].
    intros link v1 w1 (p1 & Hp1 & Hf1). apply (IH _ p1); assumption.
Qed.

End Frame.

(** *** More fuel gives the same result *)

Module ParserMono.
Import Parser.

Lemma parse_code_mono n :
  forall m txt v r,
    n <= m -> parse_code n txt v = Some r -> parse_code m txt v = Some r.
Proof.
  induction n as [|n IH]; intros m txt v r Hm H; [discriminate|].
  destruct m as [|m]; [lia|]. cbn [parse_code] in *. unfold bindM in *.
  destruct (read_token v) as [[[tok v']|e]|]; try assumption.
  destruct (type tok); try assumption; apply IH; (lia || assumption).
Qed.

Lemma parse_link_href_mono n :
  forall m label href v r,
    n <= m -> parse_link_href n label href v = Some r ->
    parse_link_href m label href v = Some r.
Proof.
  induction n as [|n IH]; intros m label href v r Hm H; [discriminate|].
  destruct m as [|m]; [lia|]. cbn [parse_link_href] in *. unfold bindM in *.
  destruct (read_token v) as [[[tok v']|e]|]; try assumption.
  destruct (type tok); try assumption; apply IH; (lia || assumption).
Qed.

Lemma parse_link_tail_mono n m label v r :
  n <= m -> parse_link_tail n label v = Some r ->
  parse_link_tail m label v = Some r.
Proof.
  intros Hm. unfold parse_link_tail, bindM.
  destruct (read_token v) as [[[tok v']|e]|]; try trivial.
  destruct (type tok); try trivial. apply parse_link_href_mono. exact Hm.
Qed.

Lemma parse_link_mono n :
  forall m label v r,
    n <= m -> parse_link n label v = Some r -> parse_link m label v = Some r.
Proof.
  induction n as [|n IH]; intros m label v r Hm H; [discriminate|].
  destruct m as [|m]; [lia|]. cbn [parse_link] in *. unfold bindM in *.
  destruct (read_token v) as [[[tok v']|e]|]; try assumption.
  destruct (type tok); try assumption; try (apply IH; (lia || assumption)).
  - destruct (parse_code n [] v') as [[[code v'']|e]|] eqn:E; [| |discriminate].
    + rewrite (parse_code_mono n m _ _ _ ltac:(lia) E). apply IH; (lia || assumption).
    + rewrite (parse_code_mono n m _ _ _ ltac:(lia) E). assumption.
  - apply (parse_link_tail_mono n m); (lia || assumption).
Qed.

Lemma parse_table_cell_mono n :
  forall m children v r,
    n <= m -> parse_table_cell n children v = Some r ->
    parse_table_cell m children v = Some r.
Proof.
  induction n as [|n IH]; intros m children v r Hm H; [discriminate|].
  destruct m as [|m]; [lia|]. cbn [parse_table_cell] in *. unfold bindM in *.
  destruct (read_token v) as [[[tok v']|e]|]; try assumption.
  destruct (type tok); try assumption; try (apply IH; (lia || assumption)).
  - destruct (parse_code n [] v') as [[[code v'']|e]|] eqn:E; [| |discriminate].
    + rewrite (parse_code_mono n m _ _ _ ltac:(lia) E). apply IH; (lia || assumption).
    + rewrite (parse_code_mono n m _ _ _ ltac:(lia) E). assumption.
  - destruct (parse_link n [] v') as [[[link v'']|e]|] eqn:E; [| |discriminate].
    + rewrite (parse_link_mono n m _ _ _ ltac:(lia) E). apply IH; (lia || assumption).
    + rewrite (parse_link_mono n m _ _ _ ltac:(lia) E). assumption.
Qed.

End ParserMono.

(** The tokens of a cell text are tokens of a cell. *)
Lemma lex_inner m :
  forall c, String.length c <= m ->
  forall buf toks, lex buf c = Some toks -> forallb inner_token toks = true.
Proof.
  assert (Hfl : forall buf, forallb inner_token (flushed buf) = true)
    by (intros [|x buf]; reflexivity).
  induction m as [|m IH]; intros c Hm buf toks H.
  - destruct c; [|simpl in Hm; lia]. simpl in H. injection H as <-. apply Hfl.
  - destruct c as [|a c]; [simpl in H; injection H as <-; apply Hfl|].
    simpl in Hm. cbn [lex] in H.
    destruct (Ascii.eqb a newline || Ascii.eqb a "|"); [discriminate|].
    destruct (Ascii.eqb a "\").
    + destruct c as [|d c]; [discriminate|]. simpl in Hm.
      destruct (Ascii.eqb d newline); [discriminate|].
      destruct (in_string d punctuation); apply IH in H; (lia || assumption).
    + destruct (special a) as [ty|] eqn:Hs.
      * destruct (lex [] c) as [toks'|] eqn:E; [|discriminate].
        injection H as <-. rewrite forallb_app, Hfl. cbn [forallb andb].
        rewrite (IH c ltac:(lia) [] toks' E), andb_true_r.
        apply ParserCell.special_cases in Hs.
        destruct Hs as [[-> ->]|[[-> ->]|[[-> ->]|[[-> ->]|[-> ->]]]]];
          reflexivity.
      * apply IH in H; (lia || assumption).
Qed.

(** The cell text [c] in a row: [parse_table_cell] returns the tree that
    [c] parses to alone, and leaves what follows the cell. *)
Lemma parse_cell_in_row c t n w rest :
  forall toks,
    lex [] c = Some toks ->
    parse_cell c = Some (Ok t) ->
    stream w = toks ++ cell_end :: rest ->
    Parser.size w < n ->
    exists w',
      Parser.parse_table_cell n [] w = Some (Ok (t, w'))
      /\ stream w' = rest
      /\ Parser.tokenizer_end w' = Parser.tokenizer_end w.
Proof.
  intros toks Hlex Hparse Hw Hn.
  unfold parse_cell in Hparse. rewrite (tokenize_cell c toks Hlex) in Hparse.
  cbv zeta in Hparse.
  set (n0 := Parser.size _) in Hparse.
  unfold Parser.bindM, Parser.read_token, Parser.init in Hparse.
  cbn [Parser.unread_buf Parser.tokenizer Parser.tokenizer_end] in Hparse.
  match type of Hparse with
  | context [Parser.parse_table_cell n0 [] ?x] => set (v0 := x) in Hparse
  end.
  destruct (Parser.parse_table_cell n0 [] v0) as [[[node v']|e]|] eqn:E0;
    try discriminate.
  injection Hparse as ->.
  assert (Hp : cell_tokens (toks ++ [cell_end])).
  { exists toks, cell_end. repeat split.
    exact (lex_inner (String.length c) c (le_n _) [] toks Hlex). }
  pose proof (parse_table_cell_framed
                [mkToken TABLE_ROW_END (Some ""); mkToken EOF None] rest
                (Parser.tokenizer_end w) n0 [] (toks ++ [cell_end]) v0 w Hp)
    as Hfr.
  rewrite E0 in Hfr. destruct Hfr as (w' & Ew & _ & Hw' & He).
  { unfold framed. split; [|split; [|reflexivity]].
    - unfold stream, v0. cbn [Parser.unread_buf Parser.tokenizer app].
      rewrite <- app_assoc. reflexivity.
    - rewrite Hw, <- app_assoc. reflexivity. }
  exists w'. split; [|split; assumption].
  pose proof (ParserTotal.parse_table_cell_total n [] w Hn) as Ht.
  destruct (Parser.parse_table_cell n [] w) as [r|] eqn:E; [|contradiction].
  destruct (Nat.le_ge_cases n0 n) as [Hle|Hle].
  - rewrite (ParserMono.parse_table_cell_mono n0 n _ _ _ Hle Ew) in E.
    congruence.
  - rewrite (ParserMono.parse_table_cell_mono n n0 _ _ _ Hle E) in Ew.
    congruence.
Qed.

(** *** Rows *)

Lemma read_stream v tok s :
  stream v = tok :: s ->
  exists v',
    Parser.read_token v = Some (Ok (tok, v'))
    /\ stream v' = s /\ Parser.tokenizer_end v' = Parser.tokenizer_end v.
Proof.
  unfold stream, Parser.read_token. destruct v as [u t e].
  cbn [Parser.unread_buf Parser.tokenizer Parser.tokenizer_end].
  destruct u as [|a u]; [destruct t as [|a t]|]; simpl; try discriminate;
    intros [= -> <-]; eexists; eauto.
Qed.

Lemma unread_stream tok v :
  exists v',
    Parser.unread_token tok v = Some (Ok (tt, v'))
    /\ stream v' = tok :: stream v
    /\ Parser.tokenizer_end v' = Parser.tokenizer_end v.
Proof. eexists. split; [reflexivity|]. split; reflexivity. Qed.

Lemma size_stream v : Parser.size v = length (stream v).
Proof. unfold Parser.size, stream. rewrite length_app. reflexivity. Qed.

Lemma not_row_end {A : Type} tok (a b : A) :
  type tok <> TABLE_ROW_END ->
  match type tok with
  | TABLE_ROW_END => a
  | _ => b
  end = b.
Proof. destruct (type tok); congruence. Qed.

Lemma not_row_begin {A : Type} tok (a b : A) :
  type tok <> TABLE_ROW_BEGIN ->
  match type tok with
  | TABLE_ROW_BEGIN => a
  | _ => b
  end = b.
Proof. destruct (type tok); congruence. Qed.

Lemma cell_text_lex c : cell_text c = true -> lex [] c = Some (cell_lex c).
Proof.
  unfold cell_text, cell_lex. destruct (lex [] c); [reflexivity | discriminate].
Qed.

Lemma cells_tokens_cons toks cells :
  cells_tokens (toks :: cells) = toks ++ cell_end :: cells_tokens cells.
Proof.
  unfold cells_tokens. cbn [map concat]. rewrite <- !app_assoc. reflexivity.
Qed.

(** The first token of a cell is not the token that ends a row. *)
Lemma cell_first_token c s tok s' :
  cell_text c = true ->
  cell_lex c ++ cell_end :: s = tok :: s' ->
  type tok <> TABLE_ROW_END.
Proof.
  intros Hc E. apply cell_text_lex in Hc.
  pose proof (lex_inner (String.length c) c (le_n _) [] _ Hc) as Hin.
  destruct (cell_lex c) as [|t toks]; simpl in E; injection E as <- _.
  - discriminate.
  - cbn [forallb] in Hin. apply andb_prop in Hin as [Hin _].
    unfold inner_token in Hin. destruct (type t); congruence.
Qed.

(** [parse_table_row] on the tokens of a row: the trees of the cells. *)
Lemma parse_table_row_cells cells trees :
  cells_parse cells trees ->
  forall n row w rest,
    stream w = cells_tokens (map cell_lex cells) ++ rest ->
    Parser.size w + 1 < n ->
    exists w',
      Parser.parse_table_row n row w = Some (Ok (row ++ trees, w'))
      /\ stream w' = rest
      /\ Parser.tokenizer_end w' = Parser.tokenizer_end w.
Proof.
  induction 1 as [|c t cells trees [Hc Ht] _ IH]; intros n row w rest Hw Hn;
    (destruct n as [|n]; [lia|]); cbn [Parser.parse_table_row].
  - destruct (read_stream w _ _ Hw) as (w' & Hr & Hs & He).
    rewrite (bindM_step _ _ _ _ _ Hr). cbn [type]. rewrite app_nil_r.
    exists w'. auto.
  - cbn [map] in Hw. rewrite cells_tokens_cons, <- app_assoc in Hw.
    cbn [app] in Hw.
    destruct (cell_lex c ++ cell_end :: cells_tokens (map cell_lex cells) ++ rest)
      as [|tok s] eqn:E; [destruct (cell_lex c); discriminate|].
    pose proof (cell_first_token c _ tok s Hc E) as Hty.
    destruct (read_stream w _ _ Hw) as (w1 & Hr & Hs1 & He1).
    rewrite (bindM_step _ _ _ _ _ Hr), (not_row_end tok _ _ Hty).
    destruct (unread_stream tok w1) as (w2 & Hu & Hs2 & He2).
    rewrite (bindM_step _ _ _ _ _ Hu).
    rewrite Hs1, <- E in Hs2.
    assert (Hsize : Parser.size w2 = Parser.size w).
    { rewrite !size_stream, Hs2, Hw, E. reflexivity. }
    destruct (parse_cell_in_row c t n w2 _ _ (cell_text_lex c Hc) Ht Hs2
                ltac:(lia)) as (w3 & Hcell & Hs3 & He3).
    rewrite (bindM_step _ _ _ _ _ Hcell).
    destruct (IH n (row ++ [t]) w3 rest Hs3) as (w4 & Hrow & Hs4 & He4).
    { rewrite size_stream, Hs3. rewrite size_stream, Hs2 in Hsize.
      rewrite length_app in Hsize. cbn [length] in Hsize.
      rewrite <- Hsize in Hn. lia. }
    exists w4. rewrite Hrow, <- app_assoc. repeat split; try assumption.
    congruence.
Qed.

Lemma rows_tokens_cons cells rows :
  rows_tokens (cells :: rows)
  = row_begin :: cells_tokens (map cell_lex cells) ++ rows_tokens rows.
Proof. reflexivity. Qed.

Lemma cells_tokens_length cells : 0 < length (cells_tokens cells).
Proof. unfold cells_tokens. rewrite length_app. simpl. lia. Qed.

(** The loop of [parse_table] over the rows of entries, up to a token
    that begins no row. *)
Lemma parse_table_entries_rows rows trees :
  Forall2 cells_parse rows trees ->
  forall entries n acc w tok rest,
    mapM Entry_init trees = Ok entries ->
    stream w = rows_tokens rows ++ tok :: rest ->
    type tok <> TABLE_ROW_BEGIN ->
    Parser.size w + 1 < n ->
    exists w',
      Parser.parse_table_entries n acc w = Some (Ok (acc ++ entries, w'))
      /\ stream w' = tok :: rest
      /\ Parser.tokenizer_end w' = Parser.tokenizer_end w.
Proof.
  induction 1 as [|cells ts rows trees Hcells _ IH];
    intros entries n acc w tok rest Hent Hw Hty Hn;
    (destruct n as [|n]; [lia|]); cbn [Parser.parse_table_entries].
  - injection Hent as <-. cbn [rows_tokens map concat app] in Hw.
    destruct (read_stream w _ _ Hw) as (w1 & Hr & Hs1 & He1).
    rewrite (bindM_step _ _ _ _ _ Hr), (not_row_begin tok _ _ Hty).
    destruct (unread_stream tok w1) as (w2 & Hu & Hs2 & He2).
    rewrite (bindM_step _ _ _ _ _ Hu). exists w2. rewrite app_nil_r.
    repeat split; congruence.
  - cbn [mapM] in Hent. apply bind_Ok in Hent as (entry & Hentry & Hent).
    apply bind_Ok in Hent as (entries' & Hentries & Hent).
    injection Hent as <-.
    rewrite rows_tokens_cons in Hw. cbn [app] in Hw.
    destruct (read_stream w _ _ Hw) as (w1 & Hr & Hs1 & He1).
    rewrite (bindM_step _ _ _ _ _ Hr). cbn [row_begin type].
    rewrite <- app_assoc in Hs1.
    assert (Hsize1 : S (Parser.size w1) = Parser.size w).
    { rewrite !size_stream, Hs1, Hw. cbn [length]. rewrite !length_app. lia. }
    destruct (parse_table_row_cells cells ts Hcells n [] w1 _ Hs1 ltac:(lia))
      as (w2 & Hrow & Hs2 & He2).
    rewrite (bindM_step _ _ _ _ _ Hrow). cbn [app].
    unfold Parser.lift, Parser.bindM at 1. rewrite Hentry.
    destruct (IH entries' n (acc ++ [entry]) w2 tok rest Hentries Hs2 Hty)
      as (w3 & Hrest & Hs3 & He3).
    { pose proof (cells_tokens_length (map cell_lex cells)) as Hlen.
      rewrite size_stream, Hs2. rewrite size_stream, Hs1, length_app in Hsize1.
      lia. }
    exists w3. rewrite Hrest, <- app_assoc. repeat split; congruence.
Qed.

(** [parse_table] on the tokens of a header row, a separator row and rows
    of entries. *)
Lemma parse_table_rows header htrees separator strees seps rows trees entries :
  cells_parse header htrees ->
  Parser.stripped_texts htrees = Ok EXPECTED_COLUMN_NAMES ->
  cells_parse separator strees ->
  Parser.stripped_texts strees = Ok seps ->
  forallb Parser.separator_ok seps = true ->
  Forall2 cells_parse rows trees ->
  mapM Entry_init trees = Ok entries ->
  forall n w tok rest,
    stream w = cells_tokens (map cell_lex header)
               ++ row_tokens (map cell_lex separator)
               ++ rows_tokens rows ++ tok :: rest ->
    type tok <> TABLE_ROW_BEGIN ->
    Parser.size w + 1 < n ->
    exists w',
      Parser.parse_table n w = Some (Ok (entries, w'))
      /\ stream w' = tok :: rest
      /\ Parser.tokenizer_end w' = Parser.tokenizer_end w.
Proof.
  intros Hh Hnames Hs Hseps Hok Hrows Hent n w tok rest Hw Hty Hn.
  unfold Parser.parse_table, Parser.parse_table_header,
    Parser.parse_table_separator.
  destruct (parse_table_row_cells header htrees Hh n [] w _ Hw Hn)
    as (w1 & Hrow1 & Hs1 & He1).
  assert (Hheader :
    Parser.bindM (Parser.parse_table_row n [])
      (fun row => Parser.bindM (Parser.lift (Parser.stripped_texts row))
         (fun column_names =>
            Parser.lift (Parser.assert
              (Parser.string_list_eqb column_names EXPECTED_COLUMN_NAMES)))) w
    = Some (Ok (tt, w1))).
  { rewrite (bindM_step _ _ _ _ _ Hrow1). cbn [app].
    unfold Parser.bindM, Parser.lift. rewrite Hnames. reflexivity. }
  rewrite (bindM_step _ _ _ _ _ Hheader).
  assert (Hsize1 : Parser.size w1 < Parser.size w).
  { pose proof (cells_tokens_length (map cell_lex header)) as Hlen.
    rewrite !size_stream, Hs1, Hw, (length_app (cells_tokens _)). lia. }
  unfold row_tokens in Hs1. cbn [app] in Hs1.
  destruct (read_stream w1 _ _ Hs1) as (w2 & Hr & Hs2 & He2).
  assert (Hsize2 : S (Parser.size w2) = Parser.size w1).
  { rewrite !size_stream, Hs2, Hs1. reflexivity. }
  destruct (parse_table_row_cells separator strees Hs n [] w2 _ Hs2 ltac:(lia))
    as (w3 & Hrow3 & Hs3 & He3).
  assert (Hsep :
    Parser.bindM Parser.read_token
      (fun token =>
         Parser.bindM
           (Parser.lift (Parser.assert
                           (TokenType_eqb (type token) TABLE_ROW_BEGIN)))
           (fun _ => Parser.bindM (Parser.parse_table_row n [])
              (fun row => Parser.bindM (Parser.lift (Parser.stripped_texts row))
                 (fun separator0 =>
                    Parser.lift (Parser.assert
                      (forallb Parser.separator_ok separator0)))))) w1
    = Some (Ok (tt, w3))).
  { rewrite (bindM_step _ _ _ _ _ Hr). cbn [row_begin type TokenType_eqb].
    unfold Parser.assert at 1. unfold Parser.lift at 1.
    unfold Parser.bindM at 1.
    rewrite (bindM_step _ _ _ _ _ Hrow3). cbn [app].
    unfold Parser.bindM, Parser.lift. rewrite Hseps, Hok. reflexivity. }
  rewrite (bindM_step _ _ _ _ _ Hsep).
  assert (Hsize3 : Parser.size w3 < Parser.size w2).
  { pose proof (cells_tokens_length (map cell_lex separator)) as Hlen.
    rewrite !size_stream, Hs3, Hs2, (length_app (cells_tokens _)). lia. }
  destruct (parse_table_entries_rows rows trees Hrows entries n [] w3 tok rest
              Hent Hs3 Hty ltac:(lia)) as (w4 & Hentries & Hs4 & He4).
  exists w4. rewrite Hentries. repeat split; congruence.
Qed.

(** *** The tokens of rows *)

Module TokenizerRow.
Import Tokenizer.

Lemma table_cell_unget a s l t :
  table_cell (mkVars s [Some a] l t) = table_cell (mkVars (String a s) [] l t).
Proof. reflexivity. Qed.

Lemma loop_table_cell_unget n a s l t y :
  loop n state_table_cell (mkVars s [Some a] l t) y
  = loop n state_table_cell (mkVars (String a s) [] l t) y.
Proof. destruct n as [|n]; [reflexivity|]. cbn [loop call]. reflexivity. Qed.

Lemma begin_table_cell_char n a s y :
  Ascii.eqb a newline = false ->
  loop (S n) state_begin_table_cell (mkVars (String a s) [] [] []) y
  = loop n state_table_cell (mkVars (String a s) [] [] []) y.
Proof.
  intros Ha. rewrite TokenizerText.loop_S. cbn [call].
  unfold begin_table_cell, getchar. cbn [r unget_buf is_eol]. rewrite Ha.
  unfold ungetchar, set_r, set_unget_buf, set_tokens.
  cbn [r unget_buf literals_buf tokens]. rewrite app_nil_r.
  apply loop_table_cell_unget.
Qed.

Lemma begin_table_cell_newline n s y :
  loop (S n) state_begin_table_cell (mkVars (String newline s) [] [] []) y
  = loop n state_begin_line (mkVars s [] [] [])
      (y ++ [mkToken TABLE_ROW_END (Some nl)]).
Proof.
  rewrite TokenizerText.loop_S. cbn [call].
  unfold begin_table_cell, getchar. cbn [r unget_buf is_eol].
  rewrite Ascii.eqb_refl. unfold set_r. cbn [r unget_buf literals_buf tokens].
  change (mkVars s [] [] []) with (mkVars s [] (map Some []) []).
  rewrite TokenizerCell.emit_token by discriminate. reflexivity.
Qed.

(** The first character of a cell and its pipe is no newline. *)
Lemma cell_first_char c rest :
  cell_text c = true ->
  exists a s, c +:+ String "|" rest = String a s /\ Ascii.eqb a newline = false.
Proof.
  unfold cell_text. destruct c as [|a c].
  - intros _. exists "|"%char, rest. split; reflexivity.
  - cbn [lex]. destruct (Ascii.eqb a newline) eqn:E; [discriminate|].
    intros _. exists a, (c +:+ String "|" rest). split; [reflexivity | exact E].
Qed.

Lemma loop_cell c n yielded rest res :
  cell_text c = true ->
  loop n state_begin_table_cell (mkVars rest [] [] [])
    (yielded ++ cell_lex c ++ [cell_end]) = Some res ->
  loop (2 * String.length (c +:+ "|") + n) state_begin_table_cell
    (mkVars (c +:+ String "|" rest) [] [] []) yielded = Some res.
Proof.
  intros Hc H.
  apply TokenizerCell.loop_mono with (n := S (S (String.length c) + n));
    [|rewrite length_append; simpl; lia].
  destruct (cell_first_char c rest Hc) as (a & s & E & Ha).
  rewrite E, (begin_table_cell_char _ a s _ Ha), <- E.
  apply (TokenizerCell.loop_table_cell (String.length c) c (le_n _) []
           (cell_lex c)); [apply cell_text_lex, Hc | exact H].
Qed.

Lemma loop_cells cells :
  forall n yielded rest res,
    Forall (fun c => cell_text c = true) cells ->
    loop n state_begin_table_cell (mkVars rest [] [] [])
      (yielded
       ++ concat (map (fun toks => toks ++ [cell_end]) (map cell_lex cells)))
    = Some res ->
    loop (2 * String.length (concat_strings (map (fun c => c +:+ "|") cells)) + n)
      state_begin_table_cell
      (mkVars (concat_strings (map (fun c => c +:+ "|") cells) +:+ rest) [] [] [])
      yielded = Some res.
Proof.
  induction cells as [|c cells IH]; intros n yielded rest res Hc H.
  - simpl in *. rewrite app_nil_r in H. exact H.
  - apply Forall_cons in Hc as [Hc Hcs]. cbn [map concat_strings concat] in *.
    set (cs := concat_strings (map (fun c0 => c0 +:+ "|") cells)) in *.
    rewrite (append_assoc (c +:+ "|") cs rest), (append_assoc c "|" (cs +:+ rest)).
    change ("|" +:+ (cs +:+ rest)) with (String "|" (cs +:+ rest)).
    rewrite (length_append (c +:+ "|") cs).
    replace (2 * (String.length (c +:+ "|") + String.length cs) + n)
      with (2 * String.length (c +:+ "|") + (2 * String.length cs + n))
      by lia.
    apply loop_cell; [exact Hc|].
    apply IH; [exact Hcs|]. rewrite <- H, <- !app_assoc. reflexivity.
Qed.

Lemma row_line_append cells rest :
  row_line cells +:+ rest
  = String "|" (concat_strings (map (fun c => c +:+ "|") cells)
                +:+ String newline rest).
Proof.
  unfold row_line. rewrite !append_assoc. reflexivity.
Qed.

Lemma row_line_length cells :
  String.length (row_line cells)
  = S (S (String.length (concat_strings (map (fun c => c +:+ "|") cells)))).
Proof.
  unfold row_line.
  change ("|" +:+ ?x) with (String "|" x).
  cbn [String.length]. rewrite length_append. simpl. lia.
Qed.

(** The tokenizer on the line of a row, at the beginning of a line. *)
Lemma loop_row cells n yielded rest res :
  Forall (fun c => cell_text c = true) cells ->
  loop n state_begin_line (mkVars rest [] [] [])
    (yielded ++ row_tokens (map cell_lex cells)) = Some res ->
  loop (2 * String.length (row_line cells) + n) state_begin_line
    (mkVars (row_line cells +:+ rest) [] [] []) yielded = Some res.
Proof.
  intros Hc H. rewrite row_line_append, row_line_length.
  set (cs := concat_strings (map (fun c => c +:+ "|") cells)).
  apply TokenizerCell.loop_mono with (n := S (2 * String.length cs + S n));
    [|lia].
  change (mkVars (String "|" (cs +:+ String newline rest)) [] [] [])
    with (mkVars (String "|" (cs +:+ String newline rest)) [] (map Some []) []).
  rewrite TokenizerText.loop_row_begin. cbn [flushed app].
  apply loop_cells; [exact Hc|].
  rewrite begin_table_cell_newline. rewrite <- H. f_equal.
  unfold row_tokens, cells_tokens. rewrite <- !app_assoc. reflexivity.
Qed.

Lemma loop_rows rows :
  forall n yielded rest res,
    Forall (Forall (fun c => cell_text c = true)) rows ->
    loop n state_begin_line (mkVars rest [] [] [])
      (yielded ++ rows_tokens rows) = Some res ->
    loop (2 * String.length (concat_strings (map row_line rows)) + n)
      state_begin_line
      (mkVars (concat_strings (map row_line rows) +:+ rest) [] [] [])
      yielded = Some res.
Proof.
  induction rows as [|cells rows IH]; intros n yielded rest res Hc H.
  - simpl in *. rewrite app_nil_r in H. exact H.
  - apply Forall_cons in Hc as [Hc Hcs]. cbn [map concat_strings].
    set (rs := concat_strings (map row_line rows)) in *.
    rewrite (append_assoc (row_line cells) rs rest), length_append.
    replace (2 * (String.length (row_line cells) + String.length rs) + n)
      with (2 * String.length (row_line cells) + (2 * String.length rs + n))
      by lia.
    apply loop_row; [exact Hc|]. apply IH; [exact Hcs|].
    rewrite <- H, rows_tokens_cons. f_equal.
    unfold row_tokens. rewrite <- app_assoc. reflexivity.
Qed.

End TokenizerRow.

(** The tokens of rows and of the text after them. *)
Lemma tokenize_rows rows post :
  Forall (Forall (fun c => cell_text c = true)) rows ->
  no_row_line true post = true ->
  tokenize (concat_strings (map row_line rows) +:+ post)
  = Some (rows_tokens rows ++ text_token post ++ [mkToken EOF None], Done).
Proof.
  intros Hrows Hpost. unfold tokenize.
  set (rs := concat_strings (map row_line rows)).
  apply TokenizerCell.loop_mono
    with (n := 2 * String.length rs + (2 * String.length post + 3));
    [|unfold Tokenizer.bound; rewrite length_append; lia].
  apply (TokenizerRow.loop_rows rows _ [] post); [exact Hrows|].
  replace (Tokenizer.mkVars post [] [] [])
    with (Tokenizer.mkVars (post +:+ "") [] (map Some []) [])
    by (rewrite append_nil_r; reflexivity).
  apply (TokenizerText.loop_text post true [] 3 _ ""); [exact Hpost|].
  cbn [app]. rewrite TokenizerText.loop_text_eof, flushed_chars; [reflexivity|].
  destruct post; discriminate.
Qed.

(** *** The table *)

Lemma cells_parse_text cells trees :
  cells_parse cells trees -> Forall (fun c => cell_text c = true) cells.
Proof.
  induction 1 as [|c t cells trees [Hc _] _ IH]; constructor; assumption.
Qed.

(** The loop of [parse] on the text after the last table. *)
Lemma parser_loop_tail post n yielded w :
  stream w = text_token post ++ [mkToken EOF None] ->
  2 <= n ->
  Parser.loop n yielded w = Some (yielded ++ text_item post, Done).
Proof.
  intros Hw Hn. destruct n as [|[|n]]; try lia.
  destruct post as [|a post]; cbn [text_token text_item app] in *.
  - destruct (read_stream w _ _ Hw) as (w1 & Hr & _).
    cbn [Parser.loop]. rewrite Hr. cbn [type]. rewrite app_nil_r. reflexivity.
  - destruct (read_stream w _ _ Hw) as (w1 & Hr & Hs1 & _).
    destruct (read_stream w1 _ _ Hs1) as (w2 & Hr2 & _).
    cbn [Parser.loop]. rewrite Hr. cbn [type text]. rewrite Hr2. reflexivity.
Qed.

(** The first token after the rows begins no row. *)
Lemma tail_first_token post :
  exists tok rest,
    text_token post ++ [mkToken EOF None] = tok :: rest
    /\ type tok <> TABLE_ROW_BEGIN.
Proof.
  destruct post as [|a post]; eexists _, _; split; try reflexivity;
    discriminate.
Qed.

Lemma parse_rows header htrees separator strees seps rows trees entries post :
  no_row_line true post = true ->
  cells_parse header htrees ->
  Parser.stripped_texts htrees = Ok EXPECTED_COLUMN_NAMES ->
  cells_parse separator strees ->
  Parser.stripped_texts strees = Ok seps ->
  forallb Parser.separator_ok seps = true ->
  Forall2 cells_parse rows trees ->
  mapM Entry_init trees = Ok entries ->
  parse (concat_strings (map row_line (header :: separator :: rows)) +:+ post)
  = Some (Table entries :: text_item post, Done).
Proof.
  intros Hpost Hh Hnames Hs Hseps Hok Hrows Hent. unfold parse.
  rewrite tokenize_rows; [|repeat constructor|exact Hpost].
  2:{ exact (cells_parse_text _ _ Hh). }
  2:{ exact (cells_parse_text _ _ Hs). }
  2:{ clear Hent. induction Hrows as [|r t rows trees Hr _ IH];
        constructor; [exact (cells_parse_text _ _ Hr) | exact IH]. }
  cbv zeta.
  destruct (tail_first_token post) as (tok & rest & Etail & Hty).
  rewrite !rows_tokens_cons, Etail.
  set (body := (cells_tokens (map cell_lex header)
                ++ row_begin :: cells_tokens (map cell_lex separator)
                   ++ rows_tokens rows) ++ tok :: rest).
  change ((row_begin
           :: cells_tokens (map cell_lex header)
              ++ row_begin :: cells_tokens (map cell_lex separator)
                 ++ rows_tokens rows) ++ tok :: rest)
    with (row_begin :: body).
  change (Parser.size (Parser.init (row_begin :: body) Done) + 2)
    with (S (Parser.size (Parser.init body Done) + 2)).
  cbn [Parser.loop Parser.read_token Parser.init Parser.unread_buf
       Parser.tokenizer Parser.tokenizer_end row_begin type].
  destruct (parse_table_rows header htrees separator strees seps rows trees
              entries Hh Hnames Hs Hseps Hok Hrows Hent
              (Parser.size (Parser.init body Done) + 2)
              (Parser.mkVars [] body Done) tok rest)
    as (w' & Htable & Hs' & _).
  - unfold stream, body, row_tokens.
    cbn [Parser.unread_buf Parser.tokenizer app].
    rewrite <- !app_assoc. cbn [app]. rewrite <- !app_assoc. reflexivity.
  - exact Hty.
  - unfold Parser.init. lia.
  - unfold Parser.init in *. rewrite Htable.
    rewrite (parser_loop_tail post _ _ w'); [reflexivity| |lia].
    rewrite Hs'. symmetry. exact Etail.
Qed.

(** X13: a table is parsed row by row.  For an input made of text, the
    line of a header row, the line of a separator row, the lines of rows,
    and text after them, in which every cell text is the text of one cell,
    the header cells have the expected column names and the separator
    cells pass the separator test: [parse] yields the text before, one
    table with one entry for each row line, in order, built by [Entry]
    from the trees that the cell texts of that line parse to on their own,
    and the text after. *)
Theorem parse_table_by_rows
    pre header htrees separator strees seps rows trees entries post :
  no_row_line true pre = true ->
  line_start true pre = true ->
  no_row_line true post = true ->
  cells_parse header htrees ->
  Parser.stripped_texts htrees = Ok EXPECTED_COLUMN_NAMES ->
  cells_parse separator strees ->
  Parser.stripped_texts strees = Ok seps ->
  forallb Parser.separator_ok seps = true ->
  Forall2 cells_parse rows trees ->
  mapM Entry_init trees = Ok entries ->
  parse (pre +:+ row_line header +:+ row_line separator
         +:+ concat_strings (map row_line rows) +:+ post)
  = Some (text_item pre ++ Table entries :: text_item post, Done).
Proof.
  intros Hpre Hls Hpost Hh Hnames Hs Hseps Hok Hrows Hent.
  pose proof (parse_rows header htrees separator strees seps rows trees
                entries post Hpost Hh Hnames Hs Hseps Hok Hrows Hent) as H.
  cbn [map concat_strings] in H. rewrite !append_assoc in H.
  rewrite TokenizerRow.row_line_append in *.
  rewrite (parse_after_text pre _ Hpre Hls), H. reflexivity.
Qed.

Lemma parse_table_by_rows_witness :
  parse (("Timeline" +:+ nl)
         +:+ row_line [" start date "; " end date "; " places "; " protocols ";
                       " description "; " links "; " ? "]
         +:+ row_line ["---"; "---"; "---"; "---"; ":---"; "---"; "---:"]
         +:+ concat_strings
               (map row_line
                  [["2020-01-01"; "ongoing"; "US DE"; "tor"; "Some event";
                    "[ref](http://x)"; ""];
                   ["~2021-03-04 05:06"; ""; ""; ""; "`x`"; ""; "?"]])
         +:+ "end")
  = Some (text_item ("Timeline" +:+ nl)
          ++ Table [example_entry;
                    mkEntry
                      (Some (a_datetime (mkDatetime (mkDate 2021 3 4) 5 6 0)))
                      true None false false ∅ ∅ (Markdown [MarkdownCode "x"])
                      [] true]
             :: text_item "end", Done).
Proof.
  apply (parse_table_by_rows ("Timeline" +:+ nl)
           [" start date "; " end date "; " places "; " protocols ";
            " description "; " links "; " ? "]
           [cell " start date "; cell " end date "; cell " places ";
            cell " protocols "; cell " description "; cell " links ";
            cell " ? "]
           ["---"; "---"; "---"; "---"; ":---"; "---"; "---:"]
           [cell "---"; cell "---"; cell "---"; cell "---"; cell ":---";
            cell "---"; cell "---:"]
           ["---"; "---"; "---"; "---"; ":---"; "---"; "---:"]
           [["2020-01-01"; "ongoing"; "US DE"; "tor"; "Some event";
             "[ref](http://x)"; ""];
            ["~2021-03-04 05:06"; ""; ""; ""; "`x`"; ""; "?"]]
           [[cell "2020-01-01"; cell "ongoing"; cell "US DE"; cell "tor";
             cell "Some event"; Markdown [sample_link]; Markdown []];
            [cell "~2021-03-04 05:06"; Markdown []; Markdown []; Markdown [];
             Markdown [MarkdownCode "x"]; Markdown []; cell "?"]]);
    try (vm_compute; reflexivity);
    repeat (constructor; [try (split; vm_compute; reflexivity)|]);
    constructor.
Defined.
(** ** Cells that are read back as they were written *)

(** *** The tokens of a serialization *)

Lemma special_bare a ty :
  special a = Some ty ->
  Ascii.eqb a newline = false /\ Ascii.eqb a "|" = false
  /\ Ascii.eqb a "\" = false.
Proof.
  intros H. apply ParserCell.special_cases in H.
  destruct H as [[-> ->]|[[-> ->]|[[-> ->]|[[-> ->]|[-> ->]]]]];
    repeat split; reflexivity.
Qed.

(** A character that is a token of its own: the literal read so far is
    flushed before it. *)
Lemma lex_special buf a ty rest :
  special a = Some ty ->
  lex buf (String a rest)
  = option_map (fun tr => flushed buf ++ mkToken ty (Some (str1 a)) :: tr)
      (lex [] rest).
Proof.
  intros H. destruct (special_bare a ty H) as (Hn & Hp & Hb).
  cbn [lex]. rewrite Hn, Hp, Hb, H. simpl orb. cbv iota.
  destruct (lex [] rest); reflexivity.
Qed.

Lemma lex_flush buf rest :
  starts_special rest = true ->
  lex buf rest = option_map (app (flushed buf)) (lex [] rest).
Proof.
  destruct rest as [|a r]; cbn [starts_special].
  - intros _. simpl. rewrite app_nil_r. reflexivity.
  - destruct (special a) as [ty|] eqn:E; [|discriminate]. intros _.
    rewrite !(lex_special _ a ty r E). destruct (lex [] r); reflexivity.
Qed.

(** What was lexed, and then a character that is a token of its own. *)
Lemma lex_then_special m :
  forall x, String.length x <= m ->
  forall buf tx a ty rest,
    lex buf x = Some tx -> special a = Some ty ->
    lex buf (x +:+ String a rest)
    = option_map (fun tr => tx ++ mkToken ty (Some (str1 a)) :: tr)
        (lex [] rest).
Proof.
  induction m as [|m IH]; intros x Hm buf tx a ty rest Hx Ha.
  - destruct x; [|simpl in Hm; lia]. simpl in Hx. injection Hx as <-.
    apply lex_special. exact Ha.
  - destruct x as [|b x].
    { simpl in Hx. injection Hx as <-. apply lex_special. exact Ha. }
    simpl in Hm. change (String b x +:+ String a rest)
      with (String b (x +:+ String a rest)).
    cbn [lex] in Hx |- *.
    destruct (Ascii.eqb b newline || Ascii.eqb b "|"); [discriminate|].
    destruct (Ascii.eqb b "\").
    + destruct x as [|d x]; [discriminate|]. simpl in Hm.
      change (String d x +:+ String a rest)
        with (String d (x +:+ String a rest)).
      cbv iota.
      destruct (Ascii.eqb d newline); [discriminate|].
      destruct (in_string d punctuation);
        apply (IH x ltac:(lia) _ tx a ty rest Hx Ha).
    + destruct (special b) as [tb|].
      * destruct (lex [] x) as [toks|] eqn:E; [|discriminate].
        injection Hx as <-.
        rewrite (IH x ltac:(lia) [] toks a ty rest E Ha).
        destruct (lex [] rest); simpl; [|reflexivity].
        rewrite <- app_assoc. reflexivity.
      * apply (IH x ltac:(lia) _ tx a ty rest Hx Ha).
Qed.

Section Escaped.
Variable chars : string.
Hypothesis escaped_punctuation :
  forall a, in_string a chars = true -> in_string a punctuation = true.

Lemma escaped_char a s :
  Ascii.eqb a "\" || in_string a chars = true ->
  backslash_escape (String a s) chars
  = String "\" (String a (backslash_escape s chars))
  /\ in_string a punctuation = true.
Proof.
  intros H. cbn [backslash_escape]. rewrite H. split; [reflexivity|].
  apply orb_prop in H as [H|H]; [|exact (escaped_punctuation a H)].
  apply Ascii.eqb_eq in H. subst a. reflexivity.
Qed.

Lemma bare_char a s :
  Ascii.eqb a "\" || in_string a chars = false ->
  backslash_escape (String a s) chars = String a (backslash_escape s chars).
Proof. intros H. cbn [backslash_escape]. rewrite H. reflexivity. Qed.

(** The characters of a literal, escaped: the tokenizer adds them to the
    literal that it is reading. *)
Lemma lex_literal s :
  forall buf rest,
    all_chars (literal_char chars) s = true ->
    lex buf (backslash_escape s chars +:+ rest)
    = lex (buf ++ map str1 (list_ascii_of_string s)) rest.
Proof.
  induction s as [|a s IH]; intros buf rest H.
  - simpl. rewrite app_nil_r. reflexivity.
  - cbn [all_chars] in H. apply andb_prop in H as [Ha Hs].
    unfold literal_char in Ha.
    apply andb_prop in Ha as [Ha Hc]. apply andb_prop in Ha as [Hn Hp].
    apply negb_true_iff in Hn, Hp.
    cbn [list_ascii_of_string map].
    replace (buf ++ str1 a :: map str1 (list_ascii_of_string s))
      with ((buf ++ [str1 a]) ++ map str1 (list_ascii_of_string s))
      by (rewrite <- app_assoc; reflexivity).
    rewrite <- (IH (buf ++ [str1 a]) rest Hs).
    destruct (Ascii.eqb a "\" || in_string a chars) eqn:E.
    + destruct (escaped_char a s E) as [-> Hpu].
      change (String "\" (String a (backslash_escape s chars)) +:+ rest)
        with (String "\" (String a (backslash_escape s chars +:+ rest))).
      cbn [lex]. rewrite Hn, Hpu. reflexivity.
    + rewrite (bare_char a s E). apply orb_false_elim in E as [Eb Ec].
      rewrite Ec in Hc. simpl in Hc.
      change (String a (backslash_escape s chars) +:+ rest)
        with (String a (backslash_escape s chars +:+ rest)).
      cbn [lex]. rewrite Hn, Hp, Eb. simpl orb. cbv iota.
      destruct (special a); [discriminate | reflexivity].
Qed.

(** The tokens of an escaped text without newline or pipe: their texts
    put together are the text, and one of the five one-character tokens
    among them is a character of the text that is not escaped. *)
Lemma lex_escaped_text s :
  forall buf,
    free_of (String newline "|") s = true ->
    exists tx,
      lex buf (backslash_escape s chars) = Some tx
      /\ src tx = concat_strings buf +:+ s
      /\ Forall (fun tok =>
           text tok = Some (token_text tok)
           /\ (type tok = LITERAL
               \/ exists a, special a = Some (type tok)
                            /\ in_string a chars = false
                            /\ in_string a s = true)) tx.
Proof.
  induction s as [|a s IH]; intros buf H.
  - exists (flushed buf). split; [reflexivity|]. split.
    + rewrite src_flushed, append_nil_r. reflexivity.
    + destruct buf; constructor; [|constructor]. split; [reflexivity|].
      left. reflexivity.
  - unfold free_of in H. cbn [all_chars in_string] in H.
    apply andb_prop in H as [Ha Hs]. apply negb_true_iff in Ha.
    assert (Hn : Ascii.eqb a newline = false)
      by (destruct (Ascii.eqb a newline); [discriminate | reflexivity]).
    assert (Hp : Ascii.eqb a "|" = false).
    { rewrite Hn in Ha. destruct (Ascii.eqb a "|"); [discriminate | reflexivity]. }
    assert (Hmono : forall tx,
      Forall (fun tok =>
           text tok = Some (token_text tok)
           /\ (type tok = LITERAL
               \/ exists b, special b = Some (type tok)
                            /\ in_string b chars = false
                            /\ in_string b s = true)) tx ->
      Forall (fun tok =>
           text tok = Some (token_text tok)
           /\ (type tok = LITERAL
               \/ exists b, special b = Some (type tok)
                            /\ in_string b chars = false
                            /\ in_string b (String a s) = true)) tx).
    { intros tx. apply List.Forall_impl. intros tok [Ht [Hl|(b & H1 & H2 & H3)]].
      - split; [exact Ht | left; exact Hl].
      - split; [exact Ht|]. right. exists b. repeat split; try assumption.
        cbn [in_string]. rewrite H3. destruct (Ascii.eqb b a); reflexivity. }
    assert (Hsnoc : concat_strings (buf ++ [str1 a]) +:+ s
                    = concat_strings buf +:+ String a s).
    { rewrite concat_strings_app, append_assoc. reflexivity. }
    destruct (Ascii.eqb a "\" || in_string a chars) eqn:E.
    + destruct (escaped_char a s E) as [-> Hpu].
      destruct (IH (buf ++ [str1 a]) Hs) as (tx & Hlex & Hsrc & Htx).
      exists tx. split; [|split; [|apply Hmono, Htx]].
      * cbn [lex]. rewrite Hn, Hpu. exact Hlex.
      * rewrite Hsrc. exact Hsnoc.
    + rewrite (bare_char a s E). apply orb_false_elim in E as [Eb Ec].
      cbn [lex]. rewrite Hn, Hp, Eb. simpl orb. cbv iota.
      destruct (special a) as [ty|] eqn:Hsp.
      * destruct (IH [] Hs) as (tx & Hlex & Hsrc & Htx). rewrite Hlex.
        exists (flushed buf ++ mkToken ty (Some (str1 a)) :: tx).
        split; [reflexivity|]. split.
        -- rewrite src_app, src_flushed, src_cons, Hsrc. reflexivity.
        -- apply Forall_app. split.
           ++ destruct buf; constructor; [|constructor].
              split; [reflexivity | left; reflexivity].
           ++ constructor; [|apply Hmono, Htx]. split; [reflexivity|].
              right. exists a. repeat split; try assumption.
              cbn [in_string]. rewrite Ascii.eqb_refl. reflexivity.
      * destruct (IH (buf ++ [str1 a]) Hs) as (tx & Hlex & Hsrc & Htx).
        exists tx. split; [exact Hlex|]. split; [|apply Hmono, Htx].
        rewrite Hsrc. exact Hsnoc.
Qed.

End Escaped.
Lemma option_map_app {A : Type} (l1 l2 : list A) (o : option (list A)) :
  option_map (app l1) (option_map (app l2) o) = option_map (app (l1 ++ l2)) o.
Proof. destruct o; simpl; [rewrite app_assoc|]; reflexivity. Qed.

Lemma option_map_cons {A : Type} (x : A) (l2 : list A) (o : option (list A)) :
  option_map (fun tr => x :: tr) (option_map (app l2) o)
  = option_map (app (x :: l2)) o.
Proof. destruct o; reflexivity. Qed.

Lemma one_of_inv chars s :
  one_of chars s = true -> exists a, s = str1 a /\ in_string a chars = true.
Proof.
  destruct s as [|a [|b s]]; try discriminate. intros H. exists a. auto.
Qed.

Lemma shape_list_impl (ok1 ok2 : Node -> bool) singles :
  (forall x, ok1 x = true -> ok2 x = true) ->
  forall l prev,
    shape_list ok1 singles prev l = true -> shape_list ok2 singles prev l = true.
Proof.
  intros Hok. induction l as [|x l IH]; intros prev H; [exact H|].
  cbn [shape_list] in H |- *.
  apply andb_prop in H as [H Hl]. apply andb_prop in H as [Hf Hx].
  rewrite Hf, (Hok x Hx), (IH _ Hl). reflexivity.
Qed.

Lemma shape_list_and (ok1 ok2 : Node -> bool) singles :
  forall l prev,
    shape_list ok1 singles prev l = true -> forallb ok2 l = true ->
    shape_list (fun x => ok1 x && ok2 x) singles prev l = true.
Proof.
  induction l as [|x l IH]; intros prev H H2; [exact H|].
  cbn [shape_list forallb] in H, H2 |- *.
  apply andb_prop in H as [H Hl]. apply andb_prop in H as [Hf Hx].
  apply andb_prop in H2 as [Hx2 Hl2].
  rewrite Hf, Hx, Hx2, (IH _ Hl Hl2). reflexivity.
Qed.

Section Leaves.
Variables singles chars : string.
Hypothesis escaped_punctuation :
  forall a, in_string a chars = true -> in_string a punctuation = true.
Hypothesis singles_tokens :
  forall a, in_string a singles = true ->
    (exists ty, special a = Some ty) /\ in_string a chars = false.

Lemma single_text a :
  in_string a singles = true ->
  exists ty,
    special a = Some ty
    /\ leaf_text chars (MarkdownLiteral (Some (str1 a))) = str1 a
    /\ leaf_tokens singles chars (MarkdownLiteral (Some (str1 a)))
       = [mkToken ty (Some (str1 a))].
Proof.
  intros H. destruct (singles_tokens a H) as [[ty Hty] Hc]. exists ty.
  split; [exact Hty|]. destruct (special_bare a ty Hty) as (_ & _ & Hb).
  split.
  - unfold leaf_text, str1. apply bare_char. rewrite Hb, Hc. reflexivity.
  - unfold leaf_tokens. cbn [one_of str1]. rewrite H. unfold cell_lex, str1.
    rewrite (lex_special [] a ty "" Hty). reflexivity.
Qed.

(** What follows a literal that the tokenizer may extend begins with a
    token of its own. *)
Lemma leaf_starts_special x rest :
  leaf_ok singles chars x = true -> fits singles open_literal x = true ->
  starts_special (leaf_text chars x +:+ rest) = true.
Proof.
  destruct x as [l|[s|]|s|l h]; try discriminate; intros Hok Hfit.
  - cbn [fits is_literal negb orb token_literal] in Hfit.
    apply one_of_inv in Hfit as (a & -> & Ha).
    destruct (single_text a Ha) as (ty & Hty & -> & _).
    change (str1 a +:+ rest) with (String a rest).
    cbn [starts_special]. rewrite Hty. reflexivity.
  - reflexivity.
Qed.

(** The tokens of the serialization of a literal or code span. *)
Lemma lex_leaf x X :
  leaf_ok singles chars x = true ->
  (next_before singles x = open_literal -> starts_special X = true) ->
  lex [] (leaf_text chars x +:+ X)
  = option_map (app (leaf_tokens singles chars x)) (lex [] X).
Proof.
  intros Hx HX. destruct x as [c|[s|]|s|lb h]; try discriminate.
  - (* a literal *)
    cbn [leaf_ok] in Hx. destruct (one_of singles s) eqn:E1.
    + apply one_of_inv in E1 as (a & -> & Ha).
      destruct (single_text a Ha) as (ty & Hty & -> & ->).
      change (str1 a +:+ X) with (String a X).
      rewrite (lex_special [] a ty X Hty). destruct (lex [] X); reflexivity.
    + simpl in Hx. apply andb_prop in Hx as [Hne Hs].
      cbn [leaf_text leaf_tokens]. rewrite E1.
      rewrite (lex_literal chars escaped_punctuation s [] X Hs).
      cbn [app]. rewrite lex_flush.
      * rewrite flushed_chars. destruct s; [discriminate | reflexivity].
      * apply HX. cbn [next_before token_literal]. rewrite E1. reflexivity.
  - (* a code span *)
    cbn [leaf_ok] in Hx. apply andb_prop in Hx as [Hs _].
    cbn [leaf_text leaf_tokens]. rewrite !append_assoc.
    change ("`" +:+ (backslash_escape s chars +:+ ("`" +:+ X)))
      with (String "`" (backslash_escape s chars +:+ String "`" X)).
    rewrite (lex_special [] "`" BACKTICK _ eq_refl).
    destruct (lex_escaped_text chars escaped_punctuation s [] Hs)
      as (tx & Hlex & _).
    rewrite (lex_then_special _ _ (le_n _) [] tx "`" BACKTICK X Hlex eq_refl).
    unfold cell_lex. rewrite Hlex. destruct (lex [] X); simpl; [|reflexivity].
    rewrite <- app_assoc. reflexivity.
Qed.

(** The tokens of the serialization of literals and code spans. *)
Lemma lex_leaves :
  forall l prev rest,
    shape_list (leaf_ok singles chars) singles prev l = true ->
    starts_special rest = true ->
    lex [] (concat_strings (map (leaf_text chars) l) +:+ rest)
    = option_map (app (flat_map (leaf_tokens singles chars) l)) (lex [] rest)
    /\ (prev = open_literal ->
        starts_special (concat_strings (map (leaf_text chars) l) +:+ rest)
        = true).
Proof.
  induction l as [|x l IH]; intros prev rest H Hrest.
  { split; [|intros _; exact Hrest].
    cbn [map concat_strings flat_map]. change ("" +:+ rest) with rest.
    destruct (lex [] rest); reflexivity. }
  cbn [shape_list] in H. apply andb_prop in H as [H Hl].
  apply andb_prop in H as [Hfit Hx].
  destruct (IH _ rest Hl Hrest) as [IH1 IH2].
  cbn [map concat_strings flat_map]. rewrite append_assoc.
  split.
  - rewrite <- option_map_app, <- IH1. apply lex_leaf; assumption.
  - intros ->. apply leaf_starts_special; assumption.
Qed.

End Leaves.

Lemma chars_punctuation chars :
  forallb (fun a => in_string a punctuation) (list_ascii_of_string chars)
  = true ->
  forall a, in_string a chars = true -> in_string a punctuation = true.
Proof.
  induction chars as [|c chars IH]; [discriminate|].
  cbn [list_ascii_of_string forallb in_string]. intros H a.
  apply andb_prop in H as [Hc Hs].
  destruct (Ascii.eqb a c) eqn:E; [|exact (IH Hs a)].
  apply Ascii.eqb_eq in E. subst a. intros _. exact Hc.
Qed.

Lemma singles_special singles chars :
  forallb (fun a => match special a with
                    | Some _ => negb (in_string a chars)
                    | None => false
                    end) (list_ascii_of_string singles) = true ->
  forall a, in_string a singles = true ->
    (exists ty, special a = Some ty) /\ in_string a chars = false.
Proof.
  induction singles as [|c singles IH]; [discriminate|].
  cbn [list_ascii_of_string forallb in_string]. intros H a.
  apply andb_prop in H as [Hc Hs].
  destruct (Ascii.eqb a c) eqn:E; [|exact (IH Hs a)].
  apply Ascii.eqb_eq in E. subst a. intros _.
  destruct (special c) as [ty|]; [|discriminate].
  apply negb_true_iff in Hc. eauto.
Qed.

(** The text of a child that follows bracketed text or a literal begins
    with a token of its own. *)
Lemma child_starts_special prev x rest :
  prev <> at_first ->
  child_ok x = true -> fits "]()" prev x = true ->
  starts_special (child_text x +:+ rest) = true.
Proof.
  intros Hprev Hok Hfit.
  assert (Hleaf : leaf_ok "]()" "`" x = true ->
                  fits "]()" open_literal x = true ->
                  starts_special (leaf_text "`" x +:+ rest) = true).
  { apply leaf_starts_special. apply singles_special. reflexivity. }
  destruct x as [[|[|[s|]| |] l]|[s|]|s|[l| | |] h]; try discriminate;
    try reflexivity;
    destruct prev; try congruence; try discriminate;
    apply Hleaf; assumption.
Qed.

(** The tokens of the serialization of the children of a cell. *)
Lemma lex_children :
  forall l prev rest,
    shape_list child_ok "]()" prev l = true ->
    starts_special rest = true ->
    lex [] (concat_strings (map child_text l) +:+ rest)
    = option_map (app (flat_map child_tokens l)) (lex [] rest)
    /\ (prev <> at_first ->
        starts_special (concat_strings (map child_text l) +:+ rest) = true).
Proof.
  induction l as [|x l IH]; intros prev rest H Hrest.
  { split; [|intros _; exact Hrest].
    cbn [map concat_strings flat_map]. change ("" +:+ rest) with rest.
    destruct (lex [] rest); reflexivity. }
  cbn [shape_list] in H. apply andb_prop in H as [H Hl].
  apply andb_prop in H as [Hfit Hx].
  destruct (IH _ rest Hl Hrest) as [IH1 IH2].
  cbn [map concat_strings flat_map]. rewrite append_assoc.
  set (X := concat_strings (map child_text l) +:+ rest) in *.
  split.
  2:{ intros Hprev. apply (child_starts_special prev); assumption. }
  rewrite <- option_map_app, <- IH1.
  assert (Hleaf : leaf_ok "]()" "`" x = true ->
                  (next_before "]()" x = open_literal ->
                   starts_special X = true) ->
                  lex [] (leaf_text "`" x +:+ X)
                  = option_map (app (leaf_tokens "]()" "`" x)) (lex [] X)).
  { apply lex_leaf; [apply chars_punctuation | apply singles_special];
      reflexivity. }
  assert (Hnext : next_before "]()" x <> at_first -> starts_special X = true)
    by exact IH2.
  clearbody X. clear IH1 IH2 Hl Hrest IH.
  destruct x as [[|[|[s|]| |] lb]|[s|]|s|[lb| | |] h]; try discriminate.
  - (* bracketed text *)
    cbn [child_ok] in Hx. apply andb_prop in Hx as [_ Hlb].
    cbn [child_text child_tokens]. rewrite append_assoc.
    change ("[" +:+ (concat_strings (map (leaf_text "`") lb) +:+ X))
      with (String "[" (concat_strings (map (leaf_text "`") lb) +:+ X)).
    rewrite (lex_special [] "[" OPEN_BRACKET _ eq_refl).
    destruct (lex_leaves "()" "`"
                (chars_punctuation "`" eq_refl)
                (singles_special "()" "`" eq_refl) lb at_first X Hlb)
      as [-> _].
    + apply Hnext. discriminate.
    + cbn [flushed app]. apply option_map_cons.
  - (* a literal *)
    apply Hleaf; [exact Hx|]. intros E. apply Hnext. rewrite E. discriminate.
  - (* a code span *)
    apply Hleaf; [exact Hx|]. intros E. discriminate.
  - (* a link *)
    cbn [child_ok] in Hx. apply andb_prop in Hx as [Hlb Hh].
    cbn [child_text child_tokens]. rewrite !append_assoc.
    set (L := concat_strings (map (leaf_text "[]") lb)).
    change ("[" +:+ (L +:+ ("](" +:+ (backslash_escape h "()" +:+ (")" +:+ X)))))
      with (String "[" (L +:+ String "]" (String "("
              (backslash_escape h "()" +:+ String ")" X)))).
    rewrite (lex_special [] "[" OPEN_BRACKET _ eq_refl). subst L.
    destruct (lex_leaves "()" "[]"
                (chars_punctuation "[]" eq_refl)
                (singles_special "()" "[]" eq_refl) lb at_first
                (String "]" (String "("
                   (backslash_escape h "()" +:+ String ")" X))) Hlb eq_refl)
      as [-> _].
    rewrite (lex_special [] "]" CLOSE_BRACKET _ eq_refl).
    rewrite (lex_special [] "(" OPEN_PAREN _ eq_refl).
    destruct (lex_escaped_text "()" (chars_punctuation "()" eq_refl) h [] Hh)
      as (tx & Hlex & _).
    rewrite (lex_then_special _ _ (le_n _) [] tx ")" CLOSE_PAREN X Hlex eq_refl).
    unfold cell_lex. rewrite Hlex. destruct (lex [] X); simpl; [|reflexivity].
    rewrite <- !app_assoc. cbn [app]. rewrite <- !app_assoc. reflexivity.
Qed.
(** *** The parser on the tokens of a serialization *)

Lemma free_of_in chars s a :
  free_of chars s = true -> in_string a s = true -> in_string a chars = false.
Proof.
  unfold free_of. induction s as [|b s IH]; [discriminate|].
  cbn [all_chars in_string]. intros H. apply andb_prop in H as [Hb Hs].
  destruct (Ascii.eqb a b) eqn:E; [|exact (IH Hs)].
  apply Ascii.eqb_eq in E. subst b. intros _.
  apply negb_true_iff in Hb. exact Hb.
Qed.

(** The tokens of a code span in a serialization: none is a backtick. *)
Lemma code_tokens chars s :
  (forall a, in_string a chars = true -> in_string a punctuation = true) ->
  free_of (String newline "|") s = true ->
  in_string "`" chars || free_of "`" s = true ->
  exists tx,
    lex [] (backslash_escape s chars) = Some tx
    /\ src tx = s /\ Forall code_part tx.
Proof.
  intros Hc Hs Hb.
  destruct (lex_escaped_text chars Hc s [] Hs) as (tx & Hlex & Hsrc & Htx).
  exists tx. split; [exact Hlex|]. split; [exact Hsrc|].
  revert Htx. apply List.Forall_impl.
  intros tok [Ht [Hl|(a & H1 & H2 & H3)]]; (split; [exact Ht|]);
    [left; exact Hl|].
  right. exists a. split; [exact H1|].
  destruct (Ascii.eqb a "`") eqn:E; [|reflexivity].
  apply Ascii.eqb_eq in E. subst a.
  apply orb_prop in Hb as [Hb|Hb]; [congruence|].
  pose proof (free_of_in "`" s "`" Hb H3) as F. discriminate.
Qed.

Lemma href_tokens h :
  free_of (String newline "|") h = true ->
  exists tx,
    lex [] (backslash_escape h "()") = Some tx
    /\ src tx = h /\ Forall href_part tx.
Proof.
  intros Hs.
  destruct (lex_escaped_text "()" (chars_punctuation "()" eq_refl) h [] Hs)
    as (tx & Hlex & Hsrc & Htx).
  exists tx. split; [exact Hlex|]. split; [exact Hsrc|].
  revert Htx. apply List.Forall_impl.
  intros tok [Ht [Hl|(a & H1 & H2 & H3)]]; (split; [exact Ht|]);
    [left; exact Hl|].
  right. exists a. split; assumption.
Qed.

Module ParserBack.
Import Parser.

Lemma result_bindM (m : M Node) (k : Node -> M Node) v x rest e node rest' :
  result_is (m v) x rest e ->
  (forall w, stream w = rest -> tokenizer_end w = e ->
             result_is (k x w) node rest' e) ->
  result_is (bindM m k v) node rest' e.
Proof.
  intros (w & Hm & Hs & He) Hk. rewrite (bindM_step _ _ _ _ _ Hm).
  apply Hk; assumption.
Qed.

Lemma parse_code_back :
  forall tx n txt v t0 rest,
    Forall code_part tx ->
    stream v = tx ++ mkToken BACKTICK (Some "`") :: rest ->
    join txt = Ok t0 ->
    length tx < n ->
    result_is (parse_code n txt v) (MarkdownCode (t0 +:+ src tx)) rest
      (tokenizer_end v).
Proof.
  induction tx as [|tok tx IH]; intros n txt v t0 rest Htx Hv Hj Hn;
    (destruct n as [|n]; [simpl in Hn; lia|]);
    destruct (read_stream v _ _ Hv) as (v1 & Hread & Hv1 & He1);
    cbn [parse_code]; rewrite (bindM_step _ _ _ _ _ Hread).
  - cbn [type]. unfold bindM, lift, ret. rewrite Hj.
    exists v1. change (src []) with "". rewrite append_nil_r. auto.
  - inversion Htx as [|? ? [Ht Hty] Htx']; subst.
    assert (Hnext :
      result_is (parse_code n (txt ++ [text tok]) v1)
        (MarkdownCode (t0 +:+ src (tok :: tx))) rest (tokenizer_end v)).
    { rewrite Ht, src_cons, <- append_assoc, <- He1.
      apply IH; [exact Htx' | exact Hv1 | apply ParserCell.join_app, Hj|].
      simpl in Hn. lia. }
    destruct Hty as [Hty|(a & Ha & Hb)].
    + rewrite Hty. exact Hnext.
    + apply ParserCell.special_cases in Ha.
      destruct Ha as [[-> Ha]|[[-> Ha]|[[-> Ha]|[[-> Ha]|[-> Ha]]]]];
        try discriminate; rewrite Ha; exact Hnext.
Qed.

Lemma parse_link_href_back :
  forall tx n label href v h0 rest,
    Forall href_part tx ->
    stream v = tx ++ mkToken CLOSE_PAREN (Some ")") :: rest ->
    join href = Ok h0 ->
    length tx < n ->
    result_is (parse_link_href n label href v)
      (MarkdownLink (Markdown label) (h0 +:+ src tx)) rest (tokenizer_end v).
Proof.
  induction tx as [|tok tx IH]; intros n label href v h0 rest Htx Hv Hj Hn;
    (destruct n as [|n]; [simpl in Hn; lia|]);
    destruct (read_stream v _ _ Hv) as (v1 & Hread & Hv1 & He1);
    cbn [parse_link_href]; rewrite (bindM_step _ _ _ _ _ Hread).
  - cbn [type]. unfold bindM, lift, ret. rewrite Hj.
    exists v1. change (src []) with "". rewrite append_nil_r. auto.
  - inversion Htx as [|? ? [Ht Hty] Htx']; subst.
    assert (Hnext :
      result_is (parse_link_href n label (href ++ [text tok]) v1)
        (MarkdownLink (Markdown label) (h0 +:+ src (tok :: tx))) rest
        (tokenizer_end v)).
    { rewrite Ht, src_cons, <- append_assoc, <- He1.
      apply IH; [exact Htx' | exact Hv1 | apply ParserCell.join_app, Hj|].
      simpl in Hn. lia. }
    destruct Hty as [Hty|(a & Ha & Hb)].
    + rewrite Hty. exact Hnext.
    + apply ParserCell.special_cases in Ha.
      destruct Ha as [[-> Ha]|[[-> Ha]|[[-> Ha]|[[-> Ha]|[-> Ha]]]]];
        try discriminate; rewrite Ha; exact Hnext.
Qed.

End ParserBack.
(** The tokens of a literal or code span, by cases. *)
Lemma leaf_tokens_cases singles chars x :
  (forall a, in_string a chars = true -> in_string a punctuation = true) ->
  (forall a, in_string a singles = true ->
     (exists ty, special a = Some ty) /\ in_string a chars = false) ->
  leaf_ok singles chars x = true ->
  (exists a ty,
      x = MarkdownLiteral (Some (str1 a)) /\ in_string a singles = true
      /\ special a = Some ty
      /\ leaf_tokens singles chars x = [mkToken ty (Some (str1 a))])
  \/ (exists s,
         x = MarkdownLiteral (Some s)
         /\ leaf_tokens singles chars x = [mkToken LITERAL (Some s)])
  \/ (exists s tx,
         x = MarkdownCode s
         /\ leaf_tokens singles chars x
            = mkToken BACKTICK (Some "`")
              :: tx ++ [mkToken BACKTICK (Some "`")]
         /\ Forall code_part tx /\ src tx = s).
Proof.
  intros Hc Hs Hx. destruct x as [c|[s|]|s|lb h]; try discriminate.
  - cbn [leaf_ok] in Hx. destruct (one_of singles s) eqn:E.
    + left. apply one_of_inv in E as (a & -> & Ha).
      destruct (single_text singles chars Hs a Ha) as (ty & Hty & _ & Ht).
      exists a, ty. auto.
    + right. left. exists s. split; [reflexivity|].
      cbn [leaf_tokens]. rewrite E. reflexivity.
  - right. right. cbn [leaf_ok] in Hx. apply andb_prop in Hx as [H1 H2].
    destruct (code_tokens chars s Hc H1 H2) as (tx & Hlex & Hsrc & Htx).
    exists s, tx. split; [reflexivity|]. split; [|split; assumption].
    cbn [leaf_tokens]. unfold cell_lex. rewrite Hlex. reflexivity.
Qed.

Lemma opens_bracket_tokens y :
  child_ok y = true -> opens_bracket y = true ->
  exists R, child_tokens y = mkToken OPEN_BRACKET (Some "[") :: R.
Proof.
  destruct y as [[|[|[s|]| |] lb]|[s|]|s|[lb| | |] h]; try discriminate;
    intros _ _; eexists; reflexivity.
Qed.

Module ParserBackList.
Import Parser ParserBack.

(** [parse_link] on the tokens of the literals and code spans of a
    label adds them to the label. *)
Lemma parse_link_leaves chars :
  (forall a, in_string a chars = true -> in_string a punctuation = true) ->
  (forall a, in_string a "()" = true ->
     (exists ty, special a = Some ty) /\ in_string a chars = false) ->
  forall l prev n label v rest e node rest',
    shape_list (leaf_ok "()" chars) "()" prev l = true ->
    stream v = flat_map (leaf_tokens "()" chars) l ++ rest ->
    length (stream v) <= n -> tokenizer_end v = e ->
    (forall n' v',
        stream v' = rest -> length rest <= n' -> tokenizer_end v' = e ->
        result_is (parse_link n' (label ++ l) v') node rest' e) ->
    result_is (parse_link n label v) node rest' e.
Proof.
  intros Hc Hs.
  induction l as [|x l IH]; intros prev n label v rest e node rest' H Hv Hn He Hk.
  { cbn [flat_map app] in Hv. rewrite <- (app_nil_r label).
    apply Hk; [exact Hv| |exact He]. rewrite <- Hv. exact Hn. }
  cbn [shape_list] in H. apply andb_prop in H as [H Hl].
  apply andb_prop in H as [_ Hx].
  cbn [flat_map] in Hv. rewrite <- app_assoc in Hv.
  assert (Hk' : forall n' v',
    stream v' = rest -> length rest <= n' -> tokenizer_end v' = e ->
    result_is (parse_link n' ((label ++ [x]) ++ l) v') node rest' e).
  { intros n' v'. rewrite <- app_assoc. apply Hk. }
  destruct (leaf_tokens_cases "()" chars x Hc Hs Hx)
    as [(a & ty & -> & Ha & Hty & Ht)|[(s & -> & Ht)|(s & tx & -> & Ht & Htx & Hsrc)]];
    rewrite Ht in Hv; cbn [app] in Hv;
    (destruct n as [|n]; [rewrite Hv in Hn; simpl in Hn; lia|]);
    destruct (read_stream v _ _ Hv) as (v1 & Hread & Hv1 & He1);
    cbn [parse_link]; rewrite (bindM_step _ _ _ _ _ Hread); cbn [type text];
    rewrite Hv in Hn; cbn [length] in Hn.
  - (* a parenthesis *)
    assert (Hnext : result_is
              (parse_link n (label ++ [MarkdownLiteral (Some (str1 a))]) v1)
              node rest' e).
    { apply (IH _ n _ v1 rest e node rest' Hl Hv1);
        [rewrite Hv1; lia | congruence | exact Hk']. }
    cbn [in_string] in Ha.
    destruct (Ascii.eqb a "(") eqn:E1;
      [apply Ascii.eqb_eq in E1; subst a; injection Hty as <-; exact Hnext|].
    destruct (Ascii.eqb a ")") eqn:E2; [|discriminate].
    apply Ascii.eqb_eq in E2; subst a; injection Hty as <-; exact Hnext.
  - (* a literal *)
    apply (IH _ n _ v1 rest e node rest' Hl Hv1);
      [rewrite Hv1; lia | congruence | exact Hk'].
  - (* a code span *)
    rewrite <- app_assoc in Hv1. cbn [app] in Hv1.
    rewrite !length_app in Hn. cbn [length] in Hn.
    apply (result_bindM _ _ v1 (MarkdownCode s)
             (flat_map (leaf_tokens "()" chars) l ++ rest) e).
    + rewrite <- He, <- He1, <- Hsrc. change (src tx) with ("" +:+ src tx).
      apply (parse_code_back tx n [] v1 "" _ Htx Hv1 eq_refl). lia.
    + intros w Hw Hew.
      apply (IH _ n _ w rest e node rest' Hl Hw); [|exact Hew|exact Hk'].
      rewrite Hw, length_app. lia.
Qed.

End ParserBackList.
Module ParserBackCell.
Import Parser ParserBack ParserBackList.

(** [parse_table_cell] on the tokens of the serialization of the children
    of a cell builds these children. *)
Lemma parse_children_back :
  forall l prev n children v ce rest e,
    shape_list child_ok "]()" prev l = true ->
    stream v = flat_map child_tokens l ++ ce :: rest ->
    type ce = TABLE_CELL_END ->
    length (stream v) <= n -> tokenizer_end v = e ->
    result_is (parse_table_cell n children v) (Markdown (children ++ l))
      rest e.
Proof.
  induction l as [|x l IH]; intros prev n children v ce rest e H Hv Hce Hn He.
  { cbn [flat_map app] in Hv.
    destruct n as [|n]; [rewrite Hv in Hn; simpl in Hn; lia|].
    destruct (read_stream v _ _ Hv) as (v1 & Hread & Hv1 & He1).
    cbn [parse_table_cell]. rewrite (bindM_step _ _ _ _ _ Hread), Hce.
    exists v1. rewrite app_nil_r. unfold ret.
    split; [reflexivity|]. split; [exact Hv1 | congruence]. }
  cbn [shape_list] in H. apply andb_prop in H as [H Hl].
  apply andb_prop in H as [_ Hx].
  cbn [flat_map] in Hv. rewrite <- app_assoc in Hv.
  set (T := flat_map child_tokens l ++ ce :: rest) in *.
  assert (Hcont : forall m w,
    stream w = T -> length T <= m -> tokenizer_end w = e ->
    result_is (parse_table_cell m (children ++ [x]) w)
      (Markdown (children ++ x :: l)) rest e).
  { intros m w Hw Hm Hew.
    replace (children ++ x :: l) with ((children ++ [x]) ++ l)
      by (rewrite <- app_assoc; reflexivity).
    apply (IH _ m _ w ce rest e Hl Hw Hce); [rewrite Hw; exact Hm | exact Hew]. }
  assert (Hcases := leaf_tokens_cases "]()" "`" x
                      (chars_punctuation "`" eq_refl)
                      (singles_special "]()" "`" eq_refl)).
  destruct x as [[|[|[s|]| |] lb]|[s|]|s|[lb| | |] h]; try discriminate.
  - (* bracketed text *)
    clear Hcases. cbn [child_ok] in Hx. apply andb_prop in Hx as [Hs Hlb].
    apply String.eqb_eq in Hs. subst s.
    assert (HT : exists R, T = mkToken OPEN_BRACKET (Some "[") :: R).
    { subst T. cbn [next_before] in Hl. destruct l as [|y l]; [discriminate|].
      cbn [shape_list] in Hl. apply andb_prop in Hl as [Hl _].
      apply andb_prop in Hl as [Hy1 Hy2]. cbn [fits] in Hy1.
      destruct (opens_bracket_tokens y Hy2 Hy1) as [R HR].
      cbn [flat_map]. rewrite HR. eexists. reflexivity. }
    cbn [child_tokens app] in Hv.
    destruct n as [|n]; [rewrite Hv in Hn; simpl in Hn; lia|].
    destruct (read_stream v _ _ Hv) as (v1 & Hread & Hv1 & He1).
    cbn [parse_table_cell]. rewrite (bindM_step _ _ _ _ _ Hread). cbn [type].
    rewrite Hv in Hn. cbn [length] in Hn. rewrite length_app in Hn.
    apply (result_bindM _ _ v1
             (Markdown (MarkdownLiteral (Some "[") :: lb)) T e).
    + apply (parse_link_leaves "`" (chars_punctuation "`" eq_refl)
               (singles_special "()" "`" eq_refl) lb at_first n [] v1 T e _ _
               Hlb Hv1); [rewrite Hv1, length_app; lia | congruence|].
      intros n' v' Hv' Hn' He'. cbn [app]. destruct HT as [R HT].
      rewrite HT in Hv', Hn'.
      destruct n' as [|n']; [simpl in Hn'; lia|].
      destruct (read_stream v' _ _ Hv') as (v2 & Hread2 & Hv2 & He2).
      cbn [parse_link]. rewrite (bindM_step _ _ _ _ _ Hread2). cbn [type].
      destruct (unread_stream (mkToken OPEN_BRACKET (Some "[")) v2)
        as (v3 & Hun & Hv3 & He3).
      rewrite (bindM_step _ _ _ _ _ Hun). exists v3. unfold ret.
      split; [reflexivity|]. split; [|congruence].
      rewrite Hv3, Hv2, HT. reflexivity.
    + intros w Hw Hew. apply Hcont; [exact Hw | lia | exact Hew].
  - (* a literal *)
    cbn [child_ok] in Hx.
    destruct (Hcases Hx)
      as [(a & ty & Hs & Ha & Hty & Ht)|[(s' & Hs & Ht)|(s' & tx & Hs & _)]];
      [| |discriminate]; injection Hs as Hs; subst;
      cbn [child_tokens] in Hv; rewrite Ht in Hv; cbn [app] in Hv;
      (destruct n as [|n]; [rewrite Hv in Hn; simpl in Hn; lia|]);
      destruct (read_stream v _ _ Hv) as (v1 & Hread & Hv1 & He1);
      cbn [parse_table_cell]; rewrite (bindM_step _ _ _ _ _ Hread);
      cbn [type text]; rewrite Hv in Hn; cbn [length] in Hn;
      match goal with
      | |- context [MarkdownLiteral (Some ?t) :: l] =>
          assert (Hnext : result_is
                    (parse_table_cell n
                       (children ++ [MarkdownLiteral (Some t)]) v1)
                    (Markdown (children ++ MarkdownLiteral (Some t) :: l))
                    rest (tokenizer_end v))
            by (apply Hcont; [exact Hv1 | lia | congruence])
      end;
      [|exact Hnext].
    apply ParserCell.special_cases in Hty.
    destruct Hty as [[-> ->]|[[-> ->]|[[-> ->]|[[-> ->]|[-> ->]]]]];
      try discriminate; exact Hnext.
  - (* a code span *)
    cbn [child_ok] in Hx.
    destruct (Hcases Hx)
      as [(a & ty & Hs & _)|[(s' & Hs & _)|(s' & tx & Hs & Ht & Htx & Hsrc)]];
      try discriminate.
    injection Hs as <-.
    cbn [child_tokens] in Hv. rewrite Ht in Hv. cbn [app] in Hv.
    rewrite <- app_assoc in Hv. cbn [app] in Hv.
    destruct n as [|n]; [rewrite Hv in Hn; simpl in Hn; lia|].
    destruct (read_stream v _ _ Hv) as (v1 & Hread & Hv1 & He1).
    cbn [parse_table_cell]. rewrite (bindM_step _ _ _ _ _ Hread). cbn [type].
    rewrite Hv in Hn. cbn [length] in Hn. rewrite length_app in Hn.
    cbn [length] in Hn.
    apply (result_bindM _ _ v1 (MarkdownCode s) T e).
    + rewrite <- He, <- He1, <- Hsrc. change (src tx) with ("" +:+ src tx).
      apply (parse_code_back tx n [] v1 "" _ Htx Hv1 eq_refl). lia.
    + intros w Hw Hew. apply Hcont; [exact Hw | lia | exact Hew].
  - (* a link *)
    clear Hcases. cbn [child_ok] in Hx. apply andb_prop in Hx as [Hlb Hh].
    destruct (href_tokens h Hh) as (tx & Hlex & Hsrc & Htx).
    cbn [child_tokens] in Hv. unfold cell_lex in Hv. rewrite Hlex in Hv.
    cbn [app] in Hv. rewrite <- !app_assoc in Hv. cbn [app] in Hv.
    rewrite <- !app_assoc in Hv. cbn [app] in Hv.
    destruct n as [|n]; [rewrite Hv in Hn; simpl in Hn; lia|].
    destruct (read_stream v _ _ Hv) as (v1 & Hread & Hv1 & He1).
    cbn [parse_table_cell]. rewrite (bindM_step _ _ _ _ _ Hread). cbn [type].
    rewrite Hv in Hn. cbn [length] in Hn. rewrite length_app in Hn.
    cbn [length] in Hn. rewrite length_app in Hn. cbn [length] in Hn.
    apply (result_bindM _ _ v1 (MarkdownLink (Markdown lb) h) T e).
    + apply (parse_link_leaves "[]" (chars_punctuation "[]" eq_refl)
               (singles_special "()" "[]" eq_refl) lb at_first n [] v1 _ e _ _
               Hlb Hv1);
        [rewrite Hv1, length_app; cbn [length]; rewrite length_app;
         cbn [length]; lia | congruence|].
      intros n' v' Hv' Hn' He'. cbn [app].
      cbn [length] in Hn'. rewrite length_app in Hn'. cbn [length] in Hn'.
      destruct n' as [|n']; [lia|].
      destruct (read_stream v' _ _ Hv') as (v2 & Hread2 & Hv2 & He2).
      cbn [parse_link]. rewrite (bindM_step _ _ _ _ _ Hread2). cbn [type].
      destruct (read_stream v2 _ _ Hv2) as (v3 & Hread3 & Hv3 & He3).
      unfold parse_link_tail. rewrite (bindM_step _ _ _ _ _ Hread3).
      cbn [type]. rewrite <- Hsrc. change (src tx) with ("" +:+ src tx).
      replace e with (tokenizer_end v3) by congruence.
      apply (parse_link_href_back tx n' lb [] v3 "" T Htx Hv3 eq_refl). lia.
    + intros w Hw Hew. apply Hcont; [exact Hw | lia | exact Hew].
Qed.

End ParserBackCell.
(** *** Trees that are read back *)

Lemma all_chars_both (p q r : ascii -> bool) s :
  (forall a, p a = true -> q a = true -> r a = true) ->
  all_chars p s = true -> all_chars q s = true -> all_chars r s = true.
Proof.
  intros H. induction s as [|a s IH]; [reflexivity|].
  cbn [all_chars]. intros Hp Hq.
  apply andb_prop in Hp as [Hp1 Hp2]. apply andb_prop in Hq as [Hq1 Hq2].
  rewrite (H a Hp1 Hq1), (IH Hp2 Hq2). reflexivity.
Qed.

Lemma all_chars_impl (p r : ascii -> bool) s :
  (forall a, p a = true -> r a = true) ->
  all_chars p s = true -> all_chars r s = true.
Proof. intros H Hp. apply (all_chars_both p p r s); auto. Qed.

Ltac by_chars :=
  let a := fresh "a" in
  intros a; unfold literal_char, special, nl, str1; cbn [in_string];
  repeat match goal with
         | |- context [Ascii.eqb a ?c] => destruct (Ascii.eqb a c)
         end;
  simpl; congruence.

Lemma escape_concat chars l :
  backslash_escape (concat_strings l) chars
  = concat_strings (map (fun s => backslash_escape s chars) l).
Proof.
  induction l as [|s l IH]; [reflexivity|].
  cbn [concat_strings map]. rewrite escape_append, IH. reflexivity.
Qed.

(** A literal or code span outside a link label. *)
Lemma leaf_outside singles x :
  (forall a, in_string a singles = true -> in_string a "]()" = true) ->
  cell_leaf x = true -> restorable_outside singles x = true ->
  leaf_ok singles "`" x = true /\ to_markdown x = Ok (leaf_text "`" x).
Proof.
  intros Hsub Hl Hr. destruct x as [c|[s|]|s|lb h]; try discriminate.
  - cbn [cell_leaf restorable_outside leaf_ok to_markdown leaf_text] in *.
    apply andb_prop in Hl as [Hne Hnl].
    assert (Hfree : free_of "`" s = true).
    { apply orb_prop in Hr as [Hr|Hr].
      - revert Hr. unfold free_of. apply all_chars_impl. by_chars.
      - apply one_of_inv in Hr as (a & -> & Ha). apply Hsub in Ha.
        cbn [in_string] in Ha.
        repeat match type of Ha with
               | (if Ascii.eqb a ?c then _ else _) = _ =>
                   let E := fresh in
                   destruct (Ascii.eqb a c) eqn:E;
                   [apply Ascii.eqb_eq in E; subst a; reflexivity|]
               end.
        discriminate. }
    split; [|rewrite (escape_free s "`" Hfree); reflexivity].
    destruct (one_of singles s); [reflexivity|].
    rewrite orb_false_r in Hr. rewrite orb_false_l, Hne. simpl. revert Hr Hnl. unfold free_of.
    apply all_chars_both. by_chars.
  - cbn [cell_leaf restorable_outside leaf_ok to_markdown leaf_text] in *.
    split; [|reflexivity]. rewrite orb_true_l, andb_true_r.
    revert Hl Hr. unfold free_of. apply all_chars_both. by_chars.
Qed.

(** A literal or code span in a link label: escaping its serialization
    once more escapes the brackets and nothing else. *)
Lemma leaf_in_label x :
  cell_leaf x = true -> restorable_in_label x = true ->
  leaf_ok "()" "[]" x = true
  /\ exists m, to_markdown x = Ok m
               /\ backslash_escape m "[]" = leaf_text "[]" x.
Proof.
  intros Hl Hr. destruct x as [c|[s|]|s|lb h]; try discriminate.
  - cbn [cell_leaf restorable_in_label leaf_ok to_markdown leaf_text] in *.
    apply andb_prop in Hl as [Hne Hnl].
    assert (Hfree : free_of "\" s = true).
    { apply orb_prop in Hr as [Hr|Hr].
      - revert Hr. unfold free_of. apply all_chars_impl. by_chars.
      - apply one_of_inv in Hr as (a & -> & Ha).
        cbn [in_string] in Ha.
        repeat match type of Ha with
               | (if Ascii.eqb a ?c then _ else _) = _ =>
                   let E := fresh in
                   destruct (Ascii.eqb a c) eqn:E;
                   [apply Ascii.eqb_eq in E; subst a; reflexivity|]
               end.
        discriminate. }
    split.
    + destruct (one_of "()" s); [reflexivity|].
      rewrite orb_false_r in Hr. rewrite orb_false_l, Hne. simpl. revert Hr Hnl. unfold free_of.
      apply all_chars_both. by_chars.
    + exists s. rewrite (escape_id s "" Hfree). auto.
  - cbn [cell_leaf restorable_in_label leaf_ok to_markdown leaf_text] in *.
    split.
    + rewrite andb_true_iff. split.
      * revert Hl Hr. unfold free_of. apply all_chars_both. by_chars.
      * simpl. revert Hr. unfold free_of. apply all_chars_impl. by_chars.
    + assert (Hfree : free_of "\`" s = true).
      { revert Hr. unfold free_of. apply all_chars_impl. by_chars. }
      rewrite (escape_id s "`" Hfree). eexists. split; [reflexivity|].
      rewrite !escape_append. reflexivity.
Qed.

Lemma leaves_outside singles :
  (forall a, in_string a singles = true -> in_string a "]()" = true) ->
  forall l prev,
    shape_list cell_leaf singles prev l = true ->
    forallb (restorable_outside singles) l = true ->
    shape_list (leaf_ok singles "`") singles prev l = true
    /\ mapM to_markdown l = Ok (map (leaf_text "`") l).
Proof.
  intros Hsub. induction l as [|x l IH]; intros prev H Hr; [auto|].
  cbn [shape_list forallb] in H, Hr |- *.
  apply andb_prop in H as [H Hl]. apply andb_prop in H as [Hf Hx].
  apply andb_prop in Hr as [Hrx Hrl].
  destruct (leaf_outside singles x Hsub Hx Hrx) as [Hok Hm].
  destruct (IH _ Hl Hrl) as [Hs Hms].
  rewrite Hf, Hok, Hs. split; [reflexivity|].
  cbn [mapM map]. rewrite Hm, Hms. reflexivity.
Qed.

Lemma leaves_in_label :
  forall l prev,
    shape_list cell_leaf "()" prev l = true ->
    forallb restorable_in_label l = true ->
    shape_list (leaf_ok "()" "[]") "()" prev l = true
    /\ exists ms, mapM to_markdown l = Ok ms
                  /\ backslash_escape (concat_strings ms) "[]"
                     = concat_strings (map (leaf_text "[]") l).
Proof.
  induction l as [|x l IH]; intros prev H Hr.
  { split; [exact H|]. exists []. auto. }
  cbn [shape_list forallb] in H, Hr |- *.
  apply andb_prop in H as [H Hl]. apply andb_prop in H as [Hf Hx].
  apply andb_prop in Hr as [Hrx Hrl].
  destruct (leaf_in_label x Hx Hrx) as [Hok (m & Hm & Hem)].
  destruct (IH _ Hl Hrl) as [Hs (ms & Hms & Hems)].
  rewrite Hf, Hok, Hs. split; [reflexivity|].
  exists (m :: ms). cbn [mapM map concat_strings]. rewrite Hm, Hms.
  split; [reflexivity|]. rewrite escape_append, Hem, Hems. reflexivity.
Qed.

(** A child of a cell. *)
Lemma child_restorable x :
  cell_child x = true -> restorable_child x = true ->
  child_ok x = true /\ to_markdown x = Ok (child_text x).
Proof.
  intros Hc Hr.
  destruct x as [[|[|[s|]| |] lb]|[s|]|s|[lb| | |] h]; try discriminate.
  - cbn [cell_child restorable_child child_ok child_text] in *.
    apply andb_prop in Hc as [Hs Hc]. apply andb_prop in Hr as [_ Hr].
    destruct (leaves_outside "()" ltac:(by_chars) lb at_first Hc Hr)
      as [Hok Hm].
    rewrite Hs, Hok. split; [reflexivity|].
    apply String.eqb_eq in Hs. subst s.
    cbn [to_markdown mapM] in Hm |- *. cbn [bind]. rewrite Hm. reflexivity.
  - apply (leaf_outside "]()"); [by_chars | exact Hc | exact Hr].
  - apply (leaf_outside "]()"); [by_chars | exact Hc | exact Hr].
  - cbn [cell_child restorable_child child_ok child_text] in *.
    apply andb_prop in Hc as [Hc Hh]. apply andb_prop in Hr as [Hr Hp].
    destruct (leaves_in_label lb at_first Hc Hr) as [Hok (ms & Hms & Hems)].
    rewrite Hok. split.
    + revert Hh Hp. unfold free_of. apply all_chars_both. by_chars.
    + cbn [to_markdown]. rewrite Hms. cbn [bind]. rewrite Hems.
      reflexivity.
Qed.

Lemma children_restorable :
  forall l prev,
    shape_list cell_child "]()" prev l = true ->
    forallb restorable_child l = true ->
    shape_list child_ok "]()" prev l = true
    /\ mapM to_markdown l = Ok (map child_text l).
Proof.
  induction l as [|x l IH]; intros prev H Hr; [auto|].
  cbn [shape_list forallb] in H, Hr |- *.
  apply andb_prop in H as [H Hl]. apply andb_prop in H as [Hf Hx].
  apply andb_prop in Hr as [Hrx Hrl].
  destruct (child_restorable x Hx Hrx) as [Hok Hm].
  destruct (IH _ Hl Hrl) as [Hs Hms].
  rewrite Hf, Hok, Hs. split; [reflexivity|].
  cbn [mapM map]. rewrite Hm, Hms. reflexivity.
Qed.

(** The serialization of a tree that has the shape of a cell and is
    restorable is read back as the same tree. *)
Lemma roundtrip_of_shape t :
  cell_shape t = true -> restorable t = true ->
  exists m,
    to_markdown t = Ok m /\ cell_text m = true /\ parse_cell m = Some (Ok t).
Proof.
  destruct t as [l| | |]; try discriminate. cbn [cell_shape restorable].
  intros Hs Hr. destruct (children_restorable l at_first Hs Hr) as [Hok Hm].
  exists (concat_strings (map child_text l)).
  split; [cbn [to_markdown]; rewrite Hm; reflexivity|].
  destruct (lex_children l at_first "" Hok eq_refl) as [Hlex _].
  rewrite append_nil_r in Hlex. simpl in Hlex. rewrite app_nil_r in Hlex.
  split; [unfold cell_text; rewrite Hlex; reflexivity|].
  unfold parse_cell. rewrite (tokenize_cell _ _ Hlex). cbv zeta.
  set (toks := row_begin :: _).
  destruct (read_stream (Parser.init toks Done) row_begin
              (flat_map child_tokens l
               ++ cell_end :: [mkToken TABLE_ROW_END (Some ""); mkToken EOF None]))
    as (v1 & Hread & Hv1 & He1).
  { unfold stream, Parser.init, toks.
    cbn [Parser.unread_buf Parser.tokenizer app]. reflexivity. }
  rewrite (bindM_step _ _ _ _ _ Hread).
  destruct (ParserBackCell.parse_children_back l at_first
              (Parser.size (Parser.init toks Done)) [] v1 cell_end _ Done
              Hok Hv1 eq_refl) as (w & -> & _); [|exact He1|reflexivity].
  rewrite Hv1. unfold Parser.size, Parser.init, toks.
  cbn [Parser.unread_buf Parser.tokenizer length]. rewrite !length_app.
  cbn [length]. lia.
Qed.
(** *** The shape of the trees that the parser builds *)

(** A token in a cell, by its type. *)
Lemma step_cell p tok q :
  mid p \/ p = cell_start -> step p tok = Some q ->
  match type tok with
  | LITERAL =>
      exists s, text tok = Some s /\ String.eqb s "" = false
                /\ free_of nl s = true /\ p <> after_literal
                /\ q = after_literal
  | BACKTICK => text tok = Some "`" /\ q = in_cell
  | OPEN_BRACKET => text tok = Some "[" /\ q = in_cell
  | CLOSE_BRACKET => text tok = Some "]" /\ q = in_cell
  | OPEN_PAREN => text tok = Some "(" /\ q = in_cell
  | CLOSE_PAREN => text tok = Some ")" /\ q = in_cell
  | TABLE_CELL_END => q = cell_start
  | TABLE_ROW_END => p = cell_start
  | _ => False
  end.
Proof.
  intros Hp H. destruct tok as [ty [s|]];
    unfold step, one_char_token, cell_token in H; cbn [type text] in *;
    destruct Hp as [[-> | ->] | ->]; destruct ty; try discriminate;
    try reflexivity;
    repeat match type of H with
           | (if ?b then _ else _) = _ =>
               let E := fresh "E" in destruct b eqn:E; [|discriminate]
           end;
    injection H as <-;
    try (apply String.eqb_eq in E; subst s; split; reflexivity);
    try reflexivity;
    apply andb_prop in E as [E1 E2]; apply negb_true_iff in E1;
    exists s; repeat split; try assumption; discriminate.
Qed.

Lemma shape_list_first ok singles prev l :
  shape_list ok singles prev l = true ->
  shape_list ok singles at_first l = true.
Proof.
  destruct l as [|x l]; [reflexivity|]. cbn [shape_list fits].
  intros H. apply andb_prop in H as [H Hl]. apply andb_prop in H as [_ Hx].
  rewrite Hx, Hl. reflexivity.
Qed.

Module ParserShape.
Import Parser ParserKeeps.

Lemma on_return_bindM {A B : Type} (m : M A) (k : A -> M B) v
    (Q : A -> Vars -> Prop) (R : B -> Vars -> Prop) :
  on_return (m v) Q ->
  (forall a w, Q a w -> on_return (k a w) R) ->
  on_return (bindM m k v) R.
Proof.
  unfold bindM. destruct (m v) as [[[a w]|e]|]; simpl; auto.
Qed.

Lemma on_return_read p v :
  stream_from p v -> p <> finished ->
  on_return (read_token v)
    (fun tok v' => stream v = tok :: stream v'
                   /\ exists q, step p tok = Some q /\ stream_from q v').
Proof.
  intros Hv Hp. pose proof (returns_read p v Hv Hp) as H.
  destruct (read_token v) as [[[a w]|e]|]; simpl in *; auto.
Qed.

Lemma free_of_snoc chars l s :
  free_of chars (concat_strings l) = true -> free_of chars s = true ->
  free_of chars (concat_strings (l ++ [s])) = true.
Proof.
  intros Hl Hs. rewrite concat_strings_snoc, free_of_append, Hl, Hs.
  reflexivity.
Qed.

Lemma parse_code_shape n :
  forall l v p,
    mid p -> stream_from p v ->
    free_of nl (concat_strings l) = true ->
    on_return (parse_code n (map Some l) v)
      (fun node v' =>
         (exists s, node = MarkdownCode s /\ free_of nl s = true)
         /\ stream_from in_cell v').
Proof.
  induction n as [|n IH]; intros l v p Hp Hv Hl; [exact I|].
  cbn [parse_code].
  eapply on_return_bindM;
    [apply (on_return_read p v Hv (mid_not_finished p Hp))|].
  intros tok w (_ & q & Hstep & Hw). cbv beta.
  apply step_cell in Hstep; [|left; exact Hp].
  assert (Hnext : forall s,
    text tok = Some s -> free_of nl s = true -> mid q ->
    on_return (parse_code n (map Some l ++ [text tok]) w)
      (fun node v' =>
         (exists s, node = MarkdownCode s /\ free_of nl s = true)
         /\ stream_from in_cell v')).
  { intros s Hs Hf Hq. rewrite Hs. change [Some s] with (map Some [s]).
    rewrite <- map_app. apply (IH _ _ q Hq Hw). apply free_of_snoc; assumption. }
  destruct (type tok); try exact I; try contradiction.
  - destruct Hstep as (s & Hs & _ & Hf & _ & ->).
    apply (Hnext s Hs Hf). right. reflexivity.
  - rewrite join_texts. simpl. destruct Hstep as [_ ->]. eauto.
  - destruct Hstep as [Hs ->]. apply (Hnext _ Hs eq_refl). left. reflexivity.
  - destruct Hstep as [Hs ->]. apply (Hnext _ Hs eq_refl). left. reflexivity.
  - destruct Hstep as [Hs ->]. apply (Hnext _ Hs eq_refl). left. reflexivity.
  - destruct Hstep as [Hs ->]. apply (Hnext _ Hs eq_refl). left. reflexivity.
Qed.

Lemma parse_link_href_shape n :
  forall label l v p,
    mid p -> stream_from p v ->
    free_of nl (concat_strings l) = true ->
    on_return (parse_link_href n label (map Some l) v)
      (fun node v' =>
         (exists h, node = MarkdownLink (Markdown label) h
                    /\ free_of nl h = true)
         /\ stream_from in_cell v').
Proof.
  induction n as [|n IH]; intros label l v p Hp Hv Hl; [exact I|].
  cbn [parse_link_href].
  eapply on_return_bindM;
    [apply (on_return_read p v Hv (mid_not_finished p Hp))|].
  intros tok w (_ & q & Hstep & Hw). cbv beta.
  apply step_cell in Hstep; [|left; exact Hp].
  assert (Hnext : forall s,
    text tok = Some s -> free_of nl s = true -> mid q ->
    on_return (parse_link_href n label (map Some l ++ [text tok]) w)
      (fun node v' =>
         (exists h, node = MarkdownLink (Markdown label) h
                    /\ free_of nl h = true)
         /\ stream_from in_cell v')).
  { intros s Hs Hf Hq. rewrite Hs. change [Some s] with (map Some [s]).
    rewrite <- map_app. apply (IH _ _ _ q Hq Hw).
    apply free_of_snoc; assumption. }
  destruct (type tok); try exact I; try contradiction.
  - destruct Hstep as (s & Hs & _ & Hf & _ & ->).
    apply (Hnext s Hs Hf). right. reflexivity.
  - destruct Hstep as [Hs ->]. apply (Hnext _ Hs eq_refl). left. reflexivity.
  - destruct Hstep as [Hs ->]. apply (Hnext _ Hs eq_refl). left. reflexivity.
  - destruct Hstep as [Hs ->]. apply (Hnext _ Hs eq_refl). left. reflexivity.
  - rewrite join_texts. simpl. destruct Hstep as [_ ->]. eauto.
Qed.

Lemma link_result_cons label p q x node v' :
  fits "()" (before_of p) x = true -> cell_leaf x = true ->
  before_of q = next_before "()" x \/ next_before "()" x = at_first ->
  link_result (label ++ [x]) q node v' -> link_result label p node v'.
Proof.
  intros Hf Hx Hq (extra & Hs & H). exists (x :: extra). split.
  - cbn [shape_list]. rewrite Hf, Hx. simpl.
    destruct Hq as [<- | ->]; [exact Hs|].
    apply (shape_list_first _ _ _ _ Hs).
  - rewrite <- app_assoc in H. exact H.
Qed.

Lemma parse_link_tail_shape n label v p :
  stream_from in_cell v ->
  on_return (parse_link_tail n label v) (link_result label p).
Proof.
  intros Hv. unfold parse_link_tail.
  eapply on_return_bindM;
    [apply (on_return_read in_cell v Hv); discriminate|].
  intros tok w (_ & q & Hstep & Hw). cbv beta.
  apply step_cell in Hstep; [|left; left; reflexivity].
  destruct (type tok); try exact I; try contradiction.
  destruct Hstep as [_ ->].
  pose proof (parse_link_href_shape n label [] w in_cell
                ltac:(left; reflexivity) Hw eq_refl) as H.
  cbn [map] in H.
  destruct (parse_link_href n label [] w) as [[[node v']|e]|]; try exact I.
  destruct H as [(h & -> & Hh) Hv']. exists []. split.
  - destruct p; reflexivity.
  - left. exists h. rewrite app_nil_r. auto.
Qed.

Lemma parse_link_shape n :
  forall label v p,
    mid p -> stream_from p v ->
    on_return (parse_link n label v) (link_result label p).
Proof.
  induction n as [|n IH]; intros label v p Hp Hv; [exact I|].
  cbn [parse_link].
  eapply on_return_bindM;
    [apply (on_return_read p v Hv (mid_not_finished p Hp))|].
  intros tok w (Hs & q & Hstep & Hw). cbv beta.
  pose proof Hstep as Hstep'.
  apply step_cell in Hstep; [|left; exact Hp].
  assert (Hparen : forall s,
    text tok = Some s -> one_of "()" s = true -> q = in_cell ->
    on_return (parse_link n (label ++ [MarkdownLiteral (text tok)]) w)
      (link_result label p)).
  { intros s Hs' Ho ->. rewrite Hs'.
    pose proof (IH (label ++ [MarkdownLiteral (Some s)]) w in_cell
                  ltac:(left; reflexivity) Hw) as H.
    destruct (parse_link n (label ++ [MarkdownLiteral (Some s)]) w)
      as [[[node v']|e]|]; try exact I.
    cbn [on_return] in H |- *. revert H. apply link_result_cons.
    - destruct p; cbn [before_of fits token_literal];
        rewrite ?Ho, ?orb_true_r; reflexivity.
    - apply one_of_inv in Ho as (a & -> & Ha). cbn [in_string] in Ha.
      destruct (Ascii.eqb a "(") eqn:E1;
        [apply Ascii.eqb_eq in E1; subst a; reflexivity|].
      destruct (Ascii.eqb a ")") eqn:E2; [|discriminate].
      apply Ascii.eqb_eq in E2; subst a; reflexivity.
    - right. cbn [next_before token_literal]. rewrite Ho. reflexivity. }
  destruct (type tok) eqn:Hty; try exact I; try contradiction.
  - (* a literal *)
    destruct Hstep as (s & Hs' & Hne & Hf & Hpl & ->). rewrite Hs'.
    pose proof (IH (label ++ [MarkdownLiteral (Some s)]) w after_literal
                  ltac:(right; reflexivity) Hw) as H.
    destruct (parse_link n (label ++ [MarkdownLiteral (Some s)]) w)
      as [[[node v']|e]|]; try exact I.
    cbn [on_return] in H |- *. revert H. apply link_result_cons.
    + destruct Hp as [-> | ->]; [reflexivity | congruence].
    + cbn [cell_leaf]. rewrite Hne, Hf. reflexivity.
    + cbn [next_before]. destruct (token_literal "()" _); auto.
  - (* a code span *)
    destruct Hstep as [_ ->].
    eapply on_return_bindM;
      [apply (parse_code_shape n [] w in_cell ltac:(left; reflexivity) Hw
                eq_refl)|].
    intros code w' [(s & -> & Hf) Hw']. cbv beta.
    pose proof (IH (label ++ [MarkdownCode s]) w' in_cell
                  ltac:(left; reflexivity) Hw') as H.
    destruct (parse_link n (label ++ [MarkdownCode s]) w')
      as [[[node v']|e]|]; try exact I.
    cbn [on_return] in H |- *. revert H. apply link_result_cons.
    + destruct p; reflexivity.
    + exact Hf.
    + left. reflexivity.
  - (* a second open bracket *)
    destruct Hstep as [_ ->].
    pose proof (returns_unread p in_cell tok w Hstep' Hw) as H.
    unfold bindM. unfold unread_token in *. cbn [returns on_return] in *.
    destruct H as [H1 H2]. exists []. split; [destruct p; reflexivity|].
    right. rewrite app_nil_r. split; [reflexivity|]. split; [eauto|].
    exists tok, (stream w). auto.
  - (* the closing bracket *)
    destruct Hstep as [_ ->]. apply parse_link_tail_shape. exact Hw.
  - destruct Hstep as [Ht Hq]. apply (Hparen _ Ht eq_refl Hq).
  - destruct Hstep as [Ht Hq]. apply (Hparen _ Ht eq_refl Hq).
Qed.

End ParserShape.
Module ParserShapeCell.
Import Parser ParserKeeps ParserShape.

Lemma cell_result_cons children p v q w x node :
  cell_child x = true ->
  fits "]()" (before_of p) x = true ->
  (bracket_next v -> opens_bracket x = true) ->
  match next_before "]()" x with
  | at_first => True
  | open_literal => before_of q = open_literal
  | bracketed_text => bracket_next w
  end ->
  cell_result (children ++ [x]) q w node -> cell_result children p v node.
Proof.
  intros Hx Hf Hb Hn (extra & -> & Hs & Hbr). exists (x :: extra).
  split; [rewrite <- app_assoc; reflexivity|].
  assert (Hnext : shape_list cell_child "]()" (next_before "]()" x) extra
                  = true).
  { destruct (next_before "]()" x).
    - exact (shape_list_first _ _ _ _ Hs).
    - rewrite <- Hn. exact Hs.
    - exact (Hbr Hn). }
  cbn [shape_list]. rewrite Hx, Hnext, Hf. split; [reflexivity|].
  intros H. cbn [fits]. rewrite (Hb H). reflexivity.
Qed.

Lemma not_bracket_next v tok s :
  stream v = tok :: s -> type tok <> OPEN_BRACKET -> ~ bracket_next v.
Proof.
  intros Hs Hty (tok' & rest & Hs' & Hty'). rewrite Hs in Hs'.
  injection Hs' as -> _. contradiction.
Qed.

Lemma parse_table_cell_shape n :
  forall children v p,
    cell_ready p v -> stream_from p v ->
    on_return (parse_table_cell n children v)
      (fun node _ => cell_result children p v node).
Proof.
  induction n as [|n IH]; intros children v p Hp Hv; [exact I|].
  cbn [parse_table_cell].
  assert (Hp' : mid p \/ p = cell_start)
    by (destruct Hp as [Hp|[Hp _]]; auto).
  eapply on_return_bindM.
  { apply (on_return_read p v Hv).
    destruct Hp' as [[-> | ->]| ->]; discriminate. }
  intros tok w (Hs & q & Hstep & Hw). cbv beta.
  apply step_cell in Hstep; [|exact Hp'].
  assert (Hnb : type tok <> OPEN_BRACKET -> ~ bracket_next v)
    by (apply (not_bracket_next v tok _ Hs)).
  assert (Hsingle : forall s,
    text tok = Some s -> one_of "]()" s = true ->
    cell_leaf (MarkdownLiteral (Some s)) = true ->
    type tok <> OPEN_BRACKET -> q = in_cell ->
    on_return (parse_table_cell n (children ++ [MarkdownLiteral (text tok)]) w)
      (fun node _ => cell_result children p v node)).
  { intros s Ht Ho Hl Hty ->. rewrite Ht.
    pose proof (IH (children ++ [MarkdownLiteral (Some s)]) w in_cell
                  ltac:(left; left; reflexivity) Hw) as H.
    destruct (parse_table_cell n (children ++ [MarkdownLiteral (Some s)]) w)
      as [[[node v']|e]|]; try exact I.
    cbn [on_return] in H |- *. revert H. apply cell_result_cons.
    - exact Hl.
    - destruct p; cbn [before_of fits token_literal];
        rewrite ?Ho, ?orb_true_r; reflexivity.
    - intros Hb. destruct (Hnb Hty Hb).
    - cbn [next_before token_literal]. rewrite Ho. exact I. }
  destruct (type tok) eqn:Hty; try contradiction.
  - (* a literal *)
    destruct Hstep as (s & Ht & Hne & Hf & Hpl & ->). rewrite Ht.
    pose proof (IH (children ++ [MarkdownLiteral (Some s)]) w after_literal
                  ltac:(left; right; reflexivity) Hw) as H.
    destruct (parse_table_cell n (children ++ [MarkdownLiteral (Some s)]) w)
      as [[[node v']|e]|]; try exact I.
    cbn [on_return] in H |- *. revert H. apply cell_result_cons.
    + cbn [cell_child cell_leaf]. rewrite Hne, Hf. reflexivity.
    + destruct p; try reflexivity. congruence.
    + intros Hb. destruct (Hnb ltac:(discriminate) Hb).
    + cbn [next_before]. destruct (token_literal "]()" _); [exact I|].
      reflexivity.
  - (* the end of the row cannot be read here *)
    destruct Hp as [[-> | ->]|[_ Hp]]; try discriminate.
    destruct (Hp tok _ Hs Hty).
  - (* the end of the cell *)
    cbn [ret on_return]. exists []. split; [rewrite app_nil_r; reflexivity|].
    split; [destruct p; reflexivity|].
    intros Hb. destruct (Hnb ltac:(discriminate) Hb).
  - (* a code span *)
    destruct Hstep as [_ ->].
    eapply on_return_bindM;
      [apply (parse_code_shape n [] w in_cell ltac:(left; reflexivity) Hw
                eq_refl)|].
    intros code w' [(s & -> & Hf) Hw']. cbv beta.
    pose proof (IH (children ++ [MarkdownCode s]) w' in_cell
                  ltac:(left; left; reflexivity) Hw') as H.
    destruct (parse_table_cell n (children ++ [MarkdownCode s]) w')
      as [[[node v']|e]|]; try exact I.
    cbn [on_return] in H |- *. revert H. apply cell_result_cons.
    + exact Hf.
    + destruct p; reflexivity.
    + intros Hb. destruct (Hnb ltac:(discriminate) Hb).
    + exact I.
  - (* a link or bracketed text *)
    destruct Hstep as [_ ->].
    eapply on_return_bindM;
      [apply (parse_link_shape n [] w in_cell ltac:(left; reflexivity) Hw)|].
    intros link w' (extra & Hex & Hlink). cbv beta. cbn [app] in Hlink.
    cbn [before_of] in Hex.
    destruct Hlink as [(h & -> & Hh & Hw')|(-> & (p' & Hp1 & Hw') & Hb')].
    + pose proof (IH (children ++ [MarkdownLink (Markdown extra) h]) w'
                    in_cell ltac:(left; left; reflexivity) Hw') as H.
      destruct (parse_table_cell n
                  (children ++ [MarkdownLink (Markdown extra) h]) w')
        as [[[node v']|e]|]; try exact I.
      cbn [on_return] in H |- *. revert H. apply cell_result_cons.
      * cbn [cell_child]. rewrite Hex, Hh. reflexivity.
      * destruct p; reflexivity.
      * reflexivity.
      * exact I.
    + pose proof (IH (children
                      ++ [Markdown (MarkdownLiteral (Some "[") :: extra)]) w'
                    p' ltac:(left; exact Hp1) Hw') as H.
      destruct (parse_table_cell n
                  (children
                   ++ [Markdown (MarkdownLiteral (Some "[") :: extra)]) w')
        as [[[node v']|e]|]; try exact I.
      cbn [on_return] in H |- *. revert H. apply cell_result_cons.
      * cbn [cell_child]. rewrite Hex. reflexivity.
      * destruct p; reflexivity.
      * reflexivity.
      * exact Hb'.
  - destruct Hstep as [Ht Hq].
    apply (Hsingle _ Ht eq_refl eq_refl ltac:(discriminate) Hq).
  - destruct Hstep as [Ht Hq].
    apply (Hsingle _ Ht eq_refl eq_refl ltac:(discriminate) Hq).
  - destruct Hstep as [Ht Hq].
    apply (Hsingle _ Ht eq_refl eq_refl ltac:(discriminate) Hq).
Qed.

End ParserShapeCell.

(** The tree of a cell has the shape of a cell. *)
Lemma parse_cell_shape c t :
  cell_text c = true -> parse_cell c = Some (Ok t) -> cell_shape t = true.
Proof.
  unfold cell_text. destruct (lex [] c) as [toks|] eqn:Hlex; [|discriminate].
  intros _ Hparse. pose proof (tokenize_cell c toks Hlex) as Htok.
  unfold parse_cell in Hparse. rewrite Htok in Hparse. cbv zeta in Hparse.
  set (all := row_begin :: _) in *.
  pose proof (init_stream _ _ _ Htok) as Hinit.
  pose proof (ParserShape.on_return_read outside _ Hinit ltac:(discriminate))
    as Hread.
  unfold Parser.bindM in Hparse.
  unfold Parser.read_token, Parser.init in Hread, Hparse.
  cbn [Parser.unread_buf Parser.tokenizer Parser.tokenizer_end all] in Hread, Hparse.
  cbn [on_return] in Hread. destruct Hread as (_ & q & Hstep & Hv1).
  injection Hstep as <-.
  match type of Hparse with
  | context [Parser.parse_table_cell ?n [] ?w] =>
      pose proof (ParserShapeCell.parse_table_cell_shape n [] w cell_start) as H;
      destruct (Parser.parse_table_cell n [] w) as [[[node v']|e]|];
      try discriminate
  end.
  injection Hparse as ->. cbn [on_return] in H.
  destruct H as (extra & -> & Hs & _); [|exact Hv1|exact Hs].
  right. split; [reflexivity|]. intros tok rest. unfold stream.
  cbn [Parser.unread_buf Parser.tokenizer app].
  pose proof (lex_inner _ c (le_n _) [] toks Hlex) as Hin.
  destruct toks as [|tok' toks]; cbn [app]; intros [= <- _]; [discriminate|].
  cbn [forallb] in Hin. apply andb_prop in Hin as [Hin _].
  unfold inner_token in Hin. intros E. rewrite E in Hin. discriminate.
Qed.
(** C1 as stated fails, because [to_markdown] escapes in a literal only
    the backslash, in a code span also the backtick, and escapes a link
    label a second time.  In each line below a cell text is parsed, the
    tree is serialized, and the serialization parsed as a cell gives
    another tree or an exception: a literal with an escaped pipe, opening
    bracket, backtick or closing bracket; a pipe in a code span and in an
    href; in a link label a backslash, an escaped parenthesis and a code
    span with a backtick; and a closing bracket in bracketed text that is
    no link. *)
Lemma roundtrip_fails_on_escaped_pipe :
  (parse_cell "a\|b" = Some (Ok (cell "a|b"))
   /\ to_markdown (cell "a|b") = Ok "a|b"
   /\ parse_cell "a|b" = Some (Ok (cell "a")))
  /\ (parse_cell "\[x" = Some (Ok (cell "[x"))
      /\ to_markdown (cell "[x") = Ok "[x"
      /\ parse_cell "[x" = Some (Raise ValueError))
  /\ (parse_cell "a\`b" = Some (Ok (cell "a`b"))
      /\ to_markdown (cell "a`b") = Ok "a`b"
      /\ parse_cell "a`b" = Some (Raise ValueError))
  /\ (parse_cell "a\]b" = Some (Ok (cell "a]b"))
      /\ to_markdown (cell "a]b") = Ok "a]b"
      /\ parse_cell "a]b"
         = Some (Ok (Markdown [MarkdownLiteral (Some "a");
                               MarkdownLiteral (Some "]");
                               MarkdownLiteral (Some "b")])))
  /\ (parse_cell "`a\|b`" = Some (Ok (Markdown [MarkdownCode "a|b"]))
      /\ to_markdown (Markdown [MarkdownCode "a|b"]) = Ok "`a|b`"
      /\ parse_cell "`a|b`" = Some (Raise ValueError))
  /\ (parse_cell "[a](x\|y)"
      = Some (Ok (Markdown [MarkdownLink (cell "a") "x|y"]))
      /\ to_markdown (Markdown [MarkdownLink (cell "a") "x|y"])
         = Ok "[a](x|y)"
      /\ parse_cell "[a](x|y)" = Some (Raise ValueError))
  /\ (parse_cell "[\\](h)" = Some (Ok (Markdown [MarkdownLink (cell "\") "h"]))
      /\ to_markdown (Markdown [MarkdownLink (cell "\") "h"]) = Ok "[\\\\](h)"
      /\ parse_cell "[\\\\](h)"
         = Some (Ok (Markdown [MarkdownLink (cell "\\") "h"])))
  /\ (parse_cell "[a\(b](h)"
      = Some (Ok (Markdown [MarkdownLink (cell "a(b") "h"]))
      /\ to_markdown (Markdown [MarkdownLink (cell "a(b") "h"])
         = Ok "[a(b](h)"
      /\ parse_cell "[a(b](h)"
         = Some (Ok (Markdown
                       [MarkdownLink
                          (Markdown [MarkdownLiteral (Some "a");
                                     MarkdownLiteral (Some "(");
                                     MarkdownLiteral (Some "b")]) "h"])))
  /\ (parse_cell "[`a\`b`](h)"
      = Some (Ok (Markdown
                    [MarkdownLink (Markdown [MarkdownCode "a`b"]) "h"]))
      /\ to_markdown
           (Markdown [MarkdownLink (Markdown [MarkdownCode "a`b"]) "h"])
         = Ok "[`a\\`b`](h)"
      /\ parse_cell "[`a\\`b`](h)" = Some (Raise ValueError))
  /\ (parse_cell "[\][x](y)"
      = Some (Ok (Markdown
                    [Markdown [MarkdownLiteral (Some "[");
                               MarkdownLiteral (Some "]")];
                     MarkdownLink (cell "x") "y"]))
      /\ to_markdown
           (Markdown
              [Markdown [MarkdownLiteral (Some "[");
                         MarkdownLiteral (Some "]")];
               MarkdownLink (cell "x") "y"])
         = Ok "[][x](y)"
      /\ parse_cell "[][x](y)" = Some (Raise NameError)).
Proof. repeat split; vm_compute; reflexivity. Qed.

(** C1, as the code has it.  (i) A cell that holds one literal without
    newline, pipe, backtick, bracket or parenthesis is serialized with its
    backslashes escaped, and the tokenizer restores exactly that text.
    (ii) For every cell text, serializing the tree that it parses to and
    parsing the serialization as a cell gives the same tree, whenever the
    tree is [restorable]: no text of it holds a pipe; a literal outside a
    link label holds no backtick, bracket or parenthesis, unless it is
    one closing bracket or parenthesis alone; and in a link label a
    literal holds no backtick and no backslash, and no parenthesis unless
    it is that parenthesis alone, and a code span holds no backtick and
    no backslash.  The serialization is a cell text again.  So the
    backslash is escaped and restored everywhere outside link labels, the
    backtick in code spans, the brackets in link labels and the
    parentheses in hrefs. *)
Theorem roundtrip_of_restorable_cells :
  (forall s,
      plain s = true -> s <> "" ->
      to_markdown (cell s) = Ok (backslash_escape s "")
      /\ parse_cell (backslash_escape s "") = Some (Ok (cell s)))
  /\ (forall c t,
        cell_text c = true ->
        parse_cell c = Some (Ok t) ->
        restorable t = true ->
        exists m,
          to_markdown t = Ok m /\ cell_text m = true
          /\ parse_cell m = Some (Ok t)).
Proof.
  split.
  - intros s H Hne. split; [|apply parse_cell_escaped; assumption].
    cbn [cell to_markdown mapM bind concat_strings].
    rewrite append_nil_r. reflexivity.
  - intros c t Hc Hparse Hr.
    apply roundtrip_of_shape; [|exact Hr].
    exact (parse_cell_shape c t Hc Hparse).
Qed.

Lemma roundtrip_of_restorable_cells_witness :
  (to_markdown (cell "a\b") = Ok (backslash_escape "a\b" "")
   /\ parse_cell (backslash_escape "a\b" "") = Some (Ok (cell "a\b")))
  /\ exists m,
       to_markdown sample_cell_tree = Ok m /\ cell_text m = true
       /\ parse_cell m = Some (Ok sample_cell_tree).
Proof.
  split.
  - apply (proj1 roundtrip_of_restorable_cells "a\b");
      [vm_compute; reflexivity | discriminate].
  - apply (proj2 roundtrip_of_restorable_cells sample_cell_text
             sample_cell_tree); vm_compute; reflexivity.
Defined.
